(** * MonoMux: buffered channels, pipe I/O, framing and the command line

    A shallow embedding of the parts of MonoMux whose specified behaviour is
    verified below:

    - [unix::read] and [unix::write], the retry loops of
      [src/unix/system/UnixPipe.cpp], with [Pipe::readImpl] and
      [Pipe::writeImpl];
    - [BufferedChannel::read], [write], [load] and [flushWrites] of
      [src/core/system/BufferedChannel.cpp];
    - the size-prefixed framing used by [include/core/monomux/message/PascalString.hpp];
    - [client::connect] of [src/client/Main.cpp];
    - the option loop, the early exits and the dispatch of [main] in
      [src/main.cpp];
    - [Process::exec] of [src/system/Process.cpp], and [toArgv] and [exec] of
      [src/server/Main.cpp];
    - [getHumanReadableConfiguration] of [src/Config.cpp];
    - [getShortVersion] and [getFullVersion] of [src/core/Version.cpp].

    The handle under a [BufferedChannel] is the Unix pipe, the implementation
    of [readImpl] and [writeImpl] that the sources hold.  C++ exceptions are
    results ([Throw]); object state that an exception leaves behind is kept,
    as stack unwinding keeps it.  The operating system is a script of
    system-call outcomes that the calls consume in order. *)

From Stdlib Require Import ZArith NArith List Bool Lia String Ascii.
From Stdlib Require Import Strings.Byte.
From Stdlib Require Import DecimalString DecimalN.
From stdpp Require Import base tactics option list gmap strings sorting.
Import ListNotations.

Set Default Proof Using "Type".

(** ** Platform constants *)

(** [BUFSIZ] of <cstdio>: the value is the C library's (8192 with glibc, 1024
    with musl); the standard promises at least 256.  Only its being positive
    matters to the loops below. *)
Class Platform := {
  BUFSIZ : nat;
  BUFSIZ_pos : 0 < BUFSIZ
}.

(** [empty()] of a string, a string view or a ring buffer. *)
Definition isEmpty {A : Type} (l : list A) : bool :=
  match l with [] => true | _ :: _ => false end.

(** ** Errors *)

(** The members of [std::errc] that the code names, and a few others that
    system calls on a pipe produce. *)
Inductive errc :=
| interrupted                        (* EINTR *)
| operation_would_block              (* EWOULDBLOCK *)
| resource_unavailable_try_again     (* EAGAIN *)
| io_error                           (* EIO *)
| operation_not_permitted            (* EPERM *)
| broken_pipe                        (* EPIPE *)
| bad_file_descriptor                (* EBADF *)
| connection_reset.                  (* ECONNRESET *)

Definition is_interrupted (EC : errc) : bool :=
  match EC with interrupted => true | _ => false end.

Definition is_would_block (EC : errc) : bool :=
  match EC with
  | operation_would_block | resource_unavailable_try_again => true
  | _ => false
  end.

(** What a C++ function throws: [std::system_error] with its code, or
    [BufferedChannel::OverflowError] with the size found and the side. *)
Inductive exn :=
| system_error (EC : errc)
| OverflowError (Size : N) (Read Write : bool).

Inductive result (A : Type) :=
| Ok (a : A)
| Throw (e : exn).
Arguments Ok {A} a.
Arguments Throw {A} e.

(** ** The operating system *)

(** Outcome of one [::read] call: an errno, or the bytes the kernel has for
    the caller.  The kernel hands over at most the number of bytes asked for;
    no bytes is end of file (the peer has disconnected). *)
Inductive rd_outcome :=
| RdErr (EC : errc)
| RdData (data : list byte).

(** Outcome of one [::write] call: an errno, or the number of bytes the kernel
    is ready to take.  It takes at most what it is offered. *)
Inductive wr_outcome :=
| WrErr (EC : errc)
| WrAccept (n : nat).

(** The world of one file descriptor.  [rd_pending] and [wr_pending] script
    the calls to come; a non-blocking descriptor whose script has run out has
    nothing to give and takes nothing: the call fails with EAGAIN.  The other
    fields are history: [rx] are the bytes the kernel has handed over, [tx]
    the bytes it has taken (the wire), [wr_log] the calls of [writeImpl] so
    far, each with the bytes offered and the bytes sent. *)
Record World := mkWorld {
  rd_pending : list rd_outcome;
  rx : list byte;
  wr_pending : list wr_outcome;
  tx : list byte;
  wr_log : list (nat * nat)
}.

Definition set_rd (w : World) (p : list rd_outcome) (x : list byte) : World :=
  mkWorld p x (wr_pending w) (tx w) (wr_log w).

Definition set_wr (w : World) (p : list wr_outcome) (x : list byte) : World :=
  mkWorld (rd_pending w) (rx w) p x (wr_log w).

Definition log_write (w : World) (offered sent : nat) : World :=
  mkWorld (rd_pending w) (rx w) (wr_pending w) (tx w)
          (wr_log w ++ [(offered, sent)]).

(** ** src/unix/system/UnixPipe.cpp *)

Section UnixPipe.
Context `{Platform}.

(** The loop of [unix::read].  [Return] and [RemainingBytes] are the locals;
    the result carries [Return] and [ContinueReading] as the loop leaves them.
    Every iteration makes one [::read] call and so takes one outcome off the
    script. *)
Fixpoint read_loop (Bytes : nat) (pending : list rd_outcome) (rxs : list byte)
    (Return : list byte) (RemainingBytes : nat)
  : result (list byte * bool) * (list rd_outcome * list byte) :=
  if negb ((0 <? RemainingBytes) && (RemainingBytes <=? Bytes))
  then (Ok (Return, true), (pending, rxs))
  else
    match pending with
    | [] =>
        (* EAGAIN: "No more data left in the stream." *)
        (Ok (Return, true), ([], rxs))
    | RdErr EC :: rest =>
        if is_interrupted EC then
          (* "Not an error, continue." *)
          read_loop Bytes rest rxs Return RemainingBytes
        else if is_would_block EC then
          (Ok (Return, true), (rest, rxs))
        else
          (Throw (system_error EC), (rest, rxs))
    | RdData data :: rest =>
        let RawBuffer := take (Nat.min BUFSIZ RemainingBytes) data in
        let ReadBytes := length RawBuffer in
        if ReadBytes =? 0 then
          (* "Disconnected" *)
          (Ok (Return, false), (rest, rxs))
        else
          let BytesToAppendFromCurrentRead := Nat.min ReadBytes RemainingBytes in
          read_loop Bytes rest (rxs ++ RawBuffer)
            (Return ++ take BytesToAppendFromCurrentRead RawBuffer)
            (RemainingBytes - BytesToAppendFromCurrentRead)
    end.

(** [unix::read(FD, Bytes, &Success)]: the data and [*Success]. *)
Definition unix_read (Bytes : nat) (w : World)
  : result (list byte * bool) * World :=
  let '(r, (p, x)) := read_loop Bytes (rd_pending w) (rx w) [] Bytes in
  match r with
  | Ok (Return, ContinueReading) =>
      let Success :=
        if negb ContinueReading && isEmpty Return then false
        else true in
      (Ok (Return, Success), set_rd w p x)
  | Throw e => (Throw e, set_rd w p x)
  end.

(** The loop of [unix::write].  [Success] is [*Success] as the caller's
    variable stands; the result is [BytesSent], [*Success], and whether the
    function has returned from inside the loop (the would-block exit) rather
    than left it. *)
Fixpoint write_loop (pending : list wr_outcome) (txs : list byte)
    (Buffer : list byte) (BytesSent : nat) (Success : bool)
  : result (nat * bool * bool) * (list wr_outcome * list byte) :=
  if isEmpty Buffer then (Ok (BytesSent, Success, false), (pending, txs))
  else
    match pending with
    | [] =>
        (* EAGAIN: "Not a hard error. Allow buffering the remaining data." *)
        (Ok (BytesSent, true, true), ([], txs))
    | WrErr EC :: rest =>
        if is_interrupted EC then
          (* "Not an error." *)
          write_loop rest txs Buffer BytesSent Success
        else if is_would_block EC then
          (Ok (BytesSent, true, true), (rest, txs))
        else
          (Throw (system_error EC), (rest, txs))
    | WrAccept n :: rest =>
        let WriteSize := Nat.min BUFSIZ (length Buffer) in
        let SentBytes := Nat.min n WriteSize in
        if SentBytes =? 0 then
          (* "Disconnected": *Success = false; break *)
          (Ok (BytesSent, false, false), (rest, txs))
        else
          write_loop rest (txs ++ take SentBytes Buffer)
            (drop SentBytes Buffer) (BytesSent + SentBytes) Success
    end.

(** [unix::write(FD, Buffer, &Success)]: the bytes sent and [*Success].
    [Success] is declared without a value by the caller; after the loop the
    function assigns [true] to it. *)
Definition unix_write (Buffer : list byte) (w : World)
  : result (nat * bool) * World :=
  let '(r, (p, x)) := write_loop (wr_pending w) (tx w) Buffer 0 false in
  match r with
  | Ok (BytesSent, Success, returned) =>
      (Ok (BytesSent, if returned then Success else true), set_wr w p x)
  | Throw e => (Throw e, set_wr w p x)
  end.

(** *** The pipe object *)

Inductive Mode := ModeRead | ModeWrite.

Definition Mode_eqb (a b : Mode) : bool :=
  match a, b with
  | ModeRead, ModeRead | ModeWrite, ModeWrite => true
  | _, _ => false
  end.

(** A [unix::Pipe], which is a [BufferedChannel]: the mode it was opened in,
    the [failed()] flag of [Channel], and the two ring buffers, each absent
    ([nullptr]) when the constructor was given size 0 for it. *)
Record Pipe := mkPipe {
  OpenedAs : Mode;
  Failed : bool;
  Read : option (list byte);
  Write : option (list byte)
}.

Definition setFailed (ch : Pipe) : Pipe :=
  mkPipe (OpenedAs ch) true (Read ch) (Write ch).

Definition setRead (ch : Pipe) (r : list byte) : Pipe :=
  mkPipe (OpenedAs ch) (Failed ch) (Some r) (Write ch).

Definition setWrite (ch : Pipe) (r : list byte) : Pipe :=
  mkPipe (OpenedAs ch) (Failed ch) (Read ch) (Some r).

Definition optimalReadSize : nat := BUFSIZ.
Definition optimalWriteSize : nat := BUFSIZ.

(** [Pipe::readImpl(Bytes, Continue)]: the data and [Continue]. *)
Definition readImpl (Bytes : nat) (Continue : bool) (ch : Pipe) (w : World)
  : result (list byte * bool) * Pipe * World :=
  if Failed ch then (Throw (system_error io_error), ch, w)
  else if negb (Mode_eqb (OpenedAs ch) ModeRead)
  then (Throw (system_error operation_not_permitted), ch, w)
  else
    match unix_read Bytes w with
    | (Ok (Data, Success), w) =>
        if negb Success then (Ok (Data, false), setFailed ch, w)
        else (Ok (Data, Continue), ch, w)
    | (Throw e, w) => (Throw e, ch, w)
    end.

(** [Pipe::writeImpl(Buffer, Continue)]: the bytes written and [Continue].
    The call is entered in the history of the world. *)
Definition writeImpl (Buffer : list byte) (Continue : bool) (ch : Pipe)
    (w : World)
  : result (nat * bool) * Pipe * World :=
  if Failed ch then (Throw (system_error io_error), ch, w)
  else if negb (Mode_eqb (OpenedAs ch) ModeWrite)
  then (Throw (system_error operation_not_permitted), ch, w)
  else
    match unix_write Buffer w with
    | (Ok (Bytes, Success), w) =>
        let w := log_write w (length Buffer) Bytes in
        if negb Success then (Ok (Bytes, false), setFailed ch, w)
        else (Ok (Bytes, Continue), ch, w)
    | (Throw e, w) => (Throw e, ch, w)
    end.

End UnixPipe.

(** ** src/core/system/BufferedChannel.cpp *)

(** "The size when the dynamic size of the buffer triggers a buffer_overflow":
    [1ULL << 31], 2 GiB. *)
Definition BufferSizeMax : N := N.shiftl 1 31.

(** Modelled from the spec: [RingBuffer<char>] of [adt/RingBuffer.hpp], which
    is not among the sources, as the first-in first-out byte queue that its
    use here needs: [putBack] appends, [peekFront] shows and [takeFront]
    removes at most the asked number of elements from the front, [dropFront]
    discards them. *)
Definition putBack (ring data : list byte) : list byte := ring ++ data.
Definition peekFront (n : nat) (ring : list byte) : list byte := take n ring.
Definition takeFront (n : nat) (ring : list byte) : list byte * list byte :=
  (take n ring, drop n ring).
Definition dropFront (n : nat) (ring : list byte) : list byte := drop n ring.
Definition size (ring : list byte) : N := N.of_nat (length ring).

(** Modelled from the spec: the constructor of [OverflowError], declared in
    [BufferedChannel.hpp], which is not among the sources.  It is given the
    channel; the spec says that overflow raises the error "and mark[s] the
    channel failed". *)
Definition throwOverflowError {A : Type} (ch : Pipe) (Size : N)
    (Read Write : bool) : result A * Pipe :=
  (Throw (OverflowError Size Read Write), setFailed ch).

Section BufferedChannel.
Context `{Platform}.

(** Whether a buffer pointer is not [nullptr]. *)
Definition present {A : Type} (p : option A) : bool :=
  match p with Some _ => true | None => false end.

Definition hasBufferedWrite (ch : Pipe) : bool :=
  match Write ch with Some ring => negb (isEmpty ring) | None => false end.

Definition readInBuffer (ch : Pipe) : nat :=
  match Read ch with Some ring => length ring | None => 0 end.

Definition writeInBuffer (ch : Pipe) : nat :=
  match Write ch with Some ring => length ring | None => 0 end.

(** [Read->putBack], [Write->putBack] and [Write->dropFront] on the channel;
    the callers have checked that the buffer is there. *)
Definition putBackRead (ch : Pipe) (data : list byte) : Pipe :=
  match Read ch with Some ring => setRead ch (putBack ring data) | None => ch end.

Definition putBackWrite (ch : Pipe) (data : list byte) : Pipe :=
  match Write ch with Some ring => setWrite ch (putBack ring data) | None => ch end.

Definition dropFrontWrite (ch : Pipe) (n : nat) : Pipe :=
  match Write ch with Some ring => setWrite ch (dropFront n ring) | None => ch end.

Definition overflown (ring : option (list byte)) : bool :=
  match ring with Some r => (BufferSizeMax <? size r)%N | None => false end.

(** The [while (ContinueReading && Bytes > 0)] loop of
    [BufferedChannel::read].  Every iteration that does not leave the loop
    serves at least one byte, so [Bytes] iterations are enough: [fuel] is
    started at [Bytes] (see [read_chunks_fuel]). *)
Fixpoint read_chunks (fuel : nat) (ChunkSize : nat) (Bytes : nat)
    (Return : list byte) (ContinueReading : bool) (ch : Pipe) (w : World)
  : result (list byte) * Pipe * World :=
  match fuel with
  | 0 => (Ok Return, ch, w)
  | S fuel =>
      if ContinueReading && (0 <? Bytes) then
        match readImpl ChunkSize ContinueReading ch w with
        | (Throw e, ch, w) => (Throw e, ch, w)
        | (Ok (Chunk, ContinueReading), ch, w) =>
            if isEmpty Chunk then
              (* "No more data!" *)
              (Ok Return, ch, w)
            else
              let ReadSize := length Chunk in
              let ContinueReading :=
                if ReadSize <? ChunkSize then false else ContinueReading in
              let BytesFromRead := Nat.min Bytes ReadSize in
              let Return := Return ++ take BytesFromRead Chunk in
              if Bytes <? ReadSize then
                let BytesToSave := ReadSize - Bytes in
                let ch :=
                  putBackRead ch (take BytesToSave (drop BytesFromRead Chunk)) in
                read_chunks fuel ChunkSize (Bytes - BytesFromRead) Return false
                  ch w
              else
                read_chunks fuel ChunkSize (Bytes - BytesFromRead) Return
                  ContinueReading ch w
        end
      else (Ok Return, ch, w)
  end.

(** [BufferedChannel::read(Bytes)]. *)
Definition read (Bytes : nat) (ch : Pipe) (w : World)
  : result (list byte) * Pipe * World :=
  if Failed ch then (Throw (system_error io_error), ch, w)
  else
    match Read ch with
    | None => (Throw (system_error operation_not_permitted), ch, w)
    | Some ring =>
        let '(Return, Bytes, ch) :=
          let StoredBufferSize := readInBuffer ch in
          if 0 <? StoredBufferSize then
            let BytesFromBuffer := Nat.min Bytes StoredBufferSize in
            let '(V, ring) := takeFront BytesFromBuffer ring in
            (V, Bytes - length V, setRead ch ring)
          else ([], Bytes, ch) in
        if Bytes =? 0 then (Ok Return, ch, w)
        else
          match read_chunks Bytes optimalReadSize Bytes Return true ch w with
          | (Throw e, ch, w) => (Throw e, ch, w)
          | (Ok Return, ch, w) =>
              if overflown (Read ch) then
                let '(r, ch) :=
                  throwOverflowError ch (N.of_nat (readInBuffer ch)) true false in
                (r, ch, w)
              else (Ok Return, ch, w)
          end
    end.

(** The loop of [BufferedChannel::load]; the result is [ReadBytes]. *)
Fixpoint load_chunks (fuel : nat) (ChunkSize : nat) (Bytes : nat)
    (ReadBytes : nat) (ContinueReading : bool) (ch : Pipe) (w : World)
  : result nat * Pipe * World :=
  match fuel with
  | 0 => (Ok ReadBytes, ch, w)
  | S fuel =>
      if ContinueReading && (0 <? Bytes) then
        match readImpl ChunkSize ContinueReading ch w with
        | (Throw e, ch, w) => (Throw e, ch, w)
        | (Ok (Chunk, ContinueReading), ch, w) =>
            if isEmpty Chunk then (Ok ReadBytes, ch, w)
            else
              let ReadSize := length Chunk in
              let ReadBytes := ReadBytes + ReadSize in
              let ContinueReading :=
                if ReadSize <? ChunkSize then false else ContinueReading in
              let ch := putBackRead ch (take ReadSize Chunk) in
              load_chunks fuel ChunkSize (Bytes - Nat.min ReadSize Bytes)
                ReadBytes ContinueReading ch w
        end
      else (Ok ReadBytes, ch, w)
  end.

(** [BufferedChannel::load(Bytes)]. *)
Definition load (Bytes : nat) (ch : Pipe) (w : World)
  : result nat * Pipe * World :=
  if Failed ch then (Throw (system_error io_error), ch, w)
  else if negb (present (Read ch))
  then (Throw (system_error operation_not_permitted), ch, w)
  else
    match load_chunks Bytes optimalReadSize Bytes 0 true ch w with
    | (Throw e, ch, w) => (Throw e, ch, w)
    | (Ok ReadBytes, ch, w) =>
        if overflown (Read ch) then
          let '(r, ch) :=
            throwOverflowError ch (N.of_nat (readInBuffer ch)) true false in
          (r, ch, w)
        else (Ok ReadBytes, ch, w)
    end.

(** The loop of [BufferedChannel::flushWrites]; the result is [BytesSent].
    An iteration that does not stop the loop has sent a whole chunk, at least
    one byte, so as many iterations as the buffer has bytes are enough (see
    [flush_chunks_fuel]). *)
Fixpoint flush_chunks (fuel : nat) (ChunkSize : nat) (BytesSent : nat)
    (ContinueWriting : bool) (ch : Pipe) (w : World)
  : result nat * Pipe * World :=
  match fuel with
  | 0 => (Ok BytesSent, ch, w)
  | S fuel =>
      if ContinueWriting && hasBufferedWrite ch then
        let V := peekFront ChunkSize (default [] (Write ch)) in
        match writeImpl V ContinueWriting ch w with
        | (Throw e, ch, w) => (Throw e, ch, w)
        | (Ok (ChunkBytesSent, ContinueWriting), ch, w) =>
            let BytesSent := BytesSent + ChunkBytesSent in
            let ContinueWriting :=
              if ChunkBytesSent <? length V then false else ContinueWriting in
            flush_chunks fuel ChunkSize BytesSent ContinueWriting
              (dropFrontWrite ch ChunkBytesSent) w
        end
      else (Ok BytesSent, ch, w)
  end.

(** [BufferedChannel::flushWrites()]. *)
Definition flushWrites (ch : Pipe) (w : World) : result nat * Pipe * World :=
  if Failed ch then (Throw (system_error io_error), ch, w)
  else if negb (present (Write ch))
  then (Throw (system_error operation_not_permitted), ch, w)
  else if negb (hasBufferedWrite ch) then (Ok 0, ch, w)
  else flush_chunks (writeInBuffer ch) optimalWriteSize 0 true ch w.

(** The [while (ContinueWriting && !Data.empty())] loop of
    [BufferedChannel::write]; the result is [BytesSent] and what is left of
    [Data]. *)
Fixpoint write_chunks (fuel : nat) (ChunkSize : nat) (Data : list byte)
    (BytesSent : nat) (ContinueWriting : bool) (ch : Pipe) (w : World)
  : result (nat * list byte) * Pipe * World :=
  match fuel with
  | 0 => (Ok (BytesSent, Data), ch, w)
  | S fuel =>
      if ContinueWriting && negb (isEmpty Data) then
        let ToSend := Nat.min ChunkSize (length Data) in
        let Chunk := take (Nat.min ChunkSize (length Data)) Data in
        match writeImpl Chunk ContinueWriting ch w with
        | (Throw e, ch, w) => (Throw e, ch, w)
        | (Ok (ChunkWrittenSize, ContinueWriting), ch, w) =>
            let ContinueWriting :=
              if ChunkWrittenSize <? ToSend then false else ContinueWriting in
            write_chunks fuel ChunkSize (drop ChunkWrittenSize Data)
              (BytesSent + ChunkWrittenSize) ContinueWriting ch w
        end
      else (Ok (BytesSent, Data), ch, w)
  end.

(** The overflow check that ends [write]. *)
Definition checkWriteOverflow {A : Type} (a : A) (ch : Pipe) (w : World)
  : result A * Pipe * World :=
  if overflown (Write ch) then
    let '(r, ch) :=
      throwOverflowError ch (N.of_nat (writeInBuffer ch)) false true in
    (r, ch, w)
  else (Ok a, ch, w).

(** [BufferedChannel::write(Data)]. *)
Definition write (Data : list byte) (ch : Pipe) (w : World)
  : result nat * Pipe * World :=
  if Failed ch then (Throw (system_error io_error), ch, w)
  else if negb (present (Write ch))
  then (Throw (system_error operation_not_permitted), ch, w)
  else
    let ChunkSize := optimalWriteSize in
    let InWriteBuffer := writeInBuffer ch in
    match flushWrites ch w with
    | (Throw e, ch, w) => (Throw e, ch, w)
    | (Ok BufferSent, ch, w) =>
        let ContinueWriting := negb (BufferSent <? InWriteBuffer) in
        if negb ContinueWriting then
          (* "We can't send Data because that would be an out-of-order
             send." *)
          let ch := putBackWrite ch Data in
          checkWriteOverflow 0 ch w
        else if isEmpty Data then (Ok 0, ch, w)
        else
          match write_chunks (length Data) ChunkSize Data 0 true ch w with
          | (Throw e, ch, w) => (Throw e, ch, w)
          | (Ok (BytesSent, Data), ch, w) =>
              let ch :=
                if negb (isEmpty Data) then putBackWrite ch Data else ch in
              checkWriteOverflow BytesSent ch w
          end
    end.

End BufferedChannel.

(** ** include/core/monomux/message/PascalString.hpp *)










Section PascalString.
Context `{Platform} `{Framer}.







End PascalString.


(** ** Text *)

(** ['\n']. *)
Definition newline : string := String "010" "".

(** A number as [operator<<] writes it: in decimal, without leading zeros. *)
Definition decimal (n : N) : string := NilZero.string_of_uint (N.to_uint n).

(** ** Options of the front end *)

Module Process.

(** [Process::SpawnOptions], as far as [main] touches it.  An environment
    variable maps to its value, or to nothing when it is to be unset. *)
Record SpawnOptions := mkSpawnOptions {
  Program : string;
  Arguments : list string;
  Environment : gmap string (option string)
}.

(** [SpawnOptions{}]. *)
Definition SpawnOptions_default : SpawnOptions := mkSpawnOptions "" [] ∅.

(** [std::map::emplace]: the entry is added when the key is not there. *)
Definition emplace (k : string) (v : option string)
    (m : gmap string (option string)) : gmap string (option string) :=
  match m !! k with
  | Some _ => m
  | None => <[k := v]> m
  end.

(** *** src/system/Process.cpp *)

(** The environment of a process: the variables that are set, with their
    values. *)
Definition Env := gmap string string.

(** What a [char*] spells: a C string ends at its first NUL.  [strncpy] in
    [allocCopyString] copies that far, and [setenv], [unsetenv] and [execvp]
    read their arguments so. *)
Fixpoint c_str (s : string) : string :=
  match s with
  | EmptyString => EmptyString
  | String c s => if Ascii.eqb c "000" then EmptyString else String c (c_str s)
  end.

(** The array that [exec] fills with [allocCopyString]: [NewArgv[0]] is the
    program, [NewArgv[I + 1]] the argument [I]; the [nullptr] that ends it is
    the end of the list. *)
Definition NewArgv (Opts : SpawnOptions) : list string :=
  c_str (Program Opts) :: map c_str (Arguments Opts).

(** The names that [setenv] and [unsetenv] take: POSIX has both fail with
    EINVAL on the empty name and on a name with ['='] in it. *)
Definition valid_name (k : string) : bool :=
  negb (String.eqb k "") &&
  match String.index 0 "=" k with Some _ => false | None => true end.

(** [::setenv(K, V, 1)] and [::unsetenv(K)].  The calls are made through
    [CheckedPOSIX], which keeps a failure to itself. *)
Definition setenv (K V : string) (env : Env) : Env :=
  if valid_name (c_str K) then <[c_str K := c_str V]> env else env.

Definition unsetenv (K : string) (env : Env) : Env :=
  if valid_name (c_str K) then delete (c_str K) env else env.

(** The entries of a [std::map] as a loop over it meets them: in the order of
    the keys. *)
Definition in_key_order (m : gmap string (option string))
  : list (string * option string) :=
  merge_sort (fun a b => String.leb a.1 b.1) (map_to_list m).

(** One turn of [for (const auto& E : Opts.Environment)]: the line written to
    [std::clog] and the call made. *)
Definition exec_variable (acc : list string * Env) (E : string * option string)
  : list string * Env :=
  match E.2 with
  | None =>
      (acc.1 ++ ["        Env var:    " ++ E.1 ++ " unset!" ++ newline]%string,
       unsetenv E.1 acc.2)
  | Some V =>
      (acc.1 ++ ["        Env var:    " ++ E.1 ++ "=" ++ V ++ newline]%string,
       setenv E.1 V acc.2)
  end.

(** The program that a process runs after [execvp]: its arguments and its
    environment. *)
Record Image := mkImage {
  argv : list string;
  environ : Env
}.

(** What becomes of the process that calls [exec]: another program takes its
    place, or [execvp] has failed and [CheckedPOSIXThrow] throws; the
    environment is then as the loop has left it. *)
Inductive fate :=
| Replaced (image : Image)
| Thrown (e : exn) (env : Env).

(** [Process::exec(Opts)] in a process with the environment [env].  [execvp]
    tells for the arguments whether the call of that name fails, and with
    what; a call that does not fail does not return.  The result is what
    [std::clog] has got and the fate of the process. *)
Definition exec (execvp : list string -> option errc) (Opts : SpawnOptions)
    (env : Env) : list string * fate :=
  let clog :=
    ["----- Process::exec() was called -----" ++ newline ++ newline;
     "        Program:    " ++ Program Opts ++ newline]%string in
  let clog :=
    clog ++ imap (fun I Arg =>
                    "        Arg " ++ decimal (N.of_nat I) ++ ":    " ++ Arg ++
                    newline)%string (Arguments Opts) in
  let '(clog, env) :=
    foldl exec_variable (clog, env) (in_key_order (Environment Opts)) in
  let clog := clog ++ ["----- Process::exec() firing -----" ++ newline]%string in
  match execvp (NewArgv Opts) with
  | Some EC => (clog, Thrown (system_error EC) env)
  | None => (clog, Replaced (mkImage (NewArgv Opts) env))
  end.

End Process.

Module server.

(** [server::Options]. *)
Record Options := mkOptions {
  ServerMode : bool;
  Background : bool;
  ExitOnLastSessionTerminate : bool;
  SocketPath : option string
}.

(** [Options::Options()] of [src/server/Main.cpp]. *)
Definition Options_default : Options := mkOptions false true true None.

(** [Options::toArgv()]. *)
Definition toArgv (Opts : Options) : list string :=
  (if ServerMode Opts then ["--server"%string] else []) ++
  match SocketPath Opts with
  | Some p => ["--socket"%string; p]
  | None => []
  end ++
  (if negb (Background Opts) then ["--no-daemon"%string] else []) ++
  (if negb (ExitOnLastSessionTerminate Opts) then ["--keepalive"%string]
   else []).

(** [server::exec(Opts, ArgV0)]: the program is run again, with the options
    as its arguments. *)
Definition exec (execvp : list string -> option errc) (Opts : Options)
    (ArgV0 : string) (env : Process.Env) : list string * Process.fate :=
  Process.exec execvp (Process.mkSpawnOptions ArgV0 (toArgv Opts) ∅) env.

End server.

(** ** src/client/Main.cpp *)

Module client.

(** [client::Options], the members that [main] sets while it reads the
    command line. *)
Record Options := mkOptions {
  ClientMode : bool;
  StatisticsRequest : bool;
  SocketPath : option string;
  SessionName : option string;
  Program : option Process.SpawnOptions;
  OnlyListSessions : bool;
  InteractiveSessionMenu : bool;
  DetachRequestLatest : bool;
  DetachRequestAll : bool
}.

(** What [connect] does that the user or the system can see. *)
Inductive event :=
| ClientCreate                (* Client::create(getServerSocketPath()) *)
| SleepFor (seconds : nat)    (* std::this_thread::sleep_for *)
| Cerr (text : string).       (* std::cerr << ... << std::endl *)

(** The world of [connect]: for each call of [Client::create] to come,
    whether it gives a client ([Some]) or fails; when the list has run out
    no server answers and the call fails.  [trace] is the history. *)
Record World (Client : Type) := mkWorld {
  creates : list (option Client);
  trace : list event
}.
Arguments mkWorld {Client} creates trace.
Arguments creates {Client} w.
Arguments trace {Client} w.

Section Connect.
Context {Client : Type}.

Definition emit (e : event) (w : World Client) : World Client :=
  mkWorld (creates w) (trace w ++ [e]).

Definition Client_create (w : World Client) : option Client * World Client :=
  match creates w with
  | [] => (None, emit ClientCreate w)
  | C :: rest => (C, emit ClientCreate (mkWorld rest (trace w)))
  end.

(** [++] on [unsigned short]. *)
Definition incr_ushort (n : N) : N := ((n + 1) mod 65536)%N.

(** The [while (!C)] loop of [connect]; [None] when [fuel] iterations have
    not ended it. *)
Fixpoint connect_loop (fuel : nat) (C : option Client) (HandshakeCounter : N)
    (w : World Client) : option (option Client * World Client) :=
  match C with
  | Some _ => Some (C, w)
  | None =>
      match fuel with
      | 0 => None
      | S fuel =>
          let HandshakeCounter := incr_ushort HandshakeCounter in
          let '(C, w) := Client_create w in
          let w := emit (SleepFor 1) w in
          if (HandshakeCounter =? 5)%N then
            let w := emit (Cerr "Connection failed after enough retries.") w in
            Some (None, w)
          else connect_loop fuel C HandshakeCounter w
      end
  end.

(** [connect(Opts, Block)]; [Opts] is not used by the function. *)
Definition connect (fuel : nat) (Block : bool) (w : World Client)
  : option (option Client * World Client) :=
  let '(C, w) := Client_create w in
  if negb Block then Some (C, w)
  else connect_loop fuel C 1 w.

End Connect.

End client.

(** ** src/main.cpp *)

Module frontend.

(** Modelled from the spec: [FrontendExitCode] of [FrontendExitCode.hpp],
    which is not among the sources: "Exit codes: 0 Success,
    1 InvocationError, 2 SystemError". *)
Inductive FrontendExitCode := Success | InvocationError | SystemError.

Definition exit_status (c : FrontendExitCode) : Z :=
  match c with Success => 0 | InvocationError => 1 | SystemError => 2 end.

(** [MainOptions]. *)
Record MainOptions := mkMainOptions {
  ShowHelp : bool;
  ShowVersion : bool;
  ShowElaborateBuildInformation : bool;
  AnyVerboseFlag : bool;
  AnyQuietFlag : bool;
  VerbosityQuietnessDifferential : Z;       (* std::int8_t *)
  Severity : Z
}.

(** [MainOptions MainOpts{}]. *)
Definition MainOptions_default : MainOptions :=
  mkMainOptions false false false false false 0 0.

(** A value brought back into [std::int8_t]. *)
Definition wrap_int8 (z : Z) : Z := ((z + 128) mod 256 - 128)%Z.

(** The [name] and [val] columns of [LongOptions]; [None] is the [val] 0 of
    an option that has no short form. *)
Definition LongOptions : list (string * option ascii) :=
  [ ("help", Some "h"%char); ("verbose", Some "v"%char); ("quiet", Some "q"%char);
    ("server", None); ("socket", Some "s"%char); ("env", Some "e"%char);
    ("unset", Some "u"%char); ("name", Some "n"%char); ("list", Some "l"%char);
    ("interactive", Some "i"%char); ("detach", Some "d"%char);
    ("detach-all", Some "D"%char); ("statistics", None);
    ("no-daemon", Some "N"%char); ("keepalive", Some "k"%char) ]%string.

(** What one call of [getopt_long] hands to the loop: the value it returns
    (0 with [LongOptIndex] for a long option without a short form, else a
    character, ['?'] for what it did not recognise) and [optarg]. *)
Inductive getopt_result :=
| GetoptLong (LongOptIndex : nat)
| GetoptChar (Opt : ascii) (optarg : string).

(** The [has_arg] column of [LongOptions]. *)
Definition no_argument : bool := false.
Definition required_argument : bool := true.

Definition LongOptions_has_arg : list bool :=
  [ no_argument; no_argument; no_argument; no_argument; required_argument;
    required_argument; required_argument; required_argument; no_argument;
    no_argument; no_argument; no_argument; no_argument; no_argument;
    no_argument ].

(** The row of a table of long options that has the name. *)
Fixpoint find_long (name : string) (rows : list (string * option ascii))
    (i : nat) : option nat :=
  match rows with
  | [] => None
  | row :: rows =>
      if String.eqb row.1 name then Some i else find_long name rows (S i)
  end.

(** [getopt_long] of the C library with the tables of [main], on arguments
    that spell long options in full: a word [--name] for a row of
    [LongOptions], followed by the argument in a word of its own when the row
    has [required_argument].  The call returns the [val] of the row, 0 with
    the index of the row in [LongOptIndex] when the row has none, and sets
    [optarg] to the argument.  Command lines of another make are not
    modelled: [None]. *)
Fixpoint getopt_long_words (ArgV : list string) : option (list getopt_result) :=
  match ArgV with
  | [] => Some []
  | word :: rest =>
      if String.prefix "--" word then
        let name := String.substring 2 (String.length word - 2) word in
        match find_long name LongOptions 0 with
        | None => None
        | Some LongOptIndex =>
            let found optarg :=
              match (nth LongOptIndex LongOptions (""%string, None)).2 with
              | None => GetoptLong LongOptIndex
              | Some val => GetoptChar val optarg
              end in
            if nth LongOptIndex LongOptions_has_arg no_argument then
              match rest with
              | [] => None
              | optarg :: rest =>
                  option_map (cons (found optarg)) (getopt_long_words rest)
              end
            else option_map (cons (found ""%string)) (getopt_long_words rest)
        end
      else None
  end.

(** Whether [getopt_long] has returned the character. *)
Definition is_option (c : ascii) (r : getopt_result) : bool :=
  match r with
  | GetoptLong _ => false
  | GetoptChar Opt _ => Ascii.eqb Opt c
  end.

(** The variable that an option of the command line names for the
    environment of the program to start, and what it is to become: the value
    of [-e VAR=VAL], nothing for [-u VAR]. *)
Definition variable_of (r : getopt_result) : option (string * option string) :=
  match r with
  | GetoptLong _ => None
  | GetoptChar Opt optarg =>
      if Ascii.eqb Opt "e" then
        match String.index 0 "=" optarg with
        | None => None
        | Some EqualLoc =>
            Some (String.substring 0 EqualLoc optarg,
                  Some (String.substring (EqualLoc + 1)
                          (String.length optarg - (EqualLoc + 1)) optarg))
        end
      else if Ascii.eqb Opt "u" then Some (optarg, None)
      else None
  end.

(** What [main] does that can be seen from outside. *)
Inductive event :=
| Cerr (text : string)
| PrintHelp
| PrintVersion
| PrintFeatures
| LoggerSetLimit (Severity : Z)
| SignalHandlingEnable
| ServerMain (Opts : server.Options)
| ClientConnect (Block : bool)
| ForkServerExec (Opts : server.Options)
| SleepFor (seconds : nat)
| ClientMain (Opts : client.Options).

(** The state of the option loop: the three option records, [HadErrors] and
    what has been written to [std::cerr]. *)
Record State := mkState {
  MainOpts : MainOptions;
  ServerOpts : server.Options;
  ClientOpts : client.Options;
  HadErrors : bool;
  cerr : list string
}.

(** The parts of the program that [main] calls and the sources leave out:
    the verbosity bounds of the logger, the default [client::Options], the
    test for the control mode of the client, the session of the environment,
    the socket path helpers, and what the server and the client report
    back. *)
Class Collaborators := {
  MaximumVerbosity : Z;
  MinimumVerbosity : Z;
  Default : Z;
  ClientOptions_default : client.Options;
  isControlMode : client.Options -> bool;
  loadFromEnv : option string;
  absolutise : string -> string;
  defaultSocketPath : string;
  server_main : server.Options -> Z;
  client_connect : client.Options -> bool -> bool;
  FailureReason : string;
  client_main : client.Options -> Z
}.

Section Main.
Context `{Collaborators}.

(** [Prog], the name the program was called by: [ArgV[0]]. *)
Variable Prog : string.

Definition withMain (f : MainOptions -> MainOptions) (st : State) : State :=
  mkState (f (MainOpts st)) (ServerOpts st) (ClientOpts st) (HadErrors st)
          (cerr st).
Definition withServer (f : server.Options -> server.Options) (st : State)
  : State :=
  mkState (MainOpts st) (f (ServerOpts st)) (ClientOpts st) (HadErrors st)
          (cerr st).
Definition withClient (f : client.Options -> client.Options) (st : State)
  : State :=
  mkState (MainOpts st) (ServerOpts st) (f (ClientOpts st)) (HadErrors st)
          (cerr st).

(** [HadErrors = true]. *)
Definition setHadErrors (st : State) : State :=
  mkState (MainOpts st) (ServerOpts st) (ClientOpts st) true (cerr st).

(** [ArgError() << text]: the program name and the text go to [std::cerr],
    and [HadErrors] is set. *)
Definition ArgError (text : string) (st : State) : State :=
  mkState (MainOpts st) (ServerOpts st) (ClientOpts st) true
          (cerr st ++ [(Prog ++ ": " ++ text)%string]).

(** [std::cerr << ArgV[0] << ": " << text], which leaves [HadErrors]. *)
Definition warn (text : string) (st : State) : State :=
  mkState (MainOpts st) (ServerOpts st) (ClientOpts st) (HadErrors st)
          (cerr st ++ [(Prog ++ ": " ++ text)%string]).

(** Assignments to single members. *)
Definition setServerMode (b : bool) (o : server.Options) : server.Options :=
  server.mkOptions b (server.Background o)
    (server.ExitOnLastSessionTerminate o) (server.SocketPath o).
Definition setBackground (b : bool) (o : server.Options) : server.Options :=
  server.mkOptions (server.ServerMode o) b
    (server.ExitOnLastSessionTerminate o) (server.SocketPath o).
Definition setExitOnLastSessionTerminate (b : bool) (o : server.Options)
  : server.Options :=
  server.mkOptions (server.ServerMode o) (server.Background o) b
    (server.SocketPath o).
Definition setServerSocketPath (p : option string) (o : server.Options)
  : server.Options :=
  server.mkOptions (server.ServerMode o) (server.Background o)
    (server.ExitOnLastSessionTerminate o) p.

Definition setClientMode (b : bool) (o : client.Options) : client.Options :=
  client.mkOptions b (client.StatisticsRequest o) (client.SocketPath o)
    (client.SessionName o) (client.Program o) (client.OnlyListSessions o)
    (client.InteractiveSessionMenu o) (client.DetachRequestLatest o)
    (client.DetachRequestAll o).
Definition setStatisticsRequest (b : bool) (o : client.Options)
  : client.Options :=
  client.mkOptions (client.ClientMode o) b (client.SocketPath o)
    (client.SessionName o) (client.Program o) (client.OnlyListSessions o)
    (client.InteractiveSessionMenu o) (client.DetachRequestLatest o)
    (client.DetachRequestAll o).
Definition setSocketPath (p : option string) (o : client.Options)
  : client.Options :=
  client.mkOptions (client.ClientMode o) (client.StatisticsRequest o) p
    (client.SessionName o) (client.Program o) (client.OnlyListSessions o)
    (client.InteractiveSessionMenu o) (client.DetachRequestLatest o)
    (client.DetachRequestAll o).
Definition setSessionName (n : option string) (o : client.Options)
  : client.Options :=
  client.mkOptions (client.ClientMode o) (client.StatisticsRequest o)
    (client.SocketPath o) n (client.Program o) (client.OnlyListSessions o)
    (client.InteractiveSessionMenu o) (client.DetachRequestLatest o)
    (client.DetachRequestAll o).
Definition setProgram (p : option Process.SpawnOptions) (o : client.Options)
  : client.Options :=
  client.mkOptions (client.ClientMode o) (client.StatisticsRequest o)
    (client.SocketPath o) (client.SessionName o) p (client.OnlyListSessions o)
    (client.InteractiveSessionMenu o) (client.DetachRequestLatest o)
    (client.DetachRequestAll o).
Definition setOnlyListSessions (b : bool) (o : client.Options)
  : client.Options :=
  client.mkOptions (client.ClientMode o) (client.StatisticsRequest o)
    (client.SocketPath o) (client.SessionName o) (client.Program o) b
    (client.InteractiveSessionMenu o) (client.DetachRequestLatest o)
    (client.DetachRequestAll o).
Definition setInteractiveSessionMenu (b : bool) (o : client.Options)
  : client.Options :=
  client.mkOptions (client.ClientMode o) (client.StatisticsRequest o)
    (client.SocketPath o) (client.SessionName o) (client.Program o)
    (client.OnlyListSessions o) b (client.DetachRequestLatest o)
    (client.DetachRequestAll o).
Definition setDetachRequestLatest (b : bool) (o : client.Options)
  : client.Options :=
  client.mkOptions (client.ClientMode o) (client.StatisticsRequest o)
    (client.SocketPath o) (client.SessionName o) (client.Program o)
    (client.OnlyListSessions o) (client.InteractiveSessionMenu o) b
    (client.DetachRequestAll o).
Definition setDetachRequestAll (b : bool) (o : client.Options)
  : client.Options :=
  client.mkOptions (client.ClientMode o) (client.StatisticsRequest o)
    (client.SocketPath o) (client.SessionName o) (client.Program o)
    (client.OnlyListSessions o) (client.InteractiveSessionMenu o)
    (client.DetachRequestLatest o) b.

(** [if (!ClientOpts.Program) ClientOpts.Program.emplace(SpawnOptions{})],
    then a change to the program. *)
Definition updProgram (f : Process.SpawnOptions -> Process.SpawnOptions)
    (o : client.Options) : client.Options :=
  setProgram (Some (f (default Process.SpawnOptions_default (client.Program o))))
             o.

Definition setEnvironment (k : string) (v : option string)
    (so : Process.SpawnOptions) : Process.SpawnOptions :=
  Process.mkSpawnOptions (Process.Program so) (Process.Arguments so)
    (Process.emplace k v (Process.Environment so)).

Definition setProgramName (name : string) (so : Process.SpawnOptions)
  : Process.SpawnOptions :=
  Process.mkSpawnOptions name (Process.Arguments so) (Process.Environment so).

Definition addArgument (arg : string) (so : Process.SpawnOptions)
  : Process.SpawnOptions :=
  Process.mkSpawnOptions (Process.Program so) (Process.Arguments so ++ [arg])
    (Process.Environment so).

Definition ascii_eqb (a b : ascii) : bool := Ascii.eqb a b.

(** The body of the [switch (Opt)] in the option loop. *)
Definition handle_option (r : getopt_result) (st : State) : State :=
  match r with
  | GetoptLong LongOptIndex =>
      let Opt := (nth LongOptIndex LongOptions ("", None)).1 in
      if String.eqb Opt "server" then
        withClient (setClientMode false) (withServer (setServerMode true) st)
      else if String.eqb Opt "statistics" then
        withClient (setStatisticsRequest true) st
      else
        ArgError ("option '--" ++ Opt ++
                  "' registered, but no handler associated with it" ++
                  String "010" "") st
  | GetoptChar Opt optarg =>
      if ascii_eqb Opt "?" then setHadErrors st
      else if ascii_eqb Opt "h" then
        withMain (fun m => mkMainOptions true (ShowVersion m)
          (ShowElaborateBuildInformation m) (AnyVerboseFlag m)
          (AnyQuietFlag m) (VerbosityQuietnessDifferential m) (Severity m)) st
      else if ascii_eqb Opt "v" then
        if AnyQuietFlag (MainOpts st) then
          ArgError ("option '-v/--verbose' meaningless if '-q/--quiet' " ++
                    "was also supplied" ++ String "010" "") st
        else
          withMain (fun m => mkMainOptions (ShowHelp m) (ShowVersion m)
            (ShowElaborateBuildInformation m) true (AnyQuietFlag m)
            (wrap_int8 (VerbosityQuietnessDifferential m + 1)) (Severity m)) st
      else if ascii_eqb Opt "q" then
        if AnyVerboseFlag (MainOpts st) then
          ArgError ("option '-q/--quiet' meaningless if '-v/--verbose' " ++
                    "was also supplied" ++ String "010" "") st
        else
          withMain (fun m => mkMainOptions (ShowHelp m) (ShowVersion m)
            (ShowElaborateBuildInformation m) (AnyVerboseFlag m) true
            (wrap_int8 (VerbosityQuietnessDifferential m - 1)) (Severity m)) st
      else if ascii_eqb Opt "V" then
        if negb (ShowVersion (MainOpts st)) then
          withMain (fun m => mkMainOptions (ShowHelp m) true
            (ShowElaborateBuildInformation m) (AnyVerboseFlag m)
            (AnyQuietFlag m) (VerbosityQuietnessDifferential m) (Severity m)) st
        else if negb (ShowElaborateBuildInformation (MainOpts st)) then
          withMain (fun m => mkMainOptions (ShowHelp m) (ShowVersion m) true
            (AnyVerboseFlag m) (AnyQuietFlag m)
            (VerbosityQuietnessDifferential m) (Severity m)) st
        else
          ArgError ("option '-V' cannot be repeated this many times" ++
                    String "010" "") st
      else if ascii_eqb Opt "s" then
        withClient (setSocketPath (Some optarg)) st
      else if ascii_eqb Opt "n" then
        withClient (setSessionName (Some optarg)) st
      else if ascii_eqb Opt "e" then
        match String.index 0 "=" optarg with
        | None =>
            ArgError ("option '-e/--env' must be specified in the format " ++
                      "'VAR=VAL'" ++ String "010" "") st
        | Some EqualLoc =>
            withClient (updProgram (setEnvironment
              (String.substring 0 EqualLoc optarg)
              (Some (String.substring (EqualLoc + 1)
                       (String.length optarg - (EqualLoc + 1)) optarg)))) st
        end
      else if ascii_eqb Opt "u" then
        withClient (updProgram (setEnvironment optarg None)) st
      else if ascii_eqb Opt "l" then
        withClient (setOnlyListSessions true) st
      else if ascii_eqb Opt "i" then
        withClient (setInteractiveSessionMenu true) st
      else if ascii_eqb Opt "d" then
        withClient (setDetachRequestLatest true) st
      else if ascii_eqb Opt "D" then
        withClient (setDetachRequestAll true) st
      else if ascii_eqb Opt "N" then
        withServer (setExitOnLastSessionTerminate false)
          (withServer (setBackground false) st)
      else if ascii_eqb Opt "k" then
        withServer (setExitOnLastSessionTerminate false) st
      else
        warn ("option '-" ++ String Opt "" ++
              "' is registered to be accepted, but the associated " ++
              "handler is not found" ++ String "010" (String "009" "") ++
              "The flag will be " ++
              "ignored! Please report this as a bug!" ++ String "010" "") st
  end%string.

(** What an option does to the options of the server. *)
Definition server_step (r : getopt_result) (o : server.Options)
  : server.Options :=
  match r with
  | GetoptLong LongOptIndex =>
      if String.eqb (nth LongOptIndex LongOptions ("", None)).1 "server"
      then setServerMode true o else o
  | GetoptChar Opt _ =>
      if ascii_eqb Opt "N" then
        setExitOnLastSessionTerminate false (setBackground false o)
      else if ascii_eqb Opt "k" then setExitOnLastSessionTerminate false o
      else o
  end%string.

(** The state in which the option loop starts. *)
Definition initial : State :=
  mkState MainOptions_default server.Options_default ClientOptions_default
          false [].

(** The option loop: [while ((Opt = getopt_long(...)) != -1) switch (Opt)],
    over the results that [getopt_long] gives before it returns -1. *)
Definition parse_options (opts : list getopt_result) : State :=
  fold_left (fun st r => handle_option r st) opts initial.

(** The clamping of the verbosity and the choice of the severity. *)
Definition chooseSeverity (m : MainOptions) : MainOptions :=
  let d := VerbosityQuietnessDifferential m in
  let d :=
    if (MaximumVerbosity <? d)%Z then wrap_int8 MaximumVerbosity
    else if (d <? - MinimumVerbosity)%Z then wrap_int8 (- MinimumVerbosity)
    else d in
  mkMainOptions (ShowHelp m) (ShowVersion m) (ShowElaborateBuildInformation m)
    (AnyVerboseFlag m) (AnyQuietFlag m) d (Default + d)%Z.

(** The loop over the positional arguments, [ArgV[optind]] onwards. *)
Fixpoint positional (args : list string) (st : State) : State :=
  match args with
  | [] => st
  | arg :: args =>
      if server.ServerMode (ServerOpts st) then
        ArgError ("option '--server' does not take positional argument " ++
                  String "034" "" ++ arg ++ String "034" "" ++
                  String "010" "")%string st
      else
        let st :=
          withClient (updProgram (fun so =>
            if String.eqb (Process.Program so) "" then setProgramName arg so
            else addArgument arg so)) st in
        positional args st
  end.

(** What follows the command line in [main]: the signal handlers, the socket
    path, and the server or the client. *)
Definition dispatch (st : State) : list event * Z :=
  let ClientOpts0 := ClientOpts st in
  let ClientOpts1 :=
    if isControlMode ClientOpts0 && negb (present (client.SocketPath ClientOpts0))
    then match loadFromEnv with
         | Some Socket => setSocketPath (Some Socket) ClientOpts0
         | None => ClientOpts0
         end
    else ClientOpts0 in
  let SocketPath :=
    match client.SocketPath ClientOpts1 with
    | Some p => absolutise p
    | None => defaultSocketPath
    end in
  let ClientOpts2 := setSocketPath (Some SocketPath) ClientOpts1 in
  let ServerOpts1 := setServerSocketPath (Some SocketPath) (ServerOpts st) in
  if server.ServerMode ServerOpts1 then
    ([SignalHandlingEnable; ServerMain ServerOpts1], server_main ServerOpts1)
  else
    let ToServer := client_connect ClientOpts2 false in
    let '(ToServer, events) :=
      if negb ToServer && negb (isControlMode ClientOpts2) then
        let ServerOpts2 := setServerMode true ServerOpts1 in
        (client_connect ClientOpts2 true,
         [ClientConnect false; ForkServerExec ServerOpts2; SleepFor 1;
          ClientConnect true])
      else (ToServer, [ClientConnect false]) in
    if negb ToServer then
      (SignalHandlingEnable :: events ++
         [Cerr ("FATAL: Connecting to the server failed:" ++ String "010"
                  (String "009" "") ++ FailureReason)%string],
       exit_status SystemError)
    else
      (SignalHandlingEnable :: events ++ [ClientMain ClientOpts2],
       client_main ClientOpts2).

(** [main(ArgC, ArgV)], given what [getopt_long] finds in the arguments: the
    options in their order and the positional arguments left at [optind].
    The result is what the run shows and the exit status. *)
Definition main (opts : list getopt_result) (args : list string)
  : list event * Z :=
  let st := parse_options opts in
  if ShowHelp (MainOpts st) then
    (map Cerr (cerr st) ++ [PrintHelp], exit_status Success)
  else if ShowVersion (MainOpts st) then
    (map Cerr (cerr st) ++ PrintVersion ::
       (if ShowElaborateBuildInformation (MainOpts st) then [PrintFeatures]
        else []),
     exit_status Success)
  else
    let st := withMain chooseSeverity st in
    let st :=
      if client.DetachRequestLatest (ClientOpts st) &&
         client.DetachRequestAll (ClientOpts st)
      then ArgError ("option '-D/--detach-all' and '-d/--detach' are mutually "
                     ++ "exclusive!" ++ String "010" "")%string st
      else st in
    let st :=
      if negb (server.ServerMode (ServerOpts st))
      then withClient (setClientMode true) st else st in
    let st := positional args st in
    if HadErrors st then (map Cerr (cerr st), exit_status InvocationError)
    else
      let '(events, status) := dispatch st in
      (map Cerr (cerr st) ++ LoggerSetLimit (Severity (MainOpts st)) :: events,
       status).

End Main.

End frontend.

(** ** src/Config.cpp *)

Module Config.

Definition DoubleNewline : string := (newline ++ newline)%string.
Definition SingleNewline : string := newline.

(** [S.replace(P, Len, Str, StrLen)] with [Str] taken whole: the [Len]
    characters from [P] on give way to [Str]. *)
Definition replace (P Len : nat) (Str Text : string) : string :=
  (String.substring 0 P Text ++ Str ++
   String.substring (P + Len) (String.length Text - (P + Len)) Text)%string.

(** "Clean up multiple subsequent newlines from the output": the loop
    [while ((P = S.find(DoubleNewline)) != npos) S.replace(...)], with [Text]
    for the string [S].  Every turn makes it one character shorter, so there
    are no more turns than it has characters (see [cleanup_loop_runs]). *)
Fixpoint cleanup_loop (fuel : nat) (Text : string) : string :=
  match fuel with
  | 0 => Text
  | S fuel =>
      match String.index 0 DoubleNewline Text with
      | None => Text
      | Some P =>
          cleanup_loop fuel
            (replace P (String.length DoubleNewline) SingleNewline Text)
      end
  end.

Definition cleanup (Text : string) : string :=
  cleanup_loop (String.length Text) Text.

(** [getHumanReadableConfiguration()], for a build with or without the two
    macros that it asks for. *)
Definition getHumanReadableConfiguration
    (MONOMUX_BUILD_SHARED_LIBS MONOMUX_NON_ESSENTIAL_LOGS : bool) : string :=
  let Buf :=
    ((if negb MONOMUX_BUILD_SHARED_LIBS
      then " * STATIC library for implementation core" ++ newline
      else " * SHARED (dynamic) library for implementation core" ++ newline) ++
     (if negb MONOMUX_NON_ESSENTIAL_LOGS
      then " - Non-essential trace logs" ++ newline
      else " + Non-essential trace logs" ++ newline))%string in
  cleanup Buf.

(** A text with every run of newlines made one newline. *)
Fixpoint one_newline_per_run (s : string) : string :=
  match s with
  | EmptyString => EmptyString
  | String c s' =>
      match s' with
      | String c' _ =>
          if Ascii.eqb c "010" && Ascii.eqb c' "010"
          then one_newline_per_run s'
          else String c (one_newline_per_run s')
      | EmptyString => String c EmptyString
      end
  end.

End Config.

(** ** src/core/Version.cpp *)

Module Version.

(** [Version], as [getVersion] fills it from the macros of the build. *)
Record Version := mkVersion {
  Major : N;
  Minor : N;
  Patch : N;
  Build : N;
  Offset : N;
  Commit : string;
  IsDirty : bool
}.

(** [getShortVersion()], with [V] for what [getVersion()] returns. *)
Definition getShortVersion (V : Version) : string :=
  (decimal (Major V) ++ "." ++ decimal (Minor V) ++
   (if negb (Patch V =? 0)%N || negb (Build V =? 0)%N
    then "." ++ decimal (Patch V) else "") ++
   (if negb (Build V =? 0)%N then "." ++ decimal (Build V) else ""))%string.

(** [getFullVersion()], likewise. *)
Definition getFullVersion (V : Version) : string :=
  (getShortVersion V ++
   (if negb (Offset V =? 0)%N || negb (String.eqb (Commit V) "")
    then "+" ++ decimal (Offset V) ++ "(" ++ Commit V ++ ")" else "") ++
   (if IsDirty V then "-dirty!" else ""))%string.

End Version.

(** ** Scripts of system calls, for the statements below *)

Definition rd_interrupted (o : rd_outcome) : bool :=
  match o with RdErr EC => is_interrupted EC | RdData _ => false end.

Definition wr_interrupted (o : wr_outcome) : bool :=
  match o with WrErr EC => is_interrupted EC | WrAccept _ => false end.

(** A script with the calls that EINTR cuts short left out. *)
Definition without_rd_interrupts (s : list rd_outcome) : list rd_outcome :=
  List.filter (fun o => negb (rd_interrupted o)) s.

Definition without_wr_interrupts (s : list wr_outcome) : list wr_outcome :=
  List.filter (fun o => negb (wr_interrupted o)) s.

(** The bytes that the reads of a script deliver, and the number of bytes
    that its writes take. *)
Fixpoint rd_bytes (s : list rd_outcome) : list byte :=
  match s with
  | [] => []
  | RdData data :: s => data ++ rd_bytes s
  | RdErr _ :: s => rd_bytes s
  end.

Fixpoint wr_count (s : list wr_outcome) : nat :=
  match s with
  | [] => 0
  | WrAccept n :: s => n + wr_count s
  | WrErr _ :: s => wr_count s
  end.


(** A call that transfers data (some, and no more than one system call
    moves), or is interrupted. *)
Definition rd_transfers `{Platform} (o : rd_outcome) : Prop :=
  match o with
  | RdErr EC => EC = interrupted
  | RdData data => data <> [] /\ length data <= BUFSIZ
  end.

Definition wr_transfers `{Platform} (o : wr_outcome) : Prop :=
  match o with
  | WrErr EC => EC = interrupted
  | WrAccept n => 0 < n <= BUFSIZ
  end.

(** The peer has disconnected and left nothing: the first call that is not
    interrupted reads no bytes. *)
Fixpoint disconnected_at_once (s : list rd_outcome) : bool :=
  match s with
  | RdErr EC :: s => is_interrupted EC && disconnected_at_once s
  | RdData [] :: _ => true
  | _ => false
  end.

(** A history of [writeImpl] calls, each with the bytes offered and the bytes
    sent, that drains a buffer of [n] bytes in chunks of at most [chunk]: each
    call is offered the front of what is left, a whole chunk or all of it;
    the calls end when nothing is left, or with the first call that has sent
    less than it was offered. *)
Inductive drains (chunk : nat) : nat -> list (nat * nat) -> Prop :=
| drains_empty : drains chunk 0 []
| drains_short n sent :
    0 < n -> sent < chunk `min` n ->
    drains chunk n [(chunk `min` n, sent)]
| drains_whole n calls :
    0 < n -> drains chunk (n - chunk `min` n) calls ->
    drains chunk n ((chunk `min` n, chunk `min` n) :: calls).

(** The bytes that the calls of a history have sent. *)
Definition sent_total (calls : list (nat * nat)) : nat :=
  foldr (fun c acc => c.2 + acc) 0 calls.

(** ** Sequences of channel operations *)

Inductive operation :=
| DoRead (Bytes : nat)
| DoWrite (Data : list byte)
| DoLoad (Bytes : nat)
| DoFlush.

(** What a call has thrown, if it has. *)
Definition thrown {A : Type} (r : result A) : option exn :=
  match r with Ok _ => None | Throw e => Some e end.

Definition is_overflow (o : option exn) : bool :=
  match o with Some (OverflowError _ _ _) => true | _ => false end.

(** No ring buffer of the channel is past [BufferSizeMax]. *)
Definition within_bound (ch : Pipe) : Prop :=
  overflown (Read ch) = false /\ overflown (Write ch) = false.

Section Operations.
Context `{Platform}.

(** One operation on the channel: what it throws, and the channel and the
    world that it leaves. *)
Definition perform (op : operation) (ch : Pipe) (w : World)
  : option exn * Pipe * World :=
  match op with
  | DoRead Bytes => let '(r, ch, w) := read Bytes ch w in (thrown r, ch, w)
  | DoWrite Data => let '(r, ch, w) := write Data ch w in (thrown r, ch, w)
  | DoLoad Bytes => let '(r, ch, w) := load Bytes ch w in (thrown r, ch, w)
  | DoFlush => let '(r, ch, w) := flushWrites ch w in (thrown r, ch, w)
  end.

(** Operations one after the other, whatever they throw. *)
Fixpoint perform_all (ops : list operation) (ch : Pipe) (w : World)
  : list (option exn) * Pipe * World :=
  match ops with
  | [] => ([], ch, w)
  | op :: ops =>
      let '(o, ch, w) := perform op ch w in
      let '(os, ch, w) := perform_all ops ch w in
      (o :: os, ch, w)
  end.

End Operations.

(** What a call gives back when it returns: the bytes of a [read], the count
    of the other three. *)
Inductive returned :=
| GotData (Data : list byte)
| GotCount (n : nat).

Section Calls.
Context `{Platform}.

Definition call (op : operation) (ch : Pipe) (w : World)
  : result returned * Pipe * World :=
  match op with
  | DoRead Bytes =>
      match read Bytes ch w with
      | (Ok Data, ch, w) => (Ok (GotData Data), ch, w)
      | (Throw e, ch, w) => (Throw e, ch, w)
      end
  | DoWrite Data =>
      match write Data ch w with
      | (Ok n, ch, w) => (Ok (GotCount n), ch, w)
      | (Throw e, ch, w) => (Throw e, ch, w)
      end
  | DoLoad Bytes =>
      match load Bytes ch w with
      | (Ok n, ch, w) => (Ok (GotCount n), ch, w)
      | (Throw e, ch, w) => (Throw e, ch, w)
      end
  | DoFlush =>
      match flushWrites ch w with
      | (Ok n, ch, w) => (Ok (GotCount n), ch, w)
      | (Throw e, ch, w) => (Throw e, ch, w)
      end
  end.

(** Calls one after the other, as statements in a row: the first exception
    ends them. *)
Fixpoint run (ops : list operation) (ch : Pipe) (w : World)
  : result (list returned) * Pipe * World :=
  match ops with
  | [] => (Ok [], ch, w)
  | op :: ops =>
      match call op ch w with
      | (Throw e, ch, w) => (Throw e, ch, w)
      | (Ok x, ch, w) =>
          match run ops ch w with
          | (Throw e, ch, w) => (Throw e, ch, w)
          | (Ok xs, ch, w) => (Ok (x :: xs), ch, w)
          end
      end
  end.

End Calls.

(** The bytes that the reads among the calls have returned, and the bytes
    that the writes among them were given, in the order of the calls. *)
Fixpoint delivered (xs : list returned) : list byte :=
  match xs with
  | [] => []
  | GotData Data :: xs => Data ++ delivered xs
  | GotCount _ :: xs => delivered xs
  end.

Fixpoint submitted (ops : list operation) : list byte :=
  match ops with
  | [] => []
  | DoWrite Data :: ops => Data ++ submitted ops
  | _ :: ops => submitted ops
  end.

(** What an operation leaves behind, by what it has thrown: a channel within
    the bound when it returns; a failed channel when it throws
    [OverflowError]; and when it throws a [std::system_error], a channel
    within the bound again, or else the operation is a [load]. *)
Definition guard_post (op : operation) (o : option exn) (ch' : Pipe) : Prop :=
  match o with
  | None => within_bound ch'
  | Some (OverflowError _ _ _) => Failed ch' = true
  | Some (system_error _) =>
      within_bound ch' \/ exists Bytes, op = DoLoad Bytes
  end.

(** ** Platforms and worlds to run the definitions on *)

Definition musl : Platform := {| BUFSIZ := 1024; BUFSIZ_pos := Nat.lt_0_succ 1023 |}.

(** A C library with a very small [BUFSIZ], to see the chunking at work on
    short inputs. *)
Definition tiny : Platform := {| BUFSIZ := 4; BUFSIZ_pos := Nat.lt_0_succ 3 |}.


Definition quiet : World := mkWorld [] [] [] [] [].

(** A front end to run: no server is there to connect to, none comes up. *)
Definition lonely : frontend.Collaborators :=
  {| frontend.MaximumVerbosity := 2;
     frontend.MinimumVerbosity := 2;
     frontend.Default := 3;
     frontend.ClientOptions_default :=
       client.mkOptions false false None None None false false false false;
     frontend.isControlMode := fun o =>
       client.DetachRequestLatest o || client.DetachRequestAll o ||
       client.StatisticsRequest o;
     frontend.loadFromEnv := None;
     frontend.absolutise := fun p => p;
     frontend.defaultSocketPath := "/tmp/monomux.sock";
     frontend.server_main := fun _ => 0%Z;
     frontend.client_connect := fun _ _ => false;
     frontend.FailureReason := "No such file or directory";
     frontend.client_main := fun _ => 0%Z |}.

(** * Properties *)

(** ** The retry loops of UnixPipe.cpp *)

Section UnixPipeFacts.
Context `{Platform}.

Lemma isEmpty_true {A : Type} (l : list A) : isEmpty l = true <-> l = [].
Proof. destruct l; simpl; split; congruence. Qed.

Lemma isEmpty_false {A : Type} (l : list A) : isEmpty l = false <-> l <> [].
Proof. destruct l; simpl; split; congruence. Qed.

(** What the loop of [unix::read] returns is what the kernel has handed over
    during the call, and no more than was asked for. *)
Lemma read_loop_spec (Bytes : nat) (s : list rd_outcome) :
  forall (rxs Return : list byte) (Remaining : nat) r p x,
    read_loop Bytes s rxs Return Remaining = (r, (p, x)) ->
    exists got : list byte,
      x = rxs ++ got /\ length got <= Remaining /\
      forall Return' c, r = Ok (Return', c) ->
        Return' = Return ++ got /\ (c = false -> got = [] \/ Return' <> []).
Proof.
  induction s as [|o s IH]; intros rxs Return Remaining r p x; simpl.
  - destruct (negb _); intros [= <- <- <-]; exists []; rewrite !app_nil_r;
      (split; [done|split; [simpl; lia|]]); intros ? ? [= <- <-]; done.
  - destruct (negb _) eqn:Hcond.
    { intros [= <- <- <-]; exists []; rewrite !app_nil_r.
      split; [done|split; [simpl; lia|]]; intros ? ? [= <- <-]; done. }
    destruct o as [EC|data].
    + destruct (is_interrupted EC); [apply IH|].
      destruct (is_would_block EC); intros [= <- <- <-]; exists [];
        rewrite !app_nil_r; (split; [done|split; [simpl; lia|]]);
        intros ? ? [=]; subst; done.
    + set (RawBuffer := take (BUFSIZ `min` Remaining) data).
      assert (length RawBuffer <= Remaining) as Hlen
        by (subst RawBuffer; rewrite length_take; lia).
      destruct (length RawBuffer =? 0) eqn:Hz.
      { intros [= <- <- <-]; exists []; rewrite !app_nil_r.
        split; [done|split; [simpl; lia|]]; intros ? ? [= <- <-].
        split; [done|]; auto. }
      rewrite Nat.min_l by done. rewrite firstn_all.
      intros Hrun. apply IH in Hrun as (got & -> & Hgot & Hret).
      exists (RawBuffer ++ got). rewrite length_app, <- !app_assoc.
      split; [done|split; [lia|]]. intros Return' c ->.
      destruct (Hret _ _ eq_refl) as [-> Hc]. split; [by rewrite app_assoc|].
      intros _. right. apply Nat.eqb_neq in Hz.
      destruct RawBuffer; [done|]. destruct Return; discriminate.
Qed.

(** [unix::read] returns the bytes that the kernel has handed over, at most
    [Bytes] of them, and reports failure only when it has none to return. *)
Lemma unix_read_spec (Bytes : nat) (w : World) Data Success w' :
  unix_read Bytes w = (Ok (Data, Success), w') ->
  rx w' = rx w ++ Data /\ length Data <= Bytes /\
  wr_pending w' = wr_pending w /\ tx w' = tx w /\ wr_log w' = wr_log w /\
  (Success = false -> Data = []).
Proof.
  unfold unix_read.
  destruct (read_loop _ _ _ _ _) as [r [p x]] eqn:Hloop.
  apply read_loop_spec in Hloop as (got & -> & Hlen & Hret).
  destruct r as [[Return c]|e]; [|discriminate].
  destruct (Hret _ _ eq_refl) as [-> _]. simpl in *.
  intros [= <- <- <-]; simpl. repeat split; try done.
  destruct c, got; simpl; done.
Qed.

Lemma unix_read_throw (Bytes : nat) (w : World) e w' :
  unix_read Bytes w = (Throw e, w') ->
  wr_pending w' = wr_pending w /\ tx w' = tx w /\ wr_log w' = wr_log w.
Proof.
  unfold unix_read.
  destruct (read_loop _ _ _ _ _) as [[[Return c]|e'] [p x]];
    intros [= <- <-]; done.
Qed.

(** The loop of [unix::write] puts a prefix of the buffer on the wire and
    counts it. *)
Lemma write_loop_spec (s : list wr_outcome) :
  forall (txs Buffer : list byte) (BytesSent : nat) (Success : bool) r p x,
    write_loop s txs Buffer BytesSent Success = (r, (p, x)) ->
    exists k : nat,
      k <= length Buffer /\ x = txs ++ take k Buffer /\
      forall n S' ret, r = Ok (n, S', ret) -> n = BytesSent + k.
Proof.
  induction s as [|o s IH]; intros txs Buffer BytesSent Success r p x; simpl.
  - destruct (isEmpty Buffer); intros [= <- <- <-]; exists 0;
      rewrite take_0, app_nil_r; (split; [lia|split; [done|]]);
      intros ? ? ? [= <- <- <-]; lia.
  - destruct (isEmpty Buffer) eqn:HB.
    { intros [= <- <- <-]; exists 0; rewrite take_0, app_nil_r.
      split; [lia|split; [done|]]; intros ? ? ? [= <- <- <-]; lia. }
    destruct o as [EC|n].
    + destruct (is_interrupted EC); [apply IH|].
      destruct (is_would_block EC); intros [= <- <- <-]; exists 0;
        rewrite take_0, app_nil_r; (split; [lia|split; [done|]]);
        intros ? ? ? [=]; subst; lia.
    + set (SentBytes := n `min` (BUFSIZ `min` length Buffer)).
      destruct (SentBytes =? 0) eqn:Hz.
      { intros [= <- <- <-]; exists 0; rewrite take_0, app_nil_r.
        split; [lia|split; [done|]]; intros ? ? ? [= <- <- <-]; lia. }
      intros Hrun. apply IH in Hrun as (k & Hk & -> & Hret).
      rewrite length_drop in Hk.
      exists (SentBytes + k). split; [subst SentBytes; lia|].
      split.
      * rewrite <- app_assoc. f_equal.
        rewrite <- (take_drop SentBytes Buffer) at 3.
        rewrite take_app_add'; [done|].
        rewrite length_take. subst SentBytes; lia.
      * intros n' S' ret ->. rewrite (Hret _ _ _ eq_refl). lia.
Qed.

Lemma write_loop_returned (s : list wr_outcome) :
  forall (txs Buffer : list byte) (BytesSent : nat) (Success : bool) n S' px,
    write_loop s txs Buffer BytesSent Success = (Ok (n, S', true), px) ->
    S' = true.
Proof.
  induction s as [|o s IH]; intros txs Buffer BytesSent Success n S' px; simpl.
  - destruct (isEmpty Buffer); intros [=]; done.
  - destruct (isEmpty Buffer); [intros [=]; done|].
    destruct o as [EC|n'].
    + destruct (is_interrupted EC); [apply IH|].
      destruct (is_would_block EC); intros [=]; done.
    + destruct (_ =? 0); [intros [=]; done|]. apply IH.
Qed.

(** [unix::write] reports success whenever it returns. *)
Lemma unix_write_spec (Buffer : list byte) (w : World) n Success w' :
  unix_write Buffer w = (Ok (n, Success), w') ->
  n <= length Buffer /\ tx w' = tx w ++ take n Buffer /\ Success = true /\
  rd_pending w' = rd_pending w /\ rx w' = rx w /\ wr_log w' = wr_log w.
Proof.
  unfold unix_write.
  destruct (write_loop _ _ _ _ _) as [r [p x]] eqn:Hloop.
  pose proof Hloop as Hspec.
  apply write_loop_spec in Hspec as (k & Hk & -> & Hret).
  destruct r as [[[m S'] ret]|e]; [|discriminate].
  rewrite (Hret _ _ _ eq_refl). simpl.
  intros [= <- HS <-]; simpl. repeat split; try done.
  destruct ret; [|done]. subst S'.
  by eapply write_loop_returned.
Qed.

Lemma unix_write_throw (Buffer : list byte) (w : World) e w' :
  unix_write Buffer w = (Throw e, w') ->
  rd_pending w' = rd_pending w /\ rx w' = rx w /\ wr_log w' = wr_log w.
Proof.
  unfold unix_write.
  destruct (write_loop _ _ _ _ _) as [[[[m S'] ret]|e'] [p x]];
    intros [= <- <-]; done.
Qed.

End UnixPipeFacts.

(** ** EINTR and EWOULDBLOCK in the retry loops *)

Section Retry.
Context `{Platform}.

Lemma read_loop_interrupts (Bytes : nat) (s : list rd_outcome) :
  forall (rxs Return : list byte) (Remaining : nat),
    read_loop Bytes (without_rd_interrupts s) rxs Return Remaining =
    let '(r, (p, x)) := read_loop Bytes s rxs Return Remaining in
    (r, (without_rd_interrupts p, x)).
Proof.
  induction s as [|o s IH]; intros rxs Return Remaining; simpl.
  - by destruct (negb _).
  - destruct o as [EC|data]; simpl.
    + destruct (is_interrupted EC) eqn:HEC; simpl.
      * rewrite IH. destruct (negb _) eqn:Hc; [|done].
        simpl. rewrite HEC. simpl.
        clear IH. destruct s as [|o s]; simpl; by rewrite Hc.
      * rewrite HEC. destruct (negb _); [by simpl; rewrite HEC|].
        by destruct (is_would_block EC).
    + destruct (negb _); [done|].
      destruct (_ =? 0); [done|]. apply IH.
Qed.

Lemma write_loop_interrupts (s : list wr_outcome) :
  forall (txs Buffer : list byte) (BytesSent : nat) (Success : bool),
    write_loop (without_wr_interrupts s) txs Buffer BytesSent Success =
    let '(r, (p, x)) := write_loop s txs Buffer BytesSent Success in
    (r, (without_wr_interrupts p, x)).
Proof.
  induction s as [|o s IH]; intros txs Buffer BytesSent Success; simpl.
  - by destruct (isEmpty Buffer).
  - destruct o as [EC|n]; simpl.
    + destruct (is_interrupted EC) eqn:HEC; simpl.
      * rewrite IH. destruct (isEmpty Buffer) eqn:Hc; [|done].
        simpl. rewrite HEC. simpl.
        clear IH. destruct s as [|o s]; simpl; by rewrite Hc.
      * rewrite HEC. destruct (isEmpty Buffer); [by simpl; rewrite HEC|].
        by destruct (is_would_block EC).
    + destruct (isEmpty Buffer); [done|].
      destruct (_ =? 0); [done|]. apply IH.
Qed.

Lemma read_loop_would_block (Bytes : nat) (pre : list rd_outcome) EC post :
  is_would_block EC = true ->
  Forall rd_transfers pre ->
  forall (rxs Return : list byte) (Remaining : nat),
    length (rd_bytes pre) < Remaining <= Bytes ->
    read_loop Bytes (pre ++ RdErr EC :: post) rxs Return Remaining =
    (Ok (Return ++ rd_bytes pre, true), (post, rxs ++ rd_bytes pre)).
Proof.
  intros HEC Hpre. induction Hpre as [|o pre Ho Hpre IH];
    intros rxs Return Remaining HR; simpl in *.
  - replace (negb _) with false
      by (symmetry; apply negb_false_iff, andb_true_iff;
          split; [apply Nat.ltb_lt|apply Nat.leb_le]; lia).
    rewrite HEC, !app_nil_r. by destruct EC.
  - replace (negb _) with false
      by (symmetry; apply negb_false_iff, andb_true_iff;
          split; [apply Nat.ltb_lt|apply Nat.leb_le]; lia).
    destruct o as [EC'|data]; simpl in Ho.
    + subst EC'. simpl. by apply IH.
    + destruct Ho as [Hne Hlen]. rewrite length_app in HR.
      rewrite take_ge by lia.
      replace (length data =? 0) with false
        by (symmetry; apply Nat.eqb_neq; destruct data; simpl; [done|lia]).
      rewrite Nat.min_l by lia. rewrite firstn_all.
      rewrite IH by lia. by rewrite <- !app_assoc.
Qed.

Lemma write_loop_would_block (pre : list wr_outcome) EC post :
  is_would_block EC = true ->
  Forall wr_transfers pre ->
  forall (txs Buffer : list byte) (BytesSent : nat) (Success : bool),
    wr_count pre < length Buffer ->
    write_loop (pre ++ WrErr EC :: post) txs Buffer BytesSent Success =
    (Ok (BytesSent + wr_count pre, true, true),
     (post, txs ++ take (wr_count pre) Buffer)).
Proof.
  intros HEC Hpre. induction Hpre as [|o pre Ho Hpre IH];
    intros txs Buffer BytesSent Success HB; simpl in *.
  - replace (isEmpty Buffer) with false
      by (symmetry; apply isEmpty_false; destruct Buffer; simpl in *; [lia|done]).
    rewrite HEC, Nat.add_0_r, take_0, app_nil_r. by destruct EC.
  - replace (isEmpty Buffer) with false
      by (symmetry; apply isEmpty_false; destruct Buffer; simpl in *; [lia|done]).
    destruct o as [EC'|n]; simpl in Ho.
    + subst EC'. simpl. by apply IH.
    + rewrite (Nat.min_l n) by lia.
      replace (n =? 0) with false by (symmetry; apply Nat.eqb_neq; lia).
      rewrite IH by (rewrite length_drop; lia).
      rewrite <- app_assoc, Nat.add_assoc. do 3 f_equal.
      rewrite <- (take_drop n Buffer) at 3.
      rewrite take_app_add'; [done|]. rewrite length_take. lia.
Qed.

Lemma unix_read_would_block (Bytes : nat) (w : World) pre EC post :
  is_would_block EC = true ->
  Forall rd_transfers pre ->
  length (rd_bytes pre) < Bytes ->
  rd_pending w = pre ++ RdErr EC :: post ->
  unix_read Bytes w =
  (Ok (rd_bytes pre, true), set_rd w post (rx w ++ rd_bytes pre)).
Proof.
  intros HEC Hpre Hlen Hw. unfold unix_read.
  rewrite Hw, (read_loop_would_block _ _ _ _ HEC Hpre) by lia. done.
Qed.

Lemma unix_write_would_block (Buffer : list byte) (w : World) pre EC post :
  is_would_block EC = true ->
  Forall wr_transfers pre ->
  wr_count pre < length Buffer ->
  wr_pending w = pre ++ WrErr EC :: post ->
  unix_write Buffer w =
  (Ok (wr_count pre, true),
   set_wr w post (tx w ++ take (wr_count pre) Buffer)).
Proof.
  intros HEC Hpre Hlen Hw. unfold unix_write.
  rewrite Hw, (write_loop_would_block _ _ _ HEC Hpre) by lia. done.
Qed.

End Retry.

(** C6: in the loops of [unix::read] and [unix::write] a call that fails
    with EINTR is retried and leaves no mark: the result, the bytes moved and
    the bytes counted are those of the same run without the interrupted
    calls.  A call that fails with EWOULDBLOCK or EAGAIN ends the loop: the
    function returns, without an exception and reporting success, the bytes
    that the calls before it have moved, which may be none. *)
Theorem retry_loops `{Platform} :
  (forall (Bytes : nat) (w : World),
     unix_read Bytes (set_rd w (without_rd_interrupts (rd_pending w)) (rx w)) =
     let '(r, w') := unix_read Bytes w in
     (r, set_rd w' (without_rd_interrupts (rd_pending w')) (rx w'))) /\
  (forall (Buffer : list byte) (w : World),
     unix_write Buffer (set_wr w (without_wr_interrupts (wr_pending w)) (tx w)) =
     let '(r, w') := unix_write Buffer w in
     (r, set_wr w' (without_wr_interrupts (wr_pending w')) (tx w'))) /\
  (forall (Bytes : nat) (w : World) pre EC post,
     is_would_block EC = true ->
     Forall rd_transfers pre ->
     length (rd_bytes pre) < Bytes ->
     rd_pending w = pre ++ RdErr EC :: post ->
     unix_read Bytes w =
     (Ok (rd_bytes pre, true), set_rd w post (rx w ++ rd_bytes pre))) /\
  (forall (Buffer : list byte) (w : World) pre EC post,
     is_would_block EC = true ->
     Forall wr_transfers pre ->
     wr_count pre < length Buffer ->
     wr_pending w = pre ++ WrErr EC :: post ->
     unix_write Buffer w =
     (Ok (wr_count pre, true),
      set_wr w post (tx w ++ take (wr_count pre) Buffer))).
Proof.
  repeat split.
  - intros Bytes w. unfold unix_read. simpl.
    rewrite read_loop_interrupts.
    destruct (read_loop _ _ _ _ _) as [[[Return c]|e] [p x]]; done.
  - intros Buffer w. unfold unix_write. simpl.
    rewrite write_loop_interrupts.
    destruct (write_loop _ _ _ _ _) as [[[[n S'] ret]|e] [p x]]; done.
  - apply unix_read_would_block.
  - apply unix_write_would_block.
Qed.

(** A read of ten bytes that an interruption and then EAGAIN meet after
    three bytes, and a write of four bytes that EWOULDBLOCK stops after
    two. *)
Lemma retry_loops_witness :
  let pre := [RdData [x01; x02]; RdErr interrupted; RdData [x03]] in
  let wpre := [WrAccept 1; WrErr interrupted; WrAccept 1] in
  (is_would_block resource_unavailable_try_again = true /\
   Forall (@rd_transfers musl) pre /\
   length (rd_bytes pre) < 10 /\
   @unix_read musl 10
     (mkWorld (pre ++ RdErr resource_unavailable_try_again :: [RdData [x04]])
        [] [] [] []) =
   (Ok ([x01; x02; x03], true),
    mkWorld [RdData [x04]] [x01; x02; x03] [] [] [])) /\
  (is_would_block operation_would_block = true /\
   Forall (@wr_transfers musl) wpre /\
   wr_count wpre < length [x0a; x0b; x0c; x0d] /\
   @unix_write musl [x0a; x0b; x0c; x0d]
     (mkWorld [] [] (wpre ++ WrErr operation_would_block :: [WrAccept 9])
        [] []) =
   (Ok (2, true), mkWorld [] [] [WrAccept 9] [x0a; x0b] [])).
Proof.
  assert (Forall (@rd_transfers musl)
            [RdData [x01; x02]; RdErr interrupted; RdData [x03]]) as Hr
    by (repeat constructor; simpl; (discriminate || lia)).
  assert (Forall (@wr_transfers musl)
            [WrAccept 1; WrErr interrupted; WrAccept 1]) as Hw
    by (repeat constructor; simpl; lia).
  split.
  - split; [reflexivity|]. split; [exact Hr|]. split; [simpl; lia|].
    exact (proj1 (proj2 (proj2 (@retry_loops musl))) 10
             (mkWorld ([RdData [x01; x02]; RdErr interrupted; RdData [x03]] ++
                       RdErr resource_unavailable_try_again :: [RdData [x04]])
                [] [] [] [])
             [RdData [x01; x02]; RdErr interrupted; RdData [x03]]
             resource_unavailable_try_again [RdData [x04]]
             eq_refl Hr ltac:(simpl; lia) eq_refl).
  - split; [reflexivity|]. split; [exact Hw|]. split; [simpl; lia|].
    exact (proj2 (proj2 (proj2 (@retry_loops musl))) [x0a; x0b; x0c; x0d]
             (mkWorld [] [] ([WrAccept 1; WrErr interrupted; WrAccept 1] ++
                             WrErr operation_would_block :: [WrAccept 9])
                [] [])
             [WrAccept 1; WrErr interrupted; WrAccept 1]
             operation_would_block [WrAccept 9]
             eq_refl Hw ltac:(simpl; lia) eq_refl).
Defined.

(** ** The failed flag of a pipe *)

Section FailedFlag.
Context `{Platform}.

Lemma read_loop_disconnect (Bytes : nat) (s : list rd_outcome) :
  forall (rxs : list byte) (Remaining : nat) r px,
    0 < Remaining <= Bytes ->
    read_loop Bytes s rxs [] Remaining = (r, px) ->
    (exists Return, r = Ok (Return, false) /\ Return = []) <->
    disconnected_at_once s = true.
Proof.
  induction s as [|o s IH]; intros rxs Remaining r px HR; simpl.
  - replace (negb _) with false
      by (symmetry; apply negb_false_iff, andb_true_iff;
          split; [apply Nat.ltb_lt|apply Nat.leb_le]; lia).
    intros [= <- <-]. split; [intros (? & [=] & _)|done].
  - replace (negb _) with false
      by (symmetry; apply negb_false_iff, andb_true_iff;
          split; [apply Nat.ltb_lt|apply Nat.leb_le]; lia).
    destruct o as [EC|data].
    + destruct (is_interrupted EC); simpl; [by apply IH|].
      destruct (is_would_block EC); intros [= <- <-];
        (split; [intros (? & [=] & _)|done]).
    + assert (0 < BUFSIZ `min` Remaining) as Hmin
        by (pose proof BUFSIZ_pos; lia).
      destruct px as [p x]. destruct data as [|b data].
      { rewrite take_nil. simpl. intros [= <- <- <-]. split; [done|eauto]. }
      destruct (BUFSIZ `min` Remaining) as [|m] eqn:Hm; [lia|].
      set (RB := take (S m) (b :: data)).
      assert (RB = b :: take m data) as HRB by done.
      replace (length RB =? 0) with false by (by rewrite HRB).
      intros Hrun. split; [|done]. intros (Return & -> & ->).
      apply read_loop_spec in Hrun as (got & _ & _ & Hret).
      destruct (Hret _ _ eq_refl) as [Heq _].
      assert (length RB = S (length (take m data))) as HlenRB
        by (by rewrite HRB).
      destruct (length RB `min` Remaining) as [|k] eqn:Hk; [lia|].
      by rewrite HRB in Heq.
Qed.

(** [unix::read] reports failure exactly when the peer has disconnected
    and left nothing. *)
Lemma unix_read_Success (Bytes : nat) (w : World) Data Success w' :
  unix_read Bytes w = (Ok (Data, Success), w') ->
  Success = negb ((0 <? Bytes) && disconnected_at_once (rd_pending w)).
Proof.
  unfold unix_read.
  destruct (read_loop _ _ _ _ _) as [r px] eqn:Hloop.
  destruct px as [p x].
  destruct (Nat.ltb_spec 0 Bytes) as [Hpos|Hz]; simpl.
  - pose proof (read_loop_disconnect _ _ _ _ _ _ (conj Hpos (le_n _)) Hloop)
      as Hiff.
    destruct r as [[Return c]|e]; [|discriminate].
    intros [= <- <- <-].
    destruct (disconnected_at_once _).
    + destruct (proj2 Hiff eq_refl) as (R & [= -> ->] & ->). done.
    + destruct c; [done|]. destruct Return; [|done].
      assert (false = true) by (apply Hiff; eauto). done.
  - assert (Bytes = 0) as -> by lia.
    destruct (rd_pending w); simpl in Hloop; injection Hloop as <- <-;
      intros [= <- <- <-]; done.
Qed.

Lemma unix_read_throw_connected (Bytes : nat) (w : World) e w' :
  unix_read Bytes w = (Throw e, w') ->
  disconnected_at_once (rd_pending w) = false.
Proof.
  unfold unix_read.
  destruct (read_loop _ _ _ _ _) as [r [p x]] eqn:Hloop.
  destruct r as [[Return c]|e']; [done|]. intros _.
  destruct (Nat.ltb_spec 0 Bytes) as [Hpos|Hz].
  - pose proof (read_loop_disconnect _ _ _ _ _ _ (conj Hpos (le_n _)) Hloop)
      as Hiff.
    destruct (disconnected_at_once _); [|done].
    by destruct (proj2 Hiff eq_refl) as (R & [=] & _).
  - assert (Bytes = 0) as -> by lia.
    by destruct (rd_pending w); simpl in Hloop.
Qed.

End FailedFlag.

(** C10: a [readImpl] that returns at least one byte leaves the pipe as it
    was, not failed, also when the script goes on with a zero-byte read; a
    [writeImpl] never changes the pipe, and one that EWOULDBLOCK or EAGAIN
    stops returns the count of the bytes sent before it and leaves
    [Continue] as it was.  [readImpl] sets the failed flag exactly when the
    first call that is not interrupted reads no bytes, a disconnect that
    yields no data; an exception leaves the flag as it was. *)
Theorem failed_flag `{Platform} :
  (forall Bytes Continue ch w Data c ch' w',
     readImpl Bytes Continue ch w = (Ok (Data, c), ch', w') ->
     Data <> [] ->
     ch' = ch /\ Failed ch' = false /\ c = Continue) /\
  (forall Buffer Continue ch w r ch' w',
     writeImpl Buffer Continue ch w = (r, ch', w') -> ch' = ch) /\
  (forall Buffer Continue ch w pre EC post,
     Failed ch = false ->
     OpenedAs ch = ModeWrite ->
     is_would_block EC = true ->
     Forall wr_transfers pre ->
     wr_count pre < length Buffer ->
     wr_pending w = pre ++ WrErr EC :: post ->
     writeImpl Buffer Continue ch w =
     (Ok (wr_count pre, Continue), ch,
      log_write (set_wr w post (tx w ++ take (wr_count pre) Buffer))
        (length Buffer) (wr_count pre))) /\
  (forall Bytes Continue ch w r ch' w',
     readImpl Bytes Continue ch w = (r, ch', w') ->
     Failed ch = false ->
     (Failed ch' = true <->
      OpenedAs ch = ModeRead /\ 0 < Bytes /\
      disconnected_at_once (rd_pending w) = true) /\
     (forall e, r = Throw e -> ch' = ch)).
Proof.
  split; [|split; [|split]].
  - intros Bytes Continue ch w Data c ch' w'. unfold readImpl.
    destruct (Failed ch) eqn:HF; [done|].
    destruct (negb _); [done|].
    destruct (unix_read Bytes w) as [[[D S]|e] w1] eqn:Hrd; [|done].
    apply unix_read_spec in Hrd as (_ & _ & _ & _ & _ & HS).
    destruct S; simpl; intros [= <- <- <- <-]; [done|].
    intros Hne. by destruct Hne, HS.
  - intros Buffer Continue ch w r ch' w'. unfold writeImpl.
    destruct (Failed ch); [by intros [= <- <- <-]|].
    destruct (negb _); [by intros [= <- <- <-]|].
    destruct (unix_write Buffer w) as [[[n S]|e] w1] eqn:Hwr;
      [|by intros [= <- <- <-]].
    apply unix_write_spec in Hwr as (_ & _ & -> & _). simpl.
    by intros [= <- <- <-].
  - intros Buffer Continue ch w pre EC post HF HM HEC Hpre Hlen Hw.
    unfold writeImpl. rewrite HF, HM. simpl.
    by rewrite (unix_write_would_block _ _ _ _ _ HEC Hpre Hlen Hw).
  - intros Bytes Continue ch w r ch' w'. unfold readImpl. intros Hrun HF.
    rewrite HF in Hrun. destruct (OpenedAs ch) eqn:HM; simpl in Hrun.
    + destruct (unix_read Bytes w) as [[[D S]|e] w1] eqn:Hrd.
      * apply unix_read_Success in Hrd as ->.
        destruct (Nat.ltb_spec 0 Bytes) as [Hpos|Hz];
          destruct (disconnected_at_once _); simpl in Hrun;
          injection Hrun as <- <- <-; simpl; rewrite ?HF;
          (split; [split; [intros; try done; lia|try done;
                           intros (_ & ? & ?); try done; lia]|done]).
      * injection Hrun as <- <- <-. rewrite HF.
        split; [split; [done|]|done]. intros (_ & ? & ?).
        apply unix_read_throw_connected in Hrd. congruence.
    + injection Hrun as <- <- <-. rewrite HF.
      split; [split; [done|by intros ([=] & _)]|done].
Qed.

(** A read that ends in a disconnect after two bytes; a write that
    EWOULDBLOCK stops after two of four bytes; a read that is interrupted
    and then finds the peer gone. *)
Lemma failed_flag_witness :
  let rd := mkPipe ModeRead false (Some []) None in
  let wr := mkPipe ModeWrite false None (Some []) in
  let w1 := mkWorld [RdData [x01; x02]; RdData []] [] [] [] [] in
  let wpre := [WrAccept 1; WrErr interrupted; WrAccept 1] in
  let w2 := mkWorld [] [] (wpre ++ WrErr operation_would_block :: []) [] [] in
  let w3 := mkWorld [RdErr interrupted; RdData []] [] [] [] [] in
  (@readImpl musl 10 true rd w1 =
     (Ok ([x01; x02], true), rd, mkWorld [] [x01; x02] [] [] []) /\
   [x01; x02] <> [] /\ Failed rd = false) /\
  (Forall (@wr_transfers musl) wpre /\
   wr_count wpre < length [x0a; x0b; x0c; x0d] /\
   @writeImpl musl [x0a; x0b; x0c; x0d] true wr w2 =
     (Ok (2, true), wr, mkWorld [] [] [] [x0a; x0b] [(4, 2)])) /\
  (@readImpl musl 10 true rd w3 =
     (Ok ([], false), setFailed rd, mkWorld [] [] [] [] []) /\
   Failed (setFailed rd) = true).
Proof.
  intros rd wr w1 wpre w2 w3.
  assert (Forall (@wr_transfers musl) wpre) as Hw
    by (repeat constructor; simpl; lia).
  assert (@readImpl musl 10 true rd w1 =
            (Ok ([x01; x02], true), rd, mkWorld [] [x01; x02] [] [] []))
    as Hr1 by reflexivity.
  assert (@readImpl musl 10 true rd w3 =
            (Ok ([], false), setFailed rd, mkWorld [] [] [] [] []))
    as Hr3 by reflexivity.
  destruct (@failed_flag musl) as (Hread & _ & Hwrite & Hset).
  split; [|split].
  - split; [exact Hr1|]. split; [discriminate|].
    exact (proj1 (proj2 (Hread _ _ _ _ _ _ _ _ Hr1 ltac:(discriminate)))).
  - split; [exact Hw|]. split; [simpl; lia|].
    exact (Hwrite [x0a; x0b; x0c; x0d] true wr w2 wpre operation_would_block
             [] eq_refl eq_refl eq_refl Hw ltac:(simpl; lia) eq_refl).
  - split; [exact Hr3|].
    apply (proj1 (Hset _ _ _ _ _ _ _ Hr3 eq_refl)).
    repeat split; simpl; lia.
Defined.

(** ** Flushing the write buffer *)

Section Flush.
Context `{Platform}.

(** What a [writeImpl] that returns has done. *)
Lemma writeImpl_spec (V : list byte) (c : bool) (ch : Pipe) (w : World)
    n c' ch' w' :
  writeImpl V c ch w = (Ok (n, c'), ch', w') ->
  ch' = ch /\ c' = c /\ n <= length V /\
  tx w' = tx w ++ take n V /\ wr_log w' = wr_log w ++ [(length V, n)] /\
  rd_pending w' = rd_pending w /\ rx w' = rx w /\
  Failed ch = false /\ OpenedAs ch = ModeWrite.
Proof.
  unfold writeImpl. destruct (Failed ch); [done|].
  destruct (OpenedAs ch); [done|]. simpl.
  destruct (unix_write V w) as [[[m S]|e] w1] eqn:Hwr; [|done].
  apply unix_write_spec in Hwr as (Hm & Htx & -> & Hp & Hrx & Hlog). simpl.
  intros [= <- <- <- <-]. simpl. rewrite Hlog. done.
Qed.

Lemma writeImpl_throw (V : list byte) (c : bool) (ch : Pipe) (w : World)
    e ch' w' :
  writeImpl V c ch w = (Throw e, ch', w') ->
  ch' = ch /\ rd_pending w' = rd_pending w /\ rx w' = rx w.
Proof.
  unfold writeImpl. destruct (Failed ch); [by intros [= <- <- <-]|].
  destruct (negb _); [by intros [= <- <- <-]|].
  destruct (unix_write V w) as [[[m S]|e'] w1] eqn:Hwr.
  - apply unix_write_spec in Hwr as (_ & _ & -> & _). done.
  - apply unix_write_throw in Hwr as (? & ? & _). by intros [= <- <- <-].
Qed.

Lemma flush_chunks_stopped (fuel ChunkSize BytesSent : nat) ch w :
  flush_chunks fuel ChunkSize BytesSent false ch w = (Ok BytesSent, ch, w).
Proof. by destruct fuel. Qed.

Lemma drop_drop_add {A : Type} (l : list A) (n m : nat) :
  drop m (drop n l) = drop (n + m) l.
Proof. rewrite drop_drop. done. Qed.

Lemma take_take_drop_app {A : Type} (l : list A) (n m : nat) :
  take n l ++ take m (drop n l) = take (n + m) l.
Proof.
  destruct (decide (n <= length l)).
  - rewrite <- (take_drop n l) at 3.
    rewrite take_app_add'; [done|]. rewrite length_take. lia.
  - rewrite drop_ge, take_nil, app_nil_r by lia.
    by rewrite !take_ge by lia.
Qed.

(** The loop of [flushWrites], when it returns: the history it adds drains
    the buffer; what has been sent is the front of the buffer, is on the
    wire in that order and is gone from the buffer; the rest is left. *)
Lemma flush_chunks_spec (fuel : nat) :
  forall (BytesSent : nat) (ch : Pipe) (w : World) ring sent ch' w',
    Write ch = Some ring ->
    length ring <= fuel ->
    flush_chunks fuel BUFSIZ BytesSent true ch w = (Ok sent, ch', w') ->
    exists calls,
      drains BUFSIZ (length ring) calls /\
      sent = BytesSent + sent_total calls /\
      sent_total calls <= length ring /\
      wr_log w' = wr_log w ++ calls /\
      tx w' = tx w ++ take (sent_total calls) ring /\
      ch' = setWrite ch (drop (sent_total calls) ring) /\
      rd_pending w' = rd_pending w /\ rx w' = rx w.
Proof.
  induction fuel as [|fuel IH]; intros BytesSent ch w ring sent ch' w' HW Hfuel.
  - destruct ring; [|simpl in Hfuel; lia]. simpl. intros [= <- <- <-].
    exists []. simpl. rewrite !app_nil_r, Nat.add_0_r.
    repeat split; try done; [constructor|].
    destruct ch; simpl in *; by subst.
  - simpl. unfold hasBufferedWrite. rewrite HW.
    destruct ring as [|b ring].
    { simpl. intros [= <- <- <-]. exists []. simpl.
      rewrite !app_nil_r, Nat.add_0_r.
      repeat split; try done; [constructor|].
      destruct ch; simpl in *; by subst. }
    simpl isEmpty. simpl negb. simpl default. cbv iota.
    unfold peekFront. set (full := b :: ring) in *.
    assert (0 < length full) as Hpos by (subst full; simpl; lia).
    clearbody full. clear b ring.
    destruct (writeImpl (take BUFSIZ full) true ch w)
      as [[[[n c]|e] ch1] w1] eqn:Hwr; [|done].
    apply writeImpl_spec in Hwr
      as (-> & -> & Hn & Htx & Hlog & Hp & Hrx & HF & HM).
    rewrite length_take in Hn, Hlog |- *.
    rewrite take_take in Htx.
    replace (n `min` BUFSIZ) with n in Htx by lia.
    destruct (Nat.ltb_spec n (BUFSIZ `min` length full)) as [Hshort|Hwhole].
    + rewrite flush_chunks_stopped. intros [= <- <- <-].
      exists [(BUFSIZ `min` length full, n)]. simpl. rewrite Nat.add_0_r.
      split; [by apply drains_short|]. split; [done|]. split; [lia|].
      split; [done|]. split; [done|].
      split; [unfold dropFrontWrite; by rewrite HW|done].
    + assert (n = BUFSIZ `min` length full) as Hn' by lia.
      intros Hrun.
      apply (IH _ _ _ (drop n full)) in Hrun
        as (calls & Hdr & -> & Htot & Hlog' & Htx' & -> & Hp' & Hrx');
        [|by unfold dropFrontWrite; rewrite HW
         |pose proof BUFSIZ_pos; rewrite length_drop; lia].
      rewrite length_drop in Hdr, Htot.
      exists ((BUFSIZ `min` length full, n) :: calls). simpl.
      repeat split.
      * pattern n at 1. rewrite Hn'. apply drains_whole; [done|].
        by rewrite <- Hn'.
      * lia.
      * lia.
      * rewrite Hlog', Hlog, <- app_assoc. done.
      * rewrite Htx', Htx, <- app_assoc, take_take_drop_app. done.
      * unfold dropFrontWrite. rewrite HW, drop_drop_add.
        destruct ch; done.
      * congruence.
      * congruence.
Qed.

End Flush.

Lemma drains_calls (chunk n : nat) (calls : list (nat * nat)) :
  0 < chunk ->
  drains chunk n calls ->
  Forall (fun c => 0 < c.1 <= chunk /\ c.2 <= c.1) calls /\
  (sent_total calls = n \/ exists o s, last calls = Some (o, s) /\ s < o).
Proof.
  intros Hc. induction 1 as [|n s Hn Hs|n calls Hn Hd [IHall IHend]].
  - split; [constructor|by left].
  - split; [repeat constructor; simpl; lia|right; eauto].
  - split; [constructor; [simpl; lia|done]|]. simpl.
    destruct IHend as [Hall|(o & s & Hlast & Hs)]; [left; lia|right].
    exists o, s. split; [|done]. destruct calls; [done|].
    by rewrite last_cons, Hlast.
Qed.

Section FlushSpec.
Context `{Platform}.

(** [flushWrites], when it returns. *)
Lemma flushWrites_spec (ch : Pipe) (w : World) (ring : list byte)
    (sent : nat) (ch' : Pipe) (w' : World) :
  Write ch = Some ring ->
  flushWrites ch w = (Ok sent, ch', w') ->
  exists calls : list (nat * nat),
    wr_log w' = wr_log w ++ calls /\
    drains BUFSIZ (length ring) calls /\
    sent = sent_total calls /\
    sent <= length ring /\
    tx w' = tx w ++ take sent ring /\
    ch' = setWrite ch (drop sent ring) /\
    rd_pending w' = rd_pending w /\ rx w' = rx w /\ Failed ch = false.
Proof.
  intros HW. unfold flushWrites, optimalWriteSize.
  destruct (Failed ch); [done|]. rewrite HW. simpl.
  unfold hasBufferedWrite, writeInBuffer. rewrite HW.
  destruct (isEmpty ring) eqn:He; simpl.
  - apply isEmpty_true in He as ->. intros [= <- <- <-]. exists [].
    rewrite !app_nil_r. simpl.
    split; [done|]. split; [apply drains_empty|].
    split; [done|]. split; [done|]. split; [done|].
    split; [destruct ch; simpl in *; by subst|done].
  - intros Hrun.
    apply (flush_chunks_spec _ _ _ _ ring) in Hrun
      as (calls & Hdr & -> & Htot & Hlog & Htx & -> & Hp & Hrx); [|done..].
    exists calls. simpl. done.
Qed.

End FlushSpec.

(** C5: [flushWrites], when it returns, has drained the write buffer in
    chunks of the optimal size: each [writeImpl] is offered the front of
    what is buffered, a whole chunk or all that is left, and exactly the
    bytes that it reports as sent are dropped from the front; the calls go on
    until the buffer is empty or one of them has sent less than it was
    offered.  The bytes sent are the front of the buffer, they are on the
    wire in their order, and the rest stays buffered in its order. *)
Theorem flushWrites_drains `{Platform} (ch : Pipe) (w : World)
    (ring : list byte) (sent : nat) (ch' : Pipe) (w' : World) :
  Write ch = Some ring ->
  flushWrites ch w = (Ok sent, ch', w') ->
  exists calls : list (nat * nat),
    wr_log w' = wr_log w ++ calls /\
    drains optimalWriteSize (length ring) calls /\
    Forall (fun c => 0 < c.1 <= optimalWriteSize /\ c.2 <= c.1) calls /\
    sent = sent_total calls /\
    sent <= length ring /\
    tx w' = tx w ++ take sent ring /\
    ch' = setWrite ch (drop sent ring) /\
    (drop sent ring = [] \/ exists o s, last calls = Some (o, s) /\ s < o).
Proof.
  intros HW Hrun. unfold optimalWriteSize.
  destruct (flushWrites_spec _ _ _ _ _ _ HW Hrun)
    as (calls & Hlog & Hdr & -> & Htot & Htx & -> & _).
  destruct (drains_calls _ _ _ BUFSIZ_pos Hdr) as [Hall Hend].
  exists calls. repeat split; try done.
  destruct Hend as [Hall'|Hshort]; [left|by right].
  rewrite Hall'. by rewrite drop_all.
Qed.

(** Six buffered bytes, chunks of four: the first chunk goes out whole (in
    two system calls, with an interruption between them), the second meets
    EWOULDBLOCK and stays buffered. *)
Lemma flushWrites_drains_witness :
  let ring := [x01; x02; x03; x04; x05; x06] in
  let ch := mkPipe ModeWrite false None (Some ring) in
  let w :=
    mkWorld [] [] [WrAccept 3; WrErr interrupted; WrAccept 9;
                   WrErr operation_would_block] [] [] in
  @flushWrites tiny ch w =
    (Ok 4, mkPipe ModeWrite false None (Some [x05; x06]),
     mkWorld [] [] [] [x01; x02; x03; x04] [(4, 4); (2, 0)]) /\
  exists calls : list (nat * nat),
    [(4, 4); (2, 0)] = [] ++ calls /\
    drains 4 6 calls /\
    4 = sent_total calls /\
    (drop 4 ring = [] \/ exists o s, last calls = Some (o, s) /\ s < o).
Proof.
  intros ring ch w.
  assert (@flushWrites tiny ch w =
            (Ok 4, mkPipe ModeWrite false None (Some [x05; x06]),
             mkWorld [] [] [] [x01; x02; x03; x04] [(4, 4); (2, 0)]))
    as Hrun by reflexivity.
  split; [exact Hrun|].
  destruct (@flushWrites_drains tiny ch w ring _ _ _ eq_refl Hrun)
    as (calls & Hlog & Hdr & _ & Hsent & _ & _ & _ & Hend).
  exists calls. repeat split; assumption.
Defined.

(** ** Reading through the read buffer *)

Section Reading.
Context `{Platform}.

(** What a [readImpl] that returns has done. *)
Lemma readImpl_spec (Bytes : nat) (c : bool) (ch : Pipe) (w : World)
    Data c' ch' w' :
  readImpl Bytes c ch w = (Ok (Data, c'), ch', w') ->
  rx w' = rx w ++ Data /\ length Data <= Bytes /\
  Read ch' = Read ch /\ Write ch' = Write ch /\ OpenedAs ch' = OpenedAs ch /\
  wr_pending w' = wr_pending w /\ tx w' = tx w /\ wr_log w' = wr_log w /\
  (Data <> [] -> ch' = ch /\ c' = c).
Proof.
  unfold readImpl. destruct (Failed ch); [done|].
  destruct (negb _); [done|].
  destruct (unix_read Bytes w) as [[[D S]|e] w1] eqn:Hrd; [|done].
  apply unix_read_spec in Hrd as (Hrx & Hlen & Hp & Htx & Hlog & HS).
  destruct S; simpl; intros [= <- <- <- <-]; repeat split; try done;
    exfalso; auto.
Qed.

Lemma readImpl_throw (Bytes : nat) (c : bool) (ch : Pipe) (w : World)
    e ch' w' :
  readImpl Bytes c ch w = (Throw e, ch', w') ->
  ch' = ch /\ wr_pending w' = wr_pending w /\ tx w' = tx w /\
  wr_log w' = wr_log w.
Proof.
  unfold readImpl. destruct (Failed ch); [by intros [= <- <- <-]|].
  destruct (negb _); [by intros [= <- <- <-]|].
  destruct (unix_read Bytes w) as [[[D S]|e'] w1] eqn:Hrd.
  - by destruct (negb S).
  - apply unix_read_throw in Hrd. by intros [= <- <- <-].
Qed.

Lemma read_chunks_stopped (fuel ChunkSize Bytes : nat) Return ch w :
  read_chunks fuel ChunkSize Bytes Return false ch w = (Ok Return, ch, w).
Proof. by destruct fuel. Qed.

Lemma read_chunks_done (fuel ChunkSize : nat) Return c ch w :
  read_chunks fuel ChunkSize 0 Return c ch w = (Ok Return, ch, w).
Proof. destruct fuel; [done|]. simpl. by rewrite andb_false_r. Qed.

(** The iterations that [read] allows its loop are enough: more would give
    the same. *)
Lemma read_chunks_fuel (ChunkSize : nat) (fuel : nat) :
  forall fuel' Bytes Return c ch w,
    Bytes <= fuel -> Bytes <= fuel' ->
    read_chunks fuel ChunkSize Bytes Return c ch w =
    read_chunks fuel' ChunkSize Bytes Return c ch w.
Proof.
  induction fuel as [|fuel IH]; intros fuel' Bytes Return c ch w Hf Hf'.
  - assert (Bytes = 0) as -> by lia. by rewrite !read_chunks_done.
  - destruct fuel' as [|fuel'].
    { assert (Bytes = 0) as -> by lia. by rewrite !read_chunks_done. }
    simpl. destruct (c && (0 <? Bytes)) eqn:Hc; [|done].
    apply andb_true_iff in Hc as [_ Hpos]. apply Nat.ltb_lt in Hpos.
    destruct (readImpl ChunkSize c ch w) as [[[[Chunk c']|e] ch1] w1]; [|done].
    destruct Chunk as [|b Chunk]; [done|]. simpl isEmpty. cbv iota.
    set (full := b :: Chunk).
    assert (0 < length full) by (subst full; simpl; lia).
    destruct (Bytes <? length full); apply IH; lia.
Qed.

(** The loop of [read], when it returns: what it has appended to [Return]
    and what it has put back into the buffer are, in this order, the bytes
    that the kernel has handed over. *)
Lemma read_chunks_spec (ChunkSize : nat) (fuel : nat) :
  forall Bytes Return c ch w ring Return' ch' w',
    Read ch = Some ring ->
    read_chunks fuel ChunkSize Bytes Return c ch w = (Ok Return', ch', w') ->
    exists got : list byte,
      rx w' = rx w ++ got /\
      Return' = Return ++ take Bytes got /\
      Read ch' = Some (ring ++ drop Bytes got) /\
      Write ch' = Write ch /\ OpenedAs ch' = OpenedAs ch /\
      wr_pending w' = wr_pending w /\ tx w' = tx w /\ wr_log w' = wr_log w.
Proof.
  induction fuel as [|fuel IH];
    intros Bytes Return c ch w ring Return' ch' w' HR; simpl.
  { intros [= <- <- <-]. exists []. rewrite take_nil, drop_nil, !app_nil_r.
    done. }
  destruct (c && (0 <? Bytes)) eqn:Hc.
  2:{ intros [= <- <- <-]. exists [].
      rewrite take_nil, drop_nil, !app_nil_r. done. }
  destruct (readImpl ChunkSize c ch w) as [[[[Chunk c']|e] ch1] w1] eqn:Hrd;
    [|done].
  apply readImpl_spec in Hrd
    as (Hrx & Hlen & HR1 & HW1 & HM1 & Hp & Htx & Hlog & Hsame).
  destruct (isEmpty Chunk) eqn:He.
  { apply isEmpty_true in He as ->. intros [= <- <- <-]. exists [].
    rewrite take_nil, drop_nil, !app_nil_r in *. rewrite HR1. done. }
  apply isEmpty_false in He. destruct (Hsame He) as [-> ->].
  destruct (Nat.ltb_spec Bytes (length Chunk)) as [Hlt|Hge].
  - rewrite read_chunks_stopped. intros [= <- <- <-]. exists Chunk.
    rewrite Nat.min_l by lia. unfold putBackRead, putBack. rewrite HR. simpl.
    rewrite (take_ge (drop Bytes Chunk)) by (rewrite length_drop; lia).
    done.
  - rewrite Nat.min_r by lia. rewrite firstn_all. intros Hrun.
    apply (IH _ _ _ _ _ ring) in Hrun
      as (got & Hrx' & -> & HR' & HW' & HM' & Hp' & Htx' & Hlog'); [|done].
    exists (Chunk ++ got).
    rewrite take_app, drop_app.
    rewrite (take_ge Chunk), (drop_ge Chunk) by lia.
    rewrite Hrx', Hrx, <- !app_assoc. simpl.
    repeat split; try done; congruence.
Qed.

End Reading.

Section ReadingSpec.
Context `{Platform}.

(** [read], when it returns: with [got] the bytes that the kernel has handed
    over during the call, the result is the first [Bytes] bytes of the buffer
    followed by [got], and the buffer keeps the rest. *)
Lemma read_spec (Bytes : nat) (ch : Pipe) (w : World) ring Return ch' w' :
  Read ch = Some ring ->
  read Bytes ch w = (Ok Return, ch', w') ->
  exists got : list byte,
    rx w' = rx w ++ got /\
    Return = take Bytes (ring ++ got) /\
    Read ch' = Some (drop Bytes (ring ++ got)) /\
    (Bytes <= length ring -> got = [] /\ w' = w) /\
    Failed ch = false /\ Write ch' = Write ch /\ OpenedAs ch' = OpenedAs ch /\
    wr_pending w' = wr_pending w /\ tx w' = tx w /\ wr_log w' = wr_log w.
Proof.
  intros HR. unfold read, optimalReadSize.
  destruct (Failed ch) eqn:HF; [done|]. rewrite HR.
  unfold readInBuffer, takeFront. rewrite HR.
  destruct (Nat.le_gt_cases Bytes (length ring)) as [Hle|Hgt].
  - (* all of it comes from the buffer *)
    destruct (Nat.ltb_spec 0 (length ring)) as [Hpos|Hz].
    + rewrite Nat.min_l by lia. rewrite length_take, Nat.min_l by lia.
      rewrite Nat.sub_diag. simpl. intros [= <- <- <-]. exists [].
      rewrite !app_nil_r. simpl. done.
    + assert (Bytes = 0) as -> by lia. simpl. intros [= <- <- <-].
      exists []. rewrite !app_nil_r, HR. simpl. by rewrite drop_0.
  - (* the buffer is emptied and the source is read *)
    set (pre := if 0 <? length ring then _ else _).
    assert (pre = (ring, Bytes - length ring, setRead ch [])) as ->.
    { subst pre. destruct (Nat.ltb_spec 0 (length ring)) as [Hpos|Hz].
      - rewrite Nat.min_r by lia. rewrite firstn_all, drop_all. done.
      - destruct ring; [|simpl in Hz; lia]. simpl. rewrite Nat.sub_0_r.
        destruct ch; simpl in *; by subst. }
    replace (Bytes - length ring =? 0) with false
      by (symmetry; apply Nat.eqb_neq; lia).
    destruct (read_chunks _ _ _ _ _ _ _) as [[[R|e] ch1] w1] eqn:Hrun; [|done].
    apply (read_chunks_spec _ _ _ _ _ _ _ []) in Hrun
      as (got & Hrx & -> & HR' & HW' & HM' & Hp & Htx & Hlog); [|done].
    destruct (overflown (Read ch1)); [done|]. intros [= <- <- <-].
    exists got. rewrite take_app, drop_app.
    rewrite (take_ge ring), (drop_ge ring) by lia.
    simpl in *. repeat split; try done; lia.
Qed.

End ReadingSpec.

(** C4: [read(n)], when it returns, returns at most [n] bytes, the buffered
    ones first: the result is the first [n] bytes of the read buffer followed
    by what the source has handed over during the call, and every byte
    handed over beyond them is kept, in its order, in the read buffer; when
    the buffer has [n] bytes the source is not touched.  A read that follows
    starts with the bytes kept: nothing is lost and nothing changes
    place. *)
Theorem read_serves_in_order `{Platform} (n : nat) (ch : Pipe) (w : World)
    (ring ret : list byte) (ch' : Pipe) (w' : World) :
  Read ch = Some ring ->
  read n ch w = (Ok ret, ch', w') ->
  exists got : list byte,
    rx w' = rx w ++ got /\
    length ret <= n /\
    ret = take n (ring ++ got) /\
    Read ch' = Some (drop n (ring ++ got)) /\
    (n <= length ring -> got = []) /\
    forall (m : nat) (ret2 : list byte) (ch'' : Pipe) (w'' : World),
      read m ch' w' = (Ok ret2, ch'', w'') ->
      exists got2 ring'' : list byte,
        rx w'' = rx w ++ got ++ got2 /\
        ret2 = take m (drop n (ring ++ got) ++ got2) /\
        Read ch'' = Some ring'' /\
        ret ++ ret2 ++ ring'' = ring ++ got ++ got2.
Proof.
  intros HR Hrun.
  destruct (read_spec _ _ _ _ _ _ _ HR Hrun)
    as (got & Hrx & -> & HR' & Hnone & _).
  exists got. split; [done|]. split; [rewrite length_take; lia|].
  split; [done|]. split; [done|]. split; [intros Hn; by destruct (Hnone Hn)|].
  intros m ret2 ch'' w'' Hrun2.
  destruct (read_spec _ _ _ _ _ _ _ HR' Hrun2)
    as (got2 & Hrx2 & -> & HR'' & _).
  exists got2, (drop m (drop n (ring ++ got) ++ got2)).
  split; [by rewrite Hrx2, Hrx, <- app_assoc|]. split; [done|].
  split; [done|]. rewrite take_drop.
  by rewrite (app_assoc _ _ got2), take_drop, <- app_assoc.
Qed.

(** Two bytes are buffered and five are asked for; the kernel hands over
    four: three are served with the buffered two, the fourth is kept and the
    next read returns it. *)
Lemma read_serves_in_order_witness :
  let ch := mkPipe ModeRead false (Some [x0a; x0b]) None in
  let w := mkWorld [RdData [x01; x02; x03; x04]; RdData [x05]] [] [] [] [] in
  let ch' := mkPipe ModeRead false (Some [x04]) None in
  let w' := mkWorld [RdData [x05]] [x01; x02; x03; x04] [] [] [] in
  @read tiny 5 ch w = (Ok [x0a; x0b; x01; x02; x03], ch', w') /\
  @read tiny 1 ch' w' = (Ok [x04], mkPipe ModeRead false (Some []) None, w') /\
  exists got : list byte,
    rx w' = rx w ++ got /\
    [x0a; x0b; x01; x02; x03] = take 5 ([x0a; x0b] ++ got) /\
    Read ch' = Some (drop 5 ([x0a; x0b] ++ got)).
Proof.
  intros ch w ch' w'.
  assert (@read tiny 5 ch w = (Ok [x0a; x0b; x01; x02; x03], ch', w'))
    as Hrun by reflexivity.
  split; [exact Hrun|]. split; [reflexivity|].
  destruct (@read_serves_in_order tiny 5 ch w [x0a; x0b] _ _ _ eq_refl Hrun)
    as (got & Hrx & _ & Hret & HR & _).
  exists got. repeat split; assumption.
Defined.

(** ** Writing behind the write buffer *)

Section Writing.
Context `{Platform}.

Lemma putBackWrite_Some (ch : Pipe) (ring Data : list byte) :
  Write ch = Some ring -> putBackWrite ch Data = setWrite ch (ring ++ Data).
Proof. intros HW. unfold putBackWrite, putBack. by rewrite HW. Qed.

Lemma checkWriteOverflow_Some {A : Type} (a : A) (ch : Pipe) (w : World)
    (ring : list byte) :
  Write ch = Some ring ->
  checkWriteOverflow a ch w =
  if (BufferSizeMax <? size ring)%N
  then (Throw (OverflowError (size ring) false true), setFailed ch, w)
  else (Ok a, ch, w).
Proof.
  intros HW. unfold checkWriteOverflow, overflown, writeInBuffer.
  rewrite HW. by destruct (_ <? _)%N.
Qed.

(** [write] on a buffer that the flush has not emptied. *)
Lemma write_after_partial_flush (Data : list byte) (ch : Pipe) (w : World)
    (ring : list byte) (sent : nat) (ch1 : Pipe) (w1 : World) :
  Write ch = Some ring ->
  flushWrites ch w = (Ok sent, ch1, w1) ->
  sent < length ring ->
  write Data ch w =
  checkWriteOverflow 0 (setWrite ch (drop sent ring ++ Data)) w1.
Proof.
  intros HW Hflush Hpartial.
  destruct (flushWrites_spec _ _ _ _ _ _ HW Hflush)
    as (calls & _ & _ & _ & _ & _ & Hch1 & _ & _ & HF).
  unfold write. rewrite HF, HW, Hflush. simpl.
  unfold writeInBuffer. rewrite HW.
  replace (sent <? length ring) with true by (symmetry; by apply Nat.ltb_lt).
  simpl. subst ch1. by rewrite (putBackWrite_Some _ (drop sent ring)).
Qed.

(** A descriptor that takes nothing: the flush sends nothing and leaves the
    buffer as it is. *)
Lemma flushWrites_stuck (ch : Pipe) (w : World) (ring : list byte) :
  Failed ch = false -> OpenedAs ch = ModeWrite ->
  Write ch = Some ring -> ring <> [] -> wr_pending w = [] ->
  flushWrites ch w =
  (Ok 0, ch, log_write (set_wr w [] (tx w)) (BUFSIZ `min` length ring) 0).
Proof.
  intros HF HM HW Hne Hp. unfold flushWrites, optimalWriteSize.
  rewrite HF, HW. simpl. unfold hasBufferedWrite, writeInBuffer. rewrite HW.
  destruct ring as [|b ring]; [done|]. simpl isEmpty. simpl negb. cbv iota.
  set (full := b :: ring) in *.
  assert (exists f, length full = S f) as [f Hlen]
    by (subst full; simpl; eauto).
  rewrite Hlen.
  cbn [flush_chunks]. unfold hasBufferedWrite. rewrite HW. simpl default.
  replace (true && negb (isEmpty full)) with true by done.
  unfold peekFront, writeImpl. rewrite HF, HM. simpl negb. cbv iota.
  unfold unix_write. rewrite Hp.
  pose proof BUFSIZ_pos as Hpos.
  destruct (take BUFSIZ full) as [|v V] eqn:HV.
  { exfalso. apply (f_equal length) in HV. rewrite length_take in HV.
    subst full. simpl in HV. lia. }
  cbn [write_loop isEmpty]. cbv iota. simpl negb. cbv iota.
  rewrite <- HV, length_take.
  replace (0 <? BUFSIZ `min` length full) with true
    by (symmetry; apply Nat.ltb_lt; subst full; simpl; lia).
  rewrite flush_chunks_stopped. unfold dropFrontWrite, dropFront.
  rewrite HW, drop_0, Hlen. destruct ch; simpl in *; by subst.
Qed.

End Writing.

(** C1, as the code has it: when the write buffer is not empty, [write]
    flushes it first, and when the flush has sent fewer bytes than were
    buffered, the whole of [Data] is appended to what is left in the buffer
    and nothing of it is sent: the wire has received the front of the old
    buffer only, and the wire followed by the buffer is the old wire, the old
    buffer and [Data], in this order.  [write] then returns 0, unless the
    buffer has grown past [BufferSizeMax]: then it throws [OverflowError]
    with the size of the buffer. *)
Theorem write_behind_buffer `{Platform} (Data : list byte) (ch : Pipe)
    (w : World) (ring : list byte) (sent : nat) (ch1 : Pipe) (w1 : World) :
  Write ch = Some ring ->
  flushWrites ch w = (Ok sent, ch1, w1) ->
  sent < length ring ->
  let ring' := drop sent ring ++ Data in
  tx w1 = tx w ++ take sent ring /\
  tx w1 ++ ring' = tx w ++ ring ++ Data /\
  write Data ch w =
  if (BufferSizeMax <? size ring')%N
  then (Throw (OverflowError (size ring') false true),
        setFailed (setWrite ch ring'), w1)
  else (Ok 0, setWrite ch ring', w1).
Proof.
  intros HW Hflush Hpartial ring'.
  destruct (flushWrites_spec _ _ _ _ _ _ HW Hflush)
    as (calls & _ & _ & _ & _ & Htx & _).
  split; [done|]. split.
  - subst ring'. rewrite Htx, <- app_assoc, (app_assoc (take _ _)).
    by rewrite take_drop.
  - rewrite (write_after_partial_flush _ _ _ _ _ _ _ HW Hflush Hpartial).
    by apply checkWriteOverflow_Some.
Qed.

(** Six bytes are buffered and the descriptor takes four: [write] of a
    seventh byte sends none of it and returns 0. *)
Lemma write_behind_buffer_witness :
  let ring := [x01; x02; x03; x04; x05; x06] in
  let ch := mkPipe ModeWrite false None (Some ring) in
  let w :=
    mkWorld [] [] [WrAccept 3; WrErr interrupted; WrAccept 9;
                   WrErr operation_would_block; WrAccept 9] [] [] in
  let w1 := mkWorld [] [] [WrAccept 9] [x01; x02; x03; x04] [(4, 4); (2, 0)] in
  @flushWrites tiny ch w =
    (Ok 4, mkPipe ModeWrite false None (Some [x05; x06]), w1) /\
  4 < length ring /\
  @write tiny [x07] ch w =
    (Ok 0, mkPipe ModeWrite false None (Some [x05; x06; x07]), w1).
Proof.
  intros ring ch w w1.
  assert (@flushWrites tiny ch w =
            (Ok 4, mkPipe ModeWrite false None (Some [x05; x06]), w1))
    as Hflush by reflexivity.
  assert (4 < length ring) as Hpartial by (simpl; lia).
  split; [exact Hflush|]. split; [exact Hpartial|].
  exact (proj2 (proj2 (@write_behind_buffer tiny [x07] ch w ring 4 _ _
                         eq_refl Hflush Hpartial))).
Defined.

(** A buffer that holds 2 GiB, the most it may hold, on a descriptor that
    takes nothing: the flush sends none of it, the write of one more byte
    appends the byte and then, the buffer being one byte over the limit,
    throws [OverflowError] rather than returning 0. *)
Lemma write_returns_zero_counterexample :
  let ring := repeat x00 (N.to_nat BufferSizeMax) in
  let ch := mkPipe ModeWrite false None (Some ring) in
  hasBufferedWrite ch = true /\
  (exists sent ch1 w1,
     @flushWrites musl ch quiet = (Ok sent, ch1, w1) /\ sent < length ring) /\
  (@write musl [x00] ch quiet).1.1 =
    Throw (OverflowError (BufferSizeMax + 1) false true) /\
  (@write musl [x00] ch quiet).1.1 <> Ok 0.
Proof.
  intros ring ch.
  assert (N.of_nat (length ring) = BufferSizeMax) as Hlen
    by (subst ring; by rewrite repeat_length, N2Nat.id).
  assert (ring <> []) as Hne
    by (intros Heq; rewrite Heq in Hlen; discriminate Hlen).
  clearbody ring.
  pose proof (@flushWrites_stuck musl ch quiet ring eq_refl eq_refl eq_refl
                Hne eq_refl) as Hflush.
  assert (0 < length ring) as Hpos by (destruct ring; simpl; [done|lia]).
  assert ((@write musl [x00] ch quiet).1.1 =
            Throw (OverflowError (BufferSizeMax + 1) false true)) as Hthrow.
  { rewrite (@write_after_partial_flush musl [x00] ch quiet ring _ _ _
               eq_refl Hflush Hpos).
    rewrite (checkWriteOverflow_Some 0
               (setWrite ch (drop 0 ring ++ [x00])) _
               (drop 0 ring ++ [x00]) eq_refl).
    unfold size. rewrite drop_0, length_app, Nat2N.inj_add, Hlen. simpl length.
    replace (BufferSizeMax <? BufferSizeMax + N.of_nat 1)%N with true
      by (symmetry; apply N.ltb_lt; lia).
    done. }
  split; [by destruct ring|]. split; [eauto|]. split; [done|].
  by rewrite Hthrow.
Qed.

(** ** The overflow guard and the failed flag of a channel *)

Section Guard.
Context `{Platform}.

Lemma writeImpl_pipe (V : list byte) (c : bool) (ch : Pipe) (w : World)
    r ch' w' :
  writeImpl V c ch w = (r, ch', w') -> ch' = ch.
Proof.
  destruct r as [[n c']|e]; intros Hrun.
  - by apply writeImpl_spec in Hrun as (-> & _).
  - by apply writeImpl_throw in Hrun as (-> & _).
Qed.

Lemma readImpl_rings (Bytes : nat) (c : bool) (ch : Pipe) (w : World)
    r ch' w' :
  readImpl Bytes c ch w = (r, ch', w') ->
  Read ch' = Read ch /\ Write ch' = Write ch.
Proof.
  destruct r as [[D c']|e]; intros Hrun.
  - by apply readImpl_spec in Hrun as (_ & _ & -> & -> & _).
  - by apply readImpl_throw in Hrun as (-> & _).
Qed.

(** Whatever the loop of [flushWrites] does, it only takes from the front of
    the write buffer. *)
Lemma flush_chunks_rings (fuel : nat) :
  forall ChunkSize BytesSent c ch w r ch' w' ring,
    Write ch = Some ring ->
    flush_chunks fuel ChunkSize BytesSent c ch w = (r, ch', w') ->
    Read ch' = Read ch /\ Failed ch' = Failed ch /\
    exists k, Write ch' = Some (drop k ring).
Proof.
  induction fuel as [|fuel IH];
    intros ChunkSize BytesSent c ch w r ch' w' ring HW; simpl.
  { intros [= <- <- <-]. repeat split. exists 0. by rewrite drop_0. }
  destruct (c && hasBufferedWrite ch).
  2:{ intros [= <- <- <-]. repeat split. exists 0. by rewrite drop_0. }
  destruct (writeImpl _ _ _ _) as [[r1 ch1] w1] eqn:Hwr.
  apply writeImpl_pipe in Hwr as ->.
  destruct r1 as [[n c']|e].
  - intros Hrun. unfold dropFrontWrite, dropFront in Hrun. rewrite HW in Hrun.
    apply (IH _ _ _ _ _ _ _ _ (drop n ring)) in Hrun
      as (HR & HF & k & Hk); [|done].
    repeat split; [done..|]. exists (n + k). by rewrite <- drop_drop_add.
  - intros [= <- <- <-]. repeat split. exists 0. by rewrite drop_0.
Qed.

Lemma flushWrites_rings (ch : Pipe) (w : World) r ch' w' ring :
  Write ch = Some ring ->
  flushWrites ch w = (r, ch', w') ->
  Read ch' = Read ch /\ Failed ch' = Failed ch /\
  exists k, Write ch' = Some (drop k ring).
Proof.
  intros HW. unfold flushWrites. intros Hrun.
  assert (Write ch = Some (drop 0 ring)) as HW0 by (by rewrite drop_0).
  destruct (Failed ch) eqn:HF; [injection Hrun as <- <- <-; eauto|].
  rewrite HW in Hrun. cbn [present negb] in Hrun.
  destruct (hasBufferedWrite ch); cbn [negb] in Hrun;
    [|injection Hrun as <- <- <-; eauto].
  rewrite <- HF. by eapply flush_chunks_rings.
Qed.

Lemma write_chunks_pipe (fuel : nat) :
  forall ChunkSize Data BytesSent c ch w r ch' w',
    write_chunks fuel ChunkSize Data BytesSent c ch w = (r, ch', w') ->
    ch' = ch.
Proof.
  induction fuel as [|fuel IH];
    intros ChunkSize Data BytesSent c ch w r ch' w'; simpl.
  { by intros [= <- <- <-]. }
  destruct (c && negb (isEmpty Data)); [|by intros [= <- <- <-]].
  destruct (writeImpl _ _ _ _) as [[r1 ch1] w1] eqn:Hwr.
  apply writeImpl_pipe in Hwr as ->.
  destruct r1 as [[n c']|e]; [apply IH|by intros [= <- <- <-]].
Qed.

(** The loop of [read] does not throw once it has put bytes back: an
    exception leaves the buffers as the loop found them. *)
Lemma read_chunks_throw (fuel : nat) :
  forall ChunkSize Bytes Return c ch w e ch' w',
    read_chunks fuel ChunkSize Bytes Return c ch w = (Throw e, ch', w') ->
    Read ch' = Read ch /\ Write ch' = Write ch /\ Failed ch' = Failed ch.
Proof.
  induction fuel as [|fuel IH];
    intros ChunkSize Bytes Return c ch w e ch' w'; simpl; [done|].
  destruct (c && (0 <? Bytes)); [|done].
  destruct (readImpl _ _ _ _) as [[r1 ch1] w1] eqn:Hrd.
  destruct r1 as [[Chunk c']|e1].
  - destruct (isEmpty Chunk) eqn:He; [done|]. apply isEmpty_false in He.
    apply readImpl_spec in Hrd as (_ & _ & _ & _ & _ & _ & _ & _ & Hsame).
    destruct (Hsame He) as [-> ->].
    destruct (Bytes <? length Chunk); [by rewrite read_chunks_stopped|].
    apply IH.
  - apply readImpl_throw in Hrd as (-> & _). by intros [= <- <- <-].
Qed.

Lemma load_chunks_rings (fuel : nat) :
  forall ChunkSize Bytes ReadBytes c ch w r ch' w',
    load_chunks fuel ChunkSize Bytes ReadBytes c ch w = (r, ch', w') ->
    Write ch' = Write ch.
Proof.
  induction fuel as [|fuel IH];
    intros ChunkSize Bytes ReadBytes c ch w r ch' w'; simpl.
  { by intros [= <- <- <-]. }
  destruct (c && (0 <? Bytes)); [|by intros [= <- <- <-]].
  destruct (readImpl _ _ _ _) as [[r1 ch1] w1] eqn:Hrd.
  apply readImpl_rings in Hrd as [HR1 HW1].
  destruct r1 as [[Chunk c']|e1]; [|by intros [= <- <- <-]].
  destruct (isEmpty Chunk); [by intros [= <- <- <-]|].
  intros Hrun. apply IH in Hrun as ->.
  unfold putBackRead. by destruct (Read ch1).
Qed.

(** The handle throws [std::system_error] only. *)
Lemma read_loop_throws (Bytes : nat) (s : list rd_outcome) :
  forall rxs Return Remaining e px,
    read_loop Bytes s rxs Return Remaining = (Throw e, px) ->
    exists EC, e = system_error EC.
Proof.
  induction s as [|o s IH]; intros rxs Return Remaining e px; simpl.
  - by destruct (negb _).
  - destruct (negb _); [done|]. destruct o as [EC|data].
    + destruct (is_interrupted EC); [apply IH|].
      destruct (is_would_block EC); [done|]. intros [= <- <-]. eauto.
    + destruct (_ =? 0); [done|]. apply IH.
Qed.

Lemma write_loop_throws (s : list wr_outcome) :
  forall txs Buffer BytesSent Success e px,
    write_loop s txs Buffer BytesSent Success = (Throw e, px) ->
    exists EC, e = system_error EC.
Proof.
  induction s as [|o s IH]; intros txs Buffer BytesSent Success e px; simpl.
  - by destruct (isEmpty Buffer).
  - destruct (isEmpty Buffer); [done|]. destruct o as [EC|n].
    + destruct (is_interrupted EC); [apply IH|].
      destruct (is_would_block EC); [done|]. intros [= <- <-]. eauto.
    + destruct (_ =? 0); [done|]. apply IH.
Qed.

Lemma readImpl_throws (Bytes : nat) (c : bool) (ch : Pipe) (w : World)
    e ch' w' :
  readImpl Bytes c ch w = (Throw e, ch', w') -> exists EC, e = system_error EC.
Proof.
  unfold readImpl. destruct (Failed ch); [intros [= <- <- <-]; eauto|].
  destruct (negb _); [intros [= <- <- <-]; eauto|]. unfold unix_read.
  destruct (read_loop _ _ _ _ _) as [[[Return c']|e'] [p x]] eqn:Hloop.
  - by destruct (negb _).
  - apply read_loop_throws in Hloop. by intros [= <- <- <-].
Qed.

Lemma writeImpl_throws (V : list byte) (c : bool) (ch : Pipe) (w : World)
    e ch' w' :
  writeImpl V c ch w = (Throw e, ch', w') -> exists EC, e = system_error EC.
Proof.
  unfold writeImpl. destruct (Failed ch); [intros [= <- <- <-]; eauto|].
  destruct (negb _); [intros [= <- <- <-]; eauto|]. unfold unix_write.
  destruct (write_loop _ _ _ _ _) as [[[[n S] ret]|e'] [p x]] eqn:Hloop.
  - by destruct (negb _).
  - apply write_loop_throws in Hloop. by intros [= <- <- <-].
Qed.

Lemma flush_chunks_throws (fuel : nat) :
  forall ChunkSize BytesSent c ch w e ch' w',
    flush_chunks fuel ChunkSize BytesSent c ch w = (Throw e, ch', w') ->
    exists EC, e = system_error EC.
Proof.
  induction fuel as [|fuel IH];
    intros ChunkSize BytesSent c ch w e ch' w'; simpl; [done|].
  destruct (c && hasBufferedWrite ch); [|done].
  destruct (writeImpl _ _ _ _) as [[[[n c']|e1] ch1] w1] eqn:Hwr; [apply IH|].
  apply writeImpl_throws in Hwr. by intros [= <- <- <-].
Qed.

Lemma flushWrites_throws (ch : Pipe) (w : World) e ch' w' :
  flushWrites ch w = (Throw e, ch', w') -> exists EC, e = system_error EC.
Proof.
  unfold flushWrites. destruct (Failed ch); [intros [= <- <- <-]; eauto|].
  destruct (negb _); [intros [= <- <- <-]; eauto|].
  destruct (negb _); [done|]. apply flush_chunks_throws.
Qed.

Lemma write_chunks_throws (fuel : nat) :
  forall ChunkSize Data BytesSent c ch w e ch' w',
    write_chunks fuel ChunkSize Data BytesSent c ch w = (Throw e, ch', w') ->
    exists EC, e = system_error EC.
Proof.
  induction fuel as [|fuel IH];
    intros ChunkSize Data BytesSent c ch w e ch' w'; simpl; [done|].
  destruct (c && negb (isEmpty Data)); [|done].
  destruct (writeImpl _ _ _ _) as [[[[n c']|e1] ch1] w1] eqn:Hwr; [apply IH|].
  apply writeImpl_throws in Hwr. by intros [= <- <- <-].
Qed.

Lemma read_chunks_throws (fuel : nat) :
  forall ChunkSize Bytes Return c ch w e ch' w',
    read_chunks fuel ChunkSize Bytes Return c ch w = (Throw e, ch', w') ->
    exists EC, e = system_error EC.
Proof.
  induction fuel as [|fuel IH];
    intros ChunkSize Bytes Return c ch w e ch' w'; simpl; [done|].
  destruct (c && (0 <? Bytes)); [|done].
  destruct (readImpl _ _ _ _) as [[[[Chunk c']|e1] ch1] w1] eqn:Hrd.
  - destruct (isEmpty Chunk); [done|].
    destruct (Bytes <? length Chunk); apply IH.
  - apply readImpl_throws in Hrd. by intros [= <- <- <-].
Qed.

Lemma load_chunks_throws (fuel : nat) :
  forall ChunkSize Bytes ReadBytes c ch w e ch' w',
    load_chunks fuel ChunkSize Bytes ReadBytes c ch w = (Throw e, ch', w') ->
    exists EC, e = system_error EC.
Proof.
  induction fuel as [|fuel IH];
    intros ChunkSize Bytes ReadBytes c ch w e ch' w'; simpl; [done|].
  destruct (c && (0 <? Bytes)); [|done].
  destruct (readImpl _ _ _ _) as [[[[Chunk c']|e1] ch1] w1] eqn:Hrd.
  - destruct (isEmpty Chunk); [done|]. apply IH.
  - apply readImpl_throws in Hrd. by intros [= <- <- <-].
Qed.

Lemma overflown_drop (ring : list byte) (k : nat) :
  overflown (Some ring) = false -> overflown (Some (drop k ring)) = false.
Proof.
  unfold overflown, size. rewrite !N.ltb_ge, length_drop. lia.
Qed.

End Guard.

Section GuardOperations.
Context `{Platform}.

Lemma within_bound_setRead (ch : Pipe) (ring : list byte) (k : nat) :
  within_bound ch -> Read ch = Some ring ->
  within_bound (setRead ch (drop k ring)).
Proof.
  intros [HR HW] Hring. split; [|done]. simpl.
  apply overflown_drop. by rewrite <- Hring.
Qed.

Lemma within_bound_rings (ch ch' : Pipe) :
  within_bound ch -> Read ch' = Read ch -> Write ch' = Write ch ->
  within_bound ch'.
Proof. intros [HR HW] HR' HW'. split; congruence. Qed.

(** [read] after it has served what the buffer has. *)
Lemma read_source_guard (Bytes0 Bytes : nat) (Return : list byte) (ch : Pipe)
    (w : World) r ch' w' :
  within_bound ch -> is_Some (Read ch) ->
  (if Bytes =? 0 then (Ok Return, ch, w)
   else
     match read_chunks Bytes optimalReadSize Bytes Return true ch w with
     | (Throw e, ch, w) => (Throw e, ch, w)
     | (Ok Return, ch, w) =>
         if overflown (Read ch) then
           let '(r, ch) :=
             throwOverflowError ch (N.of_nat (readInBuffer ch)) true false in
           (r, ch, w)
         else (Ok Return, ch, w)
     end) = (r, ch', w') ->
  guard_post (DoRead Bytes0) (thrown r) ch'.
Proof.
  intros Hin [ring HR]. destruct (Bytes =? 0); [by intros [= <- <- <-]|].
  destruct (read_chunks _ _ _ _ _ _ _) as [[[R|e] ch1] w1] eqn:Hrun.
  - apply (read_chunks_spec _ _ _ _ _ _ _ ring) in Hrun
      as (got & _ & _ & HR' & HW' & _); [|done].
    destruct (overflown (Read ch1)) eqn:Hov; intros [= <- <- <-]; simpl;
      [done|].
    split; [done|]. rewrite HW'. apply Hin.
  - pose proof (read_chunks_throws _ _ _ _ _ _ _ _ _ _ Hrun) as [EC ->].
    apply read_chunks_throw in Hrun as (HR' & HW' & _).
    intros [= <- <- <-]. simpl. left. by eapply within_bound_rings.
Qed.

Lemma read_guard (Bytes : nat) (ch : Pipe) (w : World) r ch' w' :
  within_bound ch ->
  read Bytes ch w = (r, ch', w') ->
  guard_post (DoRead Bytes) (thrown r) ch'.
Proof.
  intros Hin. unfold read.
  destruct (Failed ch); [intros [= <- <- <-]; by left|].
  destruct (Read ch) as [ring|] eqn:HR; [|intros [= <- <- <-]; by left].
  unfold takeFront.
  destruct (0 <? readInBuffer ch).
  - apply read_source_guard; [by apply within_bound_setRead|by eexists].
  - apply read_source_guard; [done|by eexists].
Qed.

Lemma load_guard (Bytes : nat) (ch : Pipe) (w : World) r ch' w' :
  within_bound ch ->
  load Bytes ch w = (r, ch', w') ->
  guard_post (DoLoad Bytes) (thrown r) ch'.
Proof.
  intros Hin. unfold load.
  destruct (Failed ch); [intros [= <- <- <-]; by left|].
  destruct (negb _); [intros [= <- <- <-]; by left|].
  destruct (load_chunks _ _ _ _ _ _ _) as [[[n|e] ch1] w1] eqn:Hrun.
  - apply load_chunks_rings in Hrun as HW'.
    destruct (overflown (Read ch1)) eqn:Hov; intros [= <- <- <-]; simpl;
      [done|].
    split; [done|]. rewrite HW'. apply Hin.
  - pose proof (load_chunks_throws _ _ _ _ _ _ _ _ _ _ Hrun) as [EC ->].
    intros [= <- <- <-]. simpl. right. eauto.
Qed.

Lemma flushWrites_guard (ch : Pipe) (w : World) r ch' w' :
  within_bound ch ->
  flushWrites ch w = (r, ch', w') ->
  guard_post DoFlush (thrown r) ch'.
Proof.
  intros Hin Hrun.
  assert (within_bound ch') as Hin'.
  { destruct (Write ch) as [ring|] eqn:HW.
    - destruct (flushWrites_rings _ _ _ _ _ _ HW Hrun) as (HR' & _ & k & HW').
      split; [rewrite HR'; apply Hin|]. rewrite HW'. apply overflown_drop.
      rewrite <- HW. apply Hin.
    - revert Hrun. unfold flushWrites. rewrite HW.
      destruct (Failed ch); by intros [= <- <- <-]. }
  destruct r as [n|e]; [done|].
  apply flushWrites_throws in Hrun as [EC ->]. by left.
Qed.

Lemma checkWriteOverflow_guard {A : Type} (Data : list byte) (a : A)
    (ch : Pipe) (w : World) r ch' w' :
  overflown (Read ch) = false ->
  checkWriteOverflow a ch w = (r, ch', w') ->
  guard_post (DoWrite Data) (thrown r) ch'.
Proof.
  intros HR. unfold checkWriteOverflow.
  destruct (overflown (Write ch)) eqn:Hov; intros [= <- <- <-]; done.
Qed.

Lemma write_guard (Data : list byte) (ch : Pipe) (w : World) r ch' w' :
  within_bound ch ->
  write Data ch w = (r, ch', w') ->
  guard_post (DoWrite Data) (thrown r) ch'.
Proof.
  intros Hin. unfold write.
  destruct (Failed ch); [intros [= <- <- <-]; by left|].
  destruct (Write ch) as [ring|] eqn:HW; [|intros [= <- <- <-]; by left].
  cbn [present negb].
  destruct (flushWrites ch w) as [[[sent|e] ch1] w1] eqn:Hflush.
  - pose proof (flushWrites_guard _ _ _ _ _ Hin Hflush) as Hin1.
    simpl in Hin1.
    destruct (negb (negb _)).
    { apply checkWriteOverflow_guard. unfold putBackWrite.
      destruct (Write ch1); apply Hin1. }
    destruct (isEmpty Data); [by intros [= <- <- <-]|].
    destruct (write_chunks _ _ _ _ _ _ _) as [[[[n rest]|e] ch2] w2] eqn:Hrun.
    + apply write_chunks_pipe in Hrun as ->.
      apply checkWriteOverflow_guard. unfold putBackWrite.
      destruct (negb _); [|apply Hin1]. destruct (Write ch1); apply Hin1.
    + pose proof (write_chunks_throws _ _ _ _ _ _ _ _ _ _ Hrun) as [EC ->].
      apply write_chunks_pipe in Hrun as ->.
      intros [= <- <- <-]. by left.
  - pose proof (flushWrites_guard _ _ _ _ _ Hin Hflush) as Hin1.
    pose proof (flushWrites_throws _ _ _ _ _ Hflush) as [EC ->].
    intros [= <- <- <-]. simpl in *. destruct Hin1 as [?|[? [=]]]. by left.
Qed.

(** The guard, for every operation. *)
Lemma perform_guard (op : operation) (ch : Pipe) (w : World) o ch' w' :
  within_bound ch ->
  perform op ch w = (o, ch', w') ->
  guard_post op o ch'.
Proof.
  intros Hin. destruct op as [Bytes|Data|Bytes|]; simpl.
  - destruct (read Bytes ch w) as [[r ch1] w1] eqn:Hrun.
    intros [= <- <- <-]. by eapply read_guard.
  - destruct (write Data ch w) as [[r ch1] w1] eqn:Hrun.
    intros [= <- <- <-]. by eapply write_guard.
  - destruct (load Bytes ch w) as [[r ch1] w1] eqn:Hrun.
    intros [= <- <- <-]. by eapply load_guard.
  - destruct (flushWrites ch w) as [[r ch1] w1] eqn:Hrun.
    intros [= <- <- <-]. by eapply flushWrites_guard.
Qed.

(** On a failed channel every operation throws the I/O error and touches
    nothing. *)
Lemma perform_failed (op : operation) (ch : Pipe) (w : World) :
  Failed ch = true ->
  perform op ch w = (Some (system_error io_error), ch, w).
Proof.
  intros HF. destruct op; simpl; unfold read, write, load, flushWrites;
    by rewrite HF.
Qed.

Lemma perform_all_failed (ops : list operation) (ch : Pipe) (w : World) :
  Failed ch = true ->
  perform_all ops ch w =
  (map (fun _ => Some (system_error io_error)) ops, ch, w).
Proof.
  intros HF. induction ops as [|op ops IH]; simpl; [done|].
  by rewrite perform_failed, IH.
Qed.

End GuardOperations.

Section LoadCutShort.
Context `{Platform}.

Lemma unix_read_whole_chunk (w : World) (chunk : list byte) rest :
  length chunk = BUFSIZ ->
  rd_pending w = RdData chunk :: rest ->
  unix_read BUFSIZ w = (Ok (chunk, true), set_rd w rest (rx w ++ chunk)).
Proof.
  intros Hlen Hp. pose proof BUFSIZ_pos as Hpos.
  unfold unix_read. rewrite Hp. cbn [read_loop].
  replace (negb _) with false
    by (symmetry; apply negb_false_iff, andb_true_iff;
        split; [by apply Nat.ltb_lt|by apply Nat.leb_le]).
  rewrite Nat.min_id, take_ge by lia. rewrite Hlen.
  replace (BUFSIZ =? 0) with false by (symmetry; apply Nat.eqb_neq; lia).
  rewrite Nat.min_id, Nat.sub_diag, take_ge by lia.
  by destruct rest.
Qed.

Lemma unix_read_hard_error (Bytes : nat) (w : World) EC rest :
  0 < Bytes ->
  is_interrupted EC = false -> is_would_block EC = false ->
  rd_pending w = RdErr EC :: rest ->
  unix_read Bytes w = (Throw (system_error EC), set_rd w rest (rx w)).
Proof.
  intros Hpos Hi Hw Hp. unfold unix_read. rewrite Hp. cbn [read_loop].
  replace (negb _) with false
    by (symmetry; apply negb_false_iff, andb_true_iff;
        split; [by apply Nat.ltb_lt|by apply Nat.leb_le]).
  by rewrite Hi, Hw.
Qed.

(** A [load] that gets one whole chunk and then meets a hard error: the
    chunk is in the buffer, the exception of the handle goes to the caller,
    the overflow check is not reached and the channel is not failed. *)
Lemma load_cut_short (ch : Pipe) (w : World) (ring chunk : list byte)
    EC rest :
  Failed ch = false -> OpenedAs ch = ModeRead -> Read ch = Some ring ->
  length chunk = BUFSIZ ->
  is_interrupted EC = false -> is_would_block EC = false ->
  rd_pending w = RdData chunk :: RdErr EC :: rest ->
  load (2 * BUFSIZ) ch w =
  (Throw (system_error EC), setRead ch (ring ++ chunk),
   set_rd w rest (rx w ++ chunk)).
Proof.
  intros HF HM HR Hlen Hi Hw Hp. pose proof BUFSIZ_pos as Hpos.
  unfold load, optimalReadSize. rewrite HF, HR. cbn [present negb].
  destruct (2 * BUFSIZ) as [|[|fuel]] eqn:Hfuel; [lia..|].
  cbn [load_chunks].
  replace (true && (0 <? S (S fuel))) with true by done.
  unfold readImpl at 1. rewrite HF, HM. cbn [Mode_eqb negb].
  rewrite (unix_read_whole_chunk _ _ _ Hlen Hp). cbn [negb].
  replace (isEmpty chunk) with false
    by (symmetry; apply isEmpty_false; destruct chunk; simpl in *; [lia|done]).
  rewrite Hlen, Nat.ltb_irrefl, <- Hlen, firstn_all, Hlen.
  replace (true && (0 <? S (S fuel) - BUFSIZ `min` S (S fuel))) with true
    by (symmetry; apply andb_true_iff; split; [done|apply Nat.ltb_lt; lia]).
  unfold readImpl, putBackRead, putBack. rewrite HR. simpl.
  rewrite HF, HM. simpl.
  rewrite (unix_read_hard_error BUFSIZ
             (set_rd w (RdErr EC :: rest) (rx w ++ chunk)) EC rest
             Hpos Hi Hw eq_refl).
  done.
Qed.

(** A [load] that gets one whole chunk and then finds that the descriptor
    would block: the loop ends and the overflow check is reached. *)
Lemma load_reaches_check (ch : Pipe) (w : World) (ring chunk : list byte)
    EC rest :
  Failed ch = false -> OpenedAs ch = ModeRead -> Read ch = Some ring ->
  length chunk = BUFSIZ ->
  is_would_block EC = true ->
  rd_pending w = RdData chunk :: RdErr EC :: rest ->
  overflown (Some (ring ++ chunk)) = true ->
  (load (2 * BUFSIZ) ch w).1.1 =
  Throw (OverflowError (N.of_nat (length (ring ++ chunk))) true false).
Proof.
  intros HF HM HR Hlen Hw Hp Hover. pose proof BUFSIZ_pos as Hpos.
  unfold load, optimalReadSize. rewrite HF, HR. cbn [present negb].
  destruct (2 * BUFSIZ) as [|[|fuel]] eqn:Hfuel; [lia..|].
  cbn [load_chunks].
  replace (true && (0 <? S (S fuel))) with true by done.
  unfold readImpl at 1. rewrite HF, HM. cbn [Mode_eqb negb].
  rewrite (unix_read_whole_chunk _ _ _ Hlen Hp). cbn [negb].
  replace (isEmpty chunk) with false
    by (symmetry; apply isEmpty_false; destruct chunk; simpl in *; [lia|done]).
  rewrite Hlen, Nat.ltb_irrefl, <- Hlen, firstn_all, Hlen.
  replace (true && (0 <? S (S fuel) - BUFSIZ `min` S (S fuel))) with true
    by (symmetry; apply andb_true_iff; split; [done|apply Nat.ltb_lt; lia]).
  unfold readImpl, putBackRead, putBack. rewrite HR. simpl.
  rewrite HF, HM. simpl.
  rewrite (unix_read_would_block BUFSIZ
             (set_rd w (RdErr EC :: rest) (rx w ++ chunk)) [] EC rest
             Hw (Forall_nil_2 _) Hpos eq_refl).
  cbn [negb rd_bytes isEmpty]. cbn [Read setRead].
  rewrite Hover. by unfold throwOverflowError, readInBuffer.
Qed.

End LoadCutShort.

Section AtTheLimit.
Context `{Platform}.

(** One byte written behind a buffer that holds exactly [BufferSizeMax]
    bytes, on a descriptor that takes nothing. *)
Lemma write_past_limit (ch : Pipe) (w : World) (ring : list byte) (b : byte) :
  Failed ch = false -> OpenedAs ch = ModeWrite -> Write ch = Some ring ->
  N.of_nat (length ring) = BufferSizeMax -> wr_pending w = [] ->
  write [b] ch w =
  (Throw (OverflowError (BufferSizeMax + 1) false true),
   setFailed (setWrite ch (ring ++ [b])),
   log_write (set_wr w [] (tx w)) (BUFSIZ `min` length ring) 0).
Proof.
  intros HF HM HW Hlen Hp.
  assert (ring <> []) as Hne
    by (intros Heq; rewrite Heq in Hlen; discriminate Hlen).
  pose proof (flushWrites_stuck ch w ring HF HM HW Hne Hp) as Hflush.
  assert (0 < length ring) as Hpos by (destruct ring; simpl; [done|lia]).
  rewrite (write_after_partial_flush [b] ch w ring _ _ _ HW Hflush Hpos).
  rewrite (checkWriteOverflow_Some 0 (setWrite ch (drop 0 ring ++ [b])) _
             (drop 0 ring ++ [b]) eq_refl).
  unfold size. rewrite drop_0, length_app, Nat2N.inj_add, Hlen. simpl length.
  replace (BufferSizeMax <? BufferSizeMax + N.of_nat 1)%N with true
    by (symmetry; apply N.ltb_lt; lia).
  done.
Qed.

Lemma read_from_buffer (ch : Pipe) (w : World) (b : byte) (ring : list byte) :
  Failed ch = false -> Read ch = Some (b :: ring) ->
  read 1 ch w = (Ok [b], setRead ch ring, w).
Proof.
  intros HF HR. unfold read, readInBuffer, takeFront. rewrite HF, HR.
  simpl. by rewrite drop_0.
Qed.

Lemma overflown_at_limit (ring : list byte) :
  N.of_nat (length ring) = BufferSizeMax -> overflown (Some ring) = false.
Proof. intros Hlen. unfold overflown, size. rewrite Hlen. apply N.ltb_irrefl. Qed.

Lemma overflown_past_limit (ring more : list byte) :
  N.of_nat (length ring) = BufferSizeMax -> more <> [] ->
  overflown (Some (ring ++ more)) = true.
Proof.
  intros Hlen Hne. unfold overflown, size. apply N.ltb_lt.
  rewrite length_app. destruct more; [done|]. simpl. lia.
Qed.

End AtTheLimit.

(** C2.  [load] and the overflow check.  A read buffer holds exactly 2 GiB and
    [load] is asked for two chunks; the kernel hands over one whole chunk,
    which [load] appends to the buffer inside its loop.  When the descriptor
    then has nothing more (EAGAIN), the loop ends and the check after it
    throws [OverflowError].  When the next [::read] fails instead (EIO), the
    exception of the handle leaves [load] from inside the loop: the check is
    not reached, the buffer stays past 2 GiB, the caller gets the
    [std::system_error], the channel is not failed, and the [read] that
    follows serves a byte from the buffer.  [read], [write] and [flushWrites]
    have no such path: whenever one of them leaves a buffer of a channel that
    was within 2 GiB past 2 GiB, it has thrown [OverflowError].  On a failed
    channel all four throw the I/O error and change neither the channel nor
    the world: no byte is moved. *)
Theorem load_misses_overflow_check :
  let ring := repeat x00 (N.to_nat BufferSizeMax) in
  let chunk := repeat x01 (@BUFSIZ musl) in
  let ch := mkPipe ModeRead false (Some ring) None in
  let soft :=
    mkWorld [RdData chunk; RdErr resource_unavailable_try_again] [] [] [] [] in
  let hard := mkWorld [RdData chunk; RdErr io_error] [] [] [] [] in
  (within_bound ch /\
   (@load musl (2 * @BUFSIZ musl) ch soft).1.1 =
     Throw (OverflowError (BufferSizeMax + 1024) true false) /\
   exists ch' w',
     @load musl (2 * @BUFSIZ musl) ch hard =
       (Throw (system_error io_error), ch', w') /\
     Read ch' = Some (ring ++ chunk) /\
     overflown (Read ch') = true /\
     Failed ch' = false /\
     (@read musl 1 ch' w').1.1 = Ok [x00]) /\
  (forall (P : Platform) (op : operation) (ch0 : Pipe) (w0 : World)
          (o : option exn) (ch1 : Pipe) (w1 : World),
     (forall Bytes, op <> DoLoad Bytes) ->
     within_bound ch0 ->
     perform op ch0 w0 = (o, ch1, w1) ->
     ~ within_bound ch1 ->
     is_overflow o = true) /\
  (forall (P : Platform) (op : operation) (ch0 : Pipe) (w0 : World),
     Failed ch0 = true ->
     perform op ch0 w0 = (Some (system_error io_error), ch0, w0)).
Proof.
  intros ring chunk ch soft hard. split; [|split].
  - assert (N.of_nat (length ring) = BufferSizeMax) as Hlen
      by (subst ring; by rewrite repeat_length, N2Nat.id).
    assert (exists ring0, ring = x00 :: ring0) as [ring0 Hring].
    { subst ring. destruct (N.to_nat BufferSizeMax) as [|n] eqn:Hn.
      - apply (f_equal N.of_nat) in Hn. rewrite N2Nat.id in Hn.
        discriminate Hn.
      - simpl. eauto. }
    clearbody ring.
    assert (length chunk = @BUFSIZ musl) as Hchunk
      by (subst chunk; apply repeat_length).
    assert (chunk <> []) as Hne
      by (intros Heq; rewrite Heq in Hchunk; discriminate Hchunk).
    clearbody chunk.
    pose proof (overflown_past_limit ring chunk Hlen Hne) as Hover.
    split; [split; [by apply overflown_at_limit|reflexivity]|]. split.
    + rewrite (@load_reaches_check musl ch soft ring chunk
                 resource_unavailable_try_again []
                 eq_refl eq_refl eq_refl Hchunk eq_refl eq_refl Hover).
      rewrite length_app, Nat2N.inj_add, Hlen, Hchunk. done.
    + pose proof (@load_cut_short musl ch hard ring chunk io_error []
                    eq_refl eq_refl eq_refl Hchunk eq_refl eq_refl eq_refl)
        as Hload.
      exists (setRead ch (ring ++ chunk)), (set_rd hard [] (rx hard ++ chunk)).
      split; [exact Hload|]. split; [reflexivity|]. split; [exact Hover|].
      split; [reflexivity|].
      rewrite (@read_from_buffer musl (setRead ch (ring ++ chunk)) _ x00
                 (ring0 ++ chunk)); [done..|by rewrite Hring].
  - intros P op ch0 w0 o ch1 w1 Hop Hin Hrun Hout.
    pose proof (@perform_guard P op ch0 w0 o ch1 w1 Hin Hrun) as Hpost.
    destruct o as [[EC|Size rd wr]|]; simpl in Hpost.
    + destruct Hpost as [Hin1|[Bytes ->]]; [done|]. by destruct (Hop Bytes).
    + done.
    + done.
  - intros P. apply perform_failed.
Qed.

(** A write buffer of exactly 2 GiB on a descriptor that takes nothing: the
    write of one more byte leaves the buffer past 2 GiB and has thrown
    [OverflowError].  A channel that a hang-up has failed: the read throws
    the I/O error and leaves the buffered byte where it is. *)
Lemma load_misses_overflow_check_witness :
  let ring := repeat x00 (N.to_nat BufferSizeMax) in
  let ch := mkPipe ModeWrite false None (Some ring) in
  let over := Some (OverflowError (BufferSizeMax + 1) false true) in
  let hung := mkPipe ModeRead true (Some [x01]) None in
  (within_bound ch /\
   exists ch' w',
     @perform musl (DoWrite [x00]) ch quiet = (over, ch', w') /\
     ~ within_bound ch' /\
     is_overflow over = true) /\
  Failed hung = true /\
  @perform musl (DoRead 1) hung quiet =
    (Some (system_error io_error), hung, quiet).
Proof.
  intros ring ch over hung.
  destruct load_misses_overflow_check as (_ & Hguard & Hfailed).
  split; [|split; [reflexivity|]].
  2: exact (Hfailed musl (DoRead 1) hung quiet eq_refl).
  assert (N.of_nat (length ring) = BufferSizeMax) as Hlen
    by (subst ring; by rewrite repeat_length, N2Nat.id).
  clearbody ring.
  assert (within_bound ch) as Hin
    by (split; [reflexivity|by apply overflown_at_limit]).
  split; [exact Hin|].
  pose proof (@write_past_limit musl ch quiet ring x00 eq_refl eq_refl eq_refl
                Hlen eq_refl) as Hwrite.
  set (ch' := setFailed (setWrite ch (ring ++ [x00]))) in *.
  set (w' := log_write (set_wr quiet [] (tx quiet))
               (@BUFSIZ musl `min` length ring) 0) in *.
  assert (@perform musl (DoWrite [x00]) ch quiet = (over, ch', w')) as Hop
    by (unfold perform; by rewrite Hwrite).
  assert (~ within_bound ch') as Hout.
  { intros [_ HW].
    assert (overflown (Some (ring ++ [x00])) = true) as Hover
      by (by apply overflown_past_limit).
    subst ch'. cbn [Write setFailed setWrite] in HW. congruence. }
  exists ch', w'. split; [exact Hop|]. split; [exact Hout|].
  refine (Hguard musl (DoWrite [x00]) ch quiet over ch' w' _ Hin Hop Hout).
  intros Bytes. discriminate.
Defined.

(** ** Framing *)





(** ** Connecting to the server *)

Section ConnectFacts.
Context {Client : Type}.

Lemma Client_create_fails (k : nat) (w : client.World Client) :
  Forall (fun C => C = None) (take (S k) (client.creates w)) ->
  client.Client_create w =
  (None, client.emit client.ClientCreate
           (client.mkWorld (drop 1 (client.creates w)) (client.trace w))) /\
  Forall (fun C : option Client => C = None)
    (take k (drop 1 (client.creates w))).
Proof.
  intros Hall. unfold client.Client_create.
  destruct w as [[|C rest] tr]; simpl in *; [by rewrite take_nil|].
  inversion Hall as [|? ? -> Hrest]; subst. by rewrite drop_0.
Qed.

(** The loop of [connect] when every attempt fails: [k] iterations bring the
    counter to 5. *)
Lemma connect_loop_fails (k : nat) :
  forall (fuel : nat) (HandshakeCounter : N) (w : client.World Client),
    Forall (fun C => C = None) (take k (client.creates w)) ->
    1 <= k <= fuel ->
    (HandshakeCounter + N.of_nat k = 5)%N ->
    client.connect_loop fuel None HandshakeCounter w =
    Some (None,
          client.mkWorld (drop k (client.creates w))
            (client.trace w ++
             concat (replicate k [client.ClientCreate; client.SleepFor 1]) ++
             [client.Cerr "Connection failed after enough retries."])).
Proof.
  induction k as [|k IH]; intros fuel HC w Hall Hk HHC; [lia|].
  destruct fuel as [|fuel]; [lia|]. cbn [client.connect_loop].
  destruct (Client_create_fails k w Hall) as [-> Hall1].
  assert (client.incr_ushort HC = HC + 1)%N as ->
    by (unfold client.incr_ushort; apply N.mod_small; lia).
  destruct (N.eqb_spec (HC + 1) 5) as [H5|H5].
  - assert (k = 0) as -> by lia. unfold client.emit. cbn.
    by rewrite <- !app_assoc.
  - rewrite IH; [|done|lia|lia]. unfold client.emit. cbn.
    rewrite drop_drop, <- !app_assoc. done.
Qed.

End ConnectFacts.

(** C7: when [connect] is called with [Block] and every [Client::create]
    that it makes fails, the loop ends, for every bound of at least four
    iterations, after five calls of [Client::create] in all, the first
    before the loop and four in it, each of these four followed by a sleep of
    one second; then the message goes to [std::cerr] and [connect] returns no
    client. *)
Theorem connect_gives_up {Client : Type} (fuel : nat)
    (w : client.World Client) :
  4 <= fuel ->
  Forall (fun C => C = None) (take 5 (client.creates w)) ->
  client.connect fuel true w =
  Some (None,
        client.mkWorld (drop 5 (client.creates w))
          (client.trace w ++
           [client.ClientCreate;
            client.ClientCreate; client.SleepFor 1;
            client.ClientCreate; client.SleepFor 1;
            client.ClientCreate; client.SleepFor 1;
            client.ClientCreate; client.SleepFor 1;
            client.Cerr "Connection failed after enough retries."])).
Proof.
  intros Hfuel Hall. unfold client.connect.
  destruct (Client_create_fails 4 w Hall) as [-> Hall1]. cbn [negb].
  rewrite (connect_loop_fails 4); [|done|lia|done].
  unfold client.emit. cbn. rewrite drop_drop, <- !app_assoc. done.
Qed.

(** No server answers, and one would only at a sixth attempt. *)
Lemma connect_gives_up_witness :
  let w := client.mkWorld [None; None; None; None; None; Some tt] [] in
  4 <= 4 /\
  Forall (fun C => C = None) (take 5 (client.creates w)) /\
  client.connect 4 true w =
  Some (None,
        client.mkWorld [Some tt]
          [client.ClientCreate;
           client.ClientCreate; client.SleepFor 1;
           client.ClientCreate; client.SleepFor 1;
           client.ClientCreate; client.SleepFor 1;
           client.ClientCreate; client.SleepFor 1;
           client.Cerr "Connection failed after enough retries."]).
Proof.
  intros w.
  assert (Forall (fun C : option unit => C = None) (take 5 (client.creates w)))
    as Hall by (repeat constructor).
  split; [lia|]. split; [exact Hall|].
  exact (connect_gives_up 4 w (le_n 4) Hall).
Defined.

(** ** The command line *)

Section CommandLine.
Context `{frontend.Collaborators}.
Variable Prog : string.

Import frontend.

(** Case analysis on the option character, as the [switch] does it. *)
Ltac switch_on Opt :=
  repeat match goal with
         | |- context [ascii_eqb Opt ?c] =>
             destruct (Ascii.eqb_spec Opt c);
             unfold ascii_eqb; [subst Opt|]
         | |- context [Ascii.eqb Opt ?c] =>
             destruct (Ascii.eqb_spec Opt c); [subst Opt|]
         end.

(** The options of the server follow [server_step], whatever else the
    state holds. *)
Lemma handle_option_server (r : getopt_result) (st : State) :
  ServerOpts (handle_option Prog r st) = server_step r (ServerOpts st).
Proof.
  destruct r as [i|Opt optarg]; unfold handle_option, server_step.
  - destruct (String.eqb _ "server"); [done|].
    by destruct (String.eqb _ "statistics").
  - unfold ascii_eqb.
    destruct (Ascii.eqb_spec Opt "N") as [->|HN]; [done|].
    destruct (Ascii.eqb_spec Opt "k") as [->|Hk]; [done|].
    repeat match goal with
           | |- context [Ascii.eqb Opt ?c] =>
               destruct (Ascii.eqb_spec Opt c); [subst Opt|]
           end; try done;
      repeat match goal with
             | |- context [if ?b then _ else _] => destruct b
             | |- context [match ?o with Some _ => _ | None => _ end] =>
                 destruct o
             end; done.
Qed.

Lemma parse_options_server (opts : list getopt_result) (st : State) :
  ServerOpts (fold_left (fun st r => handle_option Prog r st) opts st) =
  fold_left (fun o r => server_step r o) opts (ServerOpts st).
Proof.
  revert st. induction opts as [|r opts IH]; intros st; simpl; [done|].
  by rewrite IH, handle_option_server.
Qed.

(** Nothing sets [Background] or [ExitOnLastSessionTerminate] again. *)
Lemma server_step_off (r : getopt_result) (o : server.Options) :
  (server.Background o = false ->
   server.Background (server_step r o) = false) /\
  (server.ExitOnLastSessionTerminate o = false ->
   server.ExitOnLastSessionTerminate (server_step r o) = false).
Proof.
  destruct r as [i|Opt optarg]; unfold server_step.
  - by destruct (String.eqb _ _).
  - destruct (ascii_eqb Opt "N"); [done|]. by destruct (ascii_eqb Opt "k").
Qed.

Lemma server_steps_off (opts : list getopt_result) (o : server.Options) :
  server.Background o = false ->
  server.ExitOnLastSessionTerminate o = false ->
  let o' := fold_left (fun o r => server_step r o) opts o in
  server.Background o' = false /\ server.ExitOnLastSessionTerminate o' = false.
Proof.
  revert o. induction opts as [|r opts IH]; intros o HB HE; simpl; [done|].
  apply IH; by apply server_step_off.
Qed.

(** [-k] changes nothing once keepalive is set, and whether it is set does
    not matter to what comes after a [-N]. *)
Lemma server_step_keepalive (r : getopt_result) (o : server.Options) :
  server_step r (setExitOnLastSessionTerminate false o) =
  setExitOnLastSessionTerminate false (server_step r o).
Proof.
  destruct r as [i|Opt optarg]; unfold server_step.
  - by destruct (String.eqb _ _).
  - destruct (ascii_eqb Opt "N"); [done|]. by destruct (ascii_eqb Opt "k").
Qed.

Lemma server_steps_keepalive (opts : list getopt_result) (o : server.Options) :
  fold_left (fun o r => server_step r o) opts
    (setExitOnLastSessionTerminate false o) =
  setExitOnLastSessionTerminate false
    (fold_left (fun o r => server_step r o) opts o).
Proof.
  revert o. induction opts as [|r opts IH]; intros o; simpl; [done|].
  by rewrite server_step_keepalive, IH.
Qed.

Lemma setExitOnLastSessionTerminate_off (o : server.Options) :
  server.ExitOnLastSessionTerminate o = false ->
  setExitOnLastSessionTerminate false o = o.
Proof. destruct o; simpl; by intros ->. Qed.

(** The options of the server after a command line that has [-N]. *)
Lemma parse_options_no_daemon (opts : list getopt_result) (optarg : string) :
  GetoptChar "N" optarg ∈ opts ->
  let o := ServerOpts (parse_options Prog opts) in
  server.Background o = false /\ server.ExitOnLastSessionTerminate o = false.
Proof.
  intros (l1 & l2 & ->)%list_elem_of_split. unfold parse_options.
  rewrite parse_options_server, fold_left_app. simpl.
  by apply server_steps_off.
Qed.

End CommandLine.

(** C8: for every command line in which [getopt_long] finds [-N], the
    options of the server after the option loop have [Background] and
    [ExitOnLastSessionTerminate] false; and they are the options that the
    same command line gives with a [-k] added at any place. *)
Theorem no_daemon_implies_keepalive `{frontend.Collaborators} (Prog : string)
    (opts : list frontend.getopt_result) (optarg : string) :
  frontend.GetoptChar "N" optarg ∈ opts ->
  let o := frontend.ServerOpts (frontend.parse_options Prog opts) in
  server.Background o = false /\
  server.ExitOnLastSessionTerminate o = false /\
  forall l1 l2 optarg',
    opts = l1 ++ l2 ->
    frontend.ServerOpts
      (frontend.parse_options Prog
         (l1 ++ frontend.GetoptChar "k" optarg' :: l2)) = o.
Proof.
  intros HN o.
  destruct (parse_options_no_daemon Prog opts optarg HN) as [HB HE].
  split; [done|]. split; [done|]. intros l1 l2 optarg' ->.
  subst o. unfold frontend.parse_options in *.
  rewrite !parse_options_server, !fold_left_app in *. simpl.
  change (frontend.server_step (frontend.GetoptChar "k" optarg') ?o)
    with (frontend.setExitOnLastSessionTerminate false o).
  rewrite server_steps_keepalive.
  by apply setExitOnLastSessionTerminate_off.
Qed.

(** [monomux --server -N]: the server stays in the foreground and keeps
    running, as it does for [monomux --server -N -k]. *)
Lemma no_daemon_implies_keepalive_witness :
  let opts := [frontend.GetoptLong 3; frontend.GetoptChar "N" ""] in
  frontend.GetoptChar "N" "" ∈ opts /\
  frontend.ServerOpts (@frontend.parse_options lonely "monomux" opts) =
    server.mkOptions true false false None /\
  frontend.ServerOpts
    (@frontend.parse_options lonely "monomux"
       (opts ++ [frontend.GetoptChar "k" ""])) =
    frontend.ServerOpts (@frontend.parse_options lonely "monomux" opts).
Proof.
  intros opts.
  assert (frontend.GetoptChar "N" "" ∈ opts) as HN
    by (apply list_elem_of_In; simpl; auto).
  split; [exact HN|]. split; [reflexivity|].
  exact (proj2 (proj2 (@no_daemon_implies_keepalive lonely "monomux" opts ""
                         HN)) opts [] "" (eq_sym (app_nil_r opts))).
Defined.

Section Detach.
Context `{frontend.Collaborators}.
Variable Prog : string.

Import frontend.

(** The tests of the [switch], one after the other, and the tests inside the
    cases. *)
Ltac through_switch Opt :=
  unfold ascii_eqb;
  repeat match goal with
         | |- context [Ascii.eqb Opt ?c] =>
             destruct (Ascii.eqb_spec Opt c); [subst Opt|]
         end; try done;
  repeat match goal with
         | |- context [if ?b then _ else _] => destruct b
         | |- context [match ?o with Some _ => _ | None => _ end] =>
             destruct o
         end; try done.

(** Only [-h] sets [ShowHelp], only [-V] sets [ShowVersion]. *)
Lemma handle_option_ShowHelp (r : getopt_result) (st : State) :
  (forall optarg, r <> GetoptChar "h" optarg) ->
  ShowHelp (MainOpts (handle_option Prog r st)) = ShowHelp (MainOpts st).
Proof.
  intros Hr. destruct r as [i|Opt optarg]; unfold handle_option.
  - destruct (String.eqb _ "server"); [done|].
    by destruct (String.eqb _ "statistics").
  - destruct (Ascii.eqb_spec Opt "h") as [->|Hh]; [by destruct (Hr optarg)|].
    through_switch Opt.
Qed.

Lemma handle_option_ShowVersion (r : getopt_result) (st : State) :
  (forall optarg, r <> GetoptChar "V" optarg) ->
  ShowVersion (MainOpts (handle_option Prog r st)) = ShowVersion (MainOpts st).
Proof.
  intros Hr. destruct r as [i|Opt optarg]; unfold handle_option.
  - destruct (String.eqb _ "server"); [done|].
    by destruct (String.eqb _ "statistics").
  - destruct (Ascii.eqb_spec Opt "V") as [->|HV]; [by destruct (Hr optarg)|].
    through_switch Opt.
Qed.

(** No option takes a detach request back. *)
Lemma handle_option_detach (r : getopt_result) (st : State) :
  (client.DetachRequestLatest (ClientOpts st) = true ->
   client.DetachRequestLatest (ClientOpts (handle_option Prog r st)) = true) /\
  (client.DetachRequestAll (ClientOpts st) = true ->
   client.DetachRequestAll (ClientOpts (handle_option Prog r st)) = true).
Proof.
  destruct r as [i|Opt optarg]; unfold handle_option.
  - destruct (String.eqb _ "server"); [done|].
    by destruct (String.eqb _ "statistics").
  - through_switch Opt.
Qed.

Lemma parse_keeps (P : State -> Prop) (opts : list getopt_result) :
  (forall r st, r ∈ opts -> P st -> P (handle_option Prog r st)) ->
  forall st, P st ->
    P (fold_left (fun st r => handle_option Prog r st) opts st).
Proof.
  induction opts as [|r opts IH]; intros Hstep st Hst; simpl; [done|].
  apply IH.
  - intros r' st' Hr'. apply Hstep. by right.
  - apply Hstep; [by left|done].
Qed.

Lemma parse_options_ShowHelp (opts : list getopt_result) :
  (forall optarg, GetoptChar "h" optarg ∉ opts) ->
  ShowHelp (MainOpts (parse_options Prog opts)) = false.
Proof.
  intros Hno. unfold parse_options.
  apply (parse_keeps (fun st => ShowHelp (MainOpts st) = false)); [|done].
  intros r st Hr Hst. rewrite handle_option_ShowHelp; [done|].
  intros optarg ->. by apply (Hno optarg).
Qed.

Lemma parse_options_ShowVersion (opts : list getopt_result) :
  (forall optarg, GetoptChar "V" optarg ∉ opts) ->
  ShowVersion (MainOpts (parse_options Prog opts)) = false.
Proof.
  intros Hno. unfold parse_options.
  apply (parse_keeps (fun st => ShowVersion (MainOpts st) = false)); [|done].
  intros r st Hr Hst. rewrite handle_option_ShowVersion; [done|].
  intros optarg ->. by apply (Hno optarg).
Qed.

Lemma parse_options_detach (opts : list getopt_result) (a b : string) :
  GetoptChar "d" a ∈ opts -> GetoptChar "D" b ∈ opts ->
  client.DetachRequestLatest (ClientOpts (parse_options Prog opts)) = true /\
  client.DetachRequestAll (ClientOpts (parse_options Prog opts)) = true.
Proof.
  intros (l1 & l2 & Hd)%list_elem_of_split (m1 & m2 & HD)%list_elem_of_split.
  unfold parse_options. split.
  - rewrite Hd, fold_left_app. simpl.
    apply (parse_keeps
             (fun st => client.DetachRequestLatest (ClientOpts st) = true));
      [|done].
    intros r st _. apply handle_option_detach.
  - rewrite HD, fold_left_app. simpl.
    apply (parse_keeps
             (fun st => client.DetachRequestAll (ClientOpts st) = true));
      [|done].
    intros r st _. apply handle_option_detach.
Qed.

(** The positional arguments take no error back. *)
Lemma positional_errors (args : list string) :
  forall st, HadErrors st = true ->
    HadErrors (positional Prog args st) = true /\
    exists more, cerr (positional Prog args st) = cerr st ++ more.
Proof.
  induction args as [|arg args IH]; intros st Hst; simpl.
  - split; [done|]. exists []. by rewrite app_nil_r.
  - destruct (server.ServerMode (ServerOpts st)).
    + split; [done|]. simpl. eauto.
    + set (st' := withClient _ st).
      destruct (IH st') as [HE [more Hmore]]; [done|]. eauto.
Qed.

End Detach.

(** C9, as the code has it: for every command line in which [getopt_long]
    finds both [-d] and [-D], and neither [-h] nor [-V], [main] writes the
    error of the mutual exclusion to [std::cerr] and returns
    [InvocationError], which is 1; all that it does is write to [std::cerr]:
    the logger, the signal handlers, the server and the client are not
    reached. *)
Theorem detach_flags_exclusive `{frontend.Collaborators} (Prog : string)
    (opts : list frontend.getopt_result) (args : list string)
    (a b : string) :
  frontend.GetoptChar "d" a ∈ opts ->
  frontend.GetoptChar "D" b ∈ opts ->
  (forall optarg, frontend.GetoptChar "h" optarg ∉ opts) ->
  (forall optarg, frontend.GetoptChar "V" optarg ∉ opts) ->
  exists errors : list string,
    frontend.main Prog opts args = (map frontend.Cerr errors, 1%Z) /\
    (Prog ++ ": " ++
     "option '-D/--detach-all' and '-d/--detach' are mutually exclusive!" ++
     String "010" "")%string ∈ errors /\
    frontend.exit_status frontend.InvocationError = 1%Z.
Proof.
  intros Hd HD Hh HV. unfold frontend.main.
  rewrite (parse_options_ShowHelp Prog opts Hh).
  rewrite (parse_options_ShowVersion Prog opts HV).
  destruct (parse_options_detach Prog opts a b Hd HD) as [HL HA].
  set (st := frontend.parse_options Prog opts) in *.
  cbn [frontend.withMain frontend.ClientOpts]. rewrite HL, HA.
  cbn [andb].
  set (st1 := frontend.ArgError Prog _ _).
  set (st2 := if negb _ then _ else st1).
  assert (frontend.HadErrors st2 = true /\ frontend.cerr st2 = frontend.cerr st1)
    as [HE2 Hc2] by (subst st2; by destruct (negb _)).
  destruct (positional_errors Prog args st2 HE2) as [-> [more ->]].
  eexists. split; [reflexivity|]. split; [|done].
  rewrite Hc2. subst st1. simpl.
  apply elem_of_app. left. apply elem_of_app. right. by left.
Qed.

(** [monomux -d -D]. *)
Lemma detach_flags_exclusive_witness :
  let opts := [frontend.GetoptChar "d" ""; frontend.GetoptChar "D" ""] in
  frontend.GetoptChar "d" "" ∈ opts /\
  frontend.GetoptChar "D" "" ∈ opts /\
  @frontend.main lonely "monomux" opts [] =
    ([frontend.Cerr
        ("monomux: option '-D/--detach-all' and '-d/--detach' are " ++
         "mutually exclusive!" ++ String "010" "")%string], 1%Z) /\
  exists errors : list string,
    @frontend.main lonely "monomux" opts [] = (map frontend.Cerr errors, 1%Z).
Proof.
  intros opts.
  assert (frontend.GetoptChar "d" "" ∈ opts) as Hd
    by (apply list_elem_of_In; simpl; auto).
  assert (frontend.GetoptChar "D" "" ∈ opts) as HD
    by (apply list_elem_of_In; simpl; auto).
  assert (forall optarg, frontend.GetoptChar "h" optarg ∉ opts) as Hh
    by (intros optarg Hin%list_elem_of_In; simpl in Hin;
        destruct Hin as [|[|[]]]; discriminate).
  assert (forall optarg, frontend.GetoptChar "V" optarg ∉ opts) as HV
    by (intros optarg Hin%list_elem_of_In; simpl in Hin;
        destruct Hin as [|[|[]]]; discriminate).
  split; [exact Hd|]. split; [exact HD|]. split; [reflexivity|].
  destruct (@detach_flags_exclusive lonely "monomux" opts [] "" "" Hd HD Hh HV)
    as (errors & Hmain & _).
  exists errors. exact Hmain.
Defined.

(** [monomux -d -D -h]: the help is printed and the exit status is 0;
    nothing goes to [std::cerr]. *)
Lemma detach_flags_exclusive_counterexample :
  let opts :=
    [frontend.GetoptChar "d" ""; frontend.GetoptChar "D" "";
     frontend.GetoptChar "h" ""] in
  frontend.GetoptChar "d" "" ∈ opts /\
  frontend.GetoptChar "D" "" ∈ opts /\
  @frontend.main lonely "monomux" opts [] = ([frontend.PrintHelp], 0%Z) /\
  (@frontend.main lonely "monomux" opts []).2 <>
    frontend.exit_status frontend.InvocationError.
Proof.
  intros opts.
  split; [apply list_elem_of_In; simpl; auto|].
  split; [apply list_elem_of_In; simpl; auto|].
  split; [reflexivity|]. discriminate.
Qed.

(** ** The loops end within their bounds *)

Section Bounds.
Context `{Platform}.

Lemma flush_chunks_empty (fuel ChunkSize BytesSent : nat) c ch w :
  writeInBuffer ch = 0 ->
  flush_chunks fuel ChunkSize BytesSent c ch w = (Ok BytesSent, ch, w).
Proof.
  intros Hz. destruct fuel; [done|]. simpl.
  replace (hasBufferedWrite ch) with false; [by rewrite andb_false_r|].
  unfold hasBufferedWrite, writeInBuffer in *.
  destruct (Write ch) as [[|b ring]|]; simpl in *; (done || lia).
Qed.

(** As many iterations as the write buffer has bytes are enough for the loop
    of [flushWrites]: more would give the same. *)
Lemma flush_chunks_fuel (fuel : nat) :
  forall fuel' BytesSent c ch w,
    writeInBuffer ch <= fuel -> writeInBuffer ch <= fuel' ->
    flush_chunks fuel BUFSIZ BytesSent c ch w =
    flush_chunks fuel' BUFSIZ BytesSent c ch w.
Proof.
  induction fuel as [|fuel IH]; intros fuel' BytesSent c ch w Hf Hf'.
  - by rewrite !flush_chunks_empty by lia.
  - destruct fuel' as [|fuel']; [by rewrite !flush_chunks_empty by lia|].
    simpl. destruct (c && hasBufferedWrite ch) eqn:Hc; [|done].
    apply andb_true_iff in Hc as [_ Hbuf].
    unfold hasBufferedWrite, writeInBuffer in *.
    destruct (Write ch) as [ring|] eqn:HW; [|done]. simpl.
    apply negb_true_iff, isEmpty_false in Hbuf. unfold peekFront.
    destruct (writeImpl _ _ _ _) as [[[[n c']|e] ch1] w1] eqn:Hwr; [|done].
    apply writeImpl_spec in Hwr as (-> & -> & Hn & _).
    rewrite length_take in Hn |- *.
    destruct (Nat.ltb_spec n (BUFSIZ `min` length ring)) as [Hshort|Hwhole].
    + by rewrite !flush_chunks_stopped.
    + pose proof BUFSIZ_pos.
      assert (0 < length ring) by (destruct ring; simpl; [done|lia]).
      apply IH; unfold dropFrontWrite, dropFront, writeInBuffer;
        rewrite HW; simpl; rewrite length_drop; lia.
Qed.

Lemma write_chunks_empty (fuel ChunkSize BytesSent : nat) c ch w :
  write_chunks fuel ChunkSize [] BytesSent c ch w =
  (Ok (BytesSent, []), ch, w).
Proof. destruct fuel; [done|]. simpl. by rewrite andb_false_r. Qed.

Lemma write_chunks_stopped (fuel ChunkSize BytesSent : nat) Data ch w :
  write_chunks fuel ChunkSize Data BytesSent false ch w =
  (Ok (BytesSent, Data), ch, w).
Proof. by destruct fuel. Qed.

(** As many iterations as [Data] has bytes are enough for the loop of
    [write]. *)
Lemma write_chunks_fuel (fuel : nat) :
  forall fuel' Data BytesSent c ch w,
    length Data <= fuel -> length Data <= fuel' ->
    write_chunks fuel BUFSIZ Data BytesSent c ch w =
    write_chunks fuel' BUFSIZ Data BytesSent c ch w.
Proof.
  induction fuel as [|fuel IH]; intros fuel' Data BytesSent c ch w Hf Hf'.
  - destruct Data; [|simpl in Hf; lia]. by rewrite !write_chunks_empty.
  - destruct fuel' as [|fuel'].
    { destruct Data; [|simpl in Hf'; lia]. by rewrite !write_chunks_empty. }
    simpl. destruct (c && negb (isEmpty Data)) eqn:Hc; [|done].
    apply andb_true_iff in Hc as [_ Hne].
    apply negb_true_iff, isEmpty_false in Hne.
    destruct (writeImpl _ _ _ _) as [[[[n c']|e] ch1] w1] eqn:Hwr; [|done].
    apply writeImpl_spec in Hwr as (-> & -> & Hn & _).
    rewrite length_take in Hn.
    destruct (Nat.ltb_spec n (BUFSIZ `min` length Data)) as [Hshort|Hwhole].
    + by rewrite !write_chunks_stopped.
    + pose proof BUFSIZ_pos.
      assert (0 < length Data) by (destruct Data; simpl; [done|lia]).
      apply IH; rewrite length_drop; lia.
Qed.

Lemma load_chunks_done (fuel ChunkSize ReadBytes : nat) c ch w :
  load_chunks fuel ChunkSize 0 ReadBytes c ch w = (Ok ReadBytes, ch, w).
Proof. destruct fuel; [done|]. simpl. by rewrite andb_false_r. Qed.

(** [Bytes] iterations are enough for the loop of [load]. *)
Lemma load_chunks_fuel (ChunkSize : nat) (fuel : nat) :
  forall fuel' Bytes ReadBytes c ch w,
    Bytes <= fuel -> Bytes <= fuel' ->
    load_chunks fuel ChunkSize Bytes ReadBytes c ch w =
    load_chunks fuel' ChunkSize Bytes ReadBytes c ch w.
Proof.
  induction fuel as [|fuel IH]; intros fuel' Bytes ReadBytes c ch w Hf Hf'.
  - assert (Bytes = 0) as -> by lia. by rewrite !load_chunks_done.
  - destruct fuel' as [|fuel'].
    { assert (Bytes = 0) as -> by lia. by rewrite !load_chunks_done. }
    simpl. destruct (c && (0 <? Bytes)) eqn:Hc; [|done].
    apply andb_true_iff in Hc as [_ Hpos]. apply Nat.ltb_lt in Hpos.
    destruct (readImpl ChunkSize c ch w) as [[[[Chunk c']|e] ch1] w1]; [|done].
    destruct Chunk as [|b Chunk]; [done|]. simpl isEmpty. cbv iota.
    set (full := b :: Chunk).
    assert (0 < length full) by (subst full; simpl; lia).
    apply IH; lia.
Qed.

End Bounds.

(** ** What the calls of a channel do to the two streams *)

Section Streams.
Context `{Platform}.

(** The loop of [write] sends a front of [Data] and leaves the rest. *)
Lemma write_chunks_spec (fuel : nat) :
  forall (Data : list byte) (BytesSent : nat) (c : bool) (ch : Pipe)
         (w : World) n Data' ch' w',
    write_chunks fuel BUFSIZ Data BytesSent c ch w = (Ok (n, Data'), ch', w') ->
    exists k : nat,
      k <= length Data /\ n = BytesSent + k /\ Data' = drop k Data /\
      tx w' = tx w ++ take k Data /\ ch' = ch /\
      rd_pending w' = rd_pending w /\ rx w' = rx w.
Proof.
  induction fuel as [|fuel IH]; intros Data BytesSent c ch w n Data' ch' w';
    simpl.
  { intros [= <- <- <- <-]. exists 0.
    rewrite drop_0, take_0, app_nil_r, Nat.add_0_r. repeat split; done || lia. }
  destruct (c && negb (isEmpty Data)) eqn:Hc.
  2:{ intros [= <- <- <- <-]. exists 0.
      rewrite drop_0, take_0, app_nil_r, Nat.add_0_r.
      repeat split; done || lia. }
  destruct (writeImpl _ c ch w) as [[[[m c']|e] ch1] w1] eqn:Hwr; [|done].
  apply writeImpl_spec in Hwr
    as (-> & -> & Hm & Htx & _ & Hp & Hrx & _ & _).
  rewrite length_take in Hm. rewrite take_take in Htx.
  replace (m `min` (BUFSIZ `min` length Data)) with m in Htx by lia.
  intros Hrun. apply IH in Hrun
    as (k & Hk & -> & -> & Htx' & -> & Hp' & Hrx').
  rewrite length_drop in Hk. exists (m + k).
  rewrite drop_drop_add, Htx', Htx, <- app_assoc, take_take_drop_app.
  repeat split; try done; try lia; congruence.
Qed.

(** [write]: what has gone to the wire and what is in the buffer. *)
Lemma write_spec (Data : list byte) (ch : Pipe) (w : World)
    (ring : list byte) (n : nat) (ch' : Pipe) (w' : World) :
  Write ch = Some ring ->
  write Data ch w = (Ok n, ch', w') ->
  exists flushed : nat,
    flushed <= length ring /\ n <= length Data /\
    (flushed < length ring -> n = 0) /\
    tx w' = tx w ++ take flushed ring ++ take n Data /\
    ch' = setWrite ch (drop flushed ring ++ drop n Data) /\
    rd_pending w' = rd_pending w /\ rx w' = rx w /\ Failed ch = false.
Proof.
  intros HW. unfold write, optimalWriteSize.
  destruct (Failed ch) eqn:HF; [done|]. rewrite HW. simpl.
  destruct (flushWrites ch w) as [[[sent|e] ch1] w1] eqn:Hfl; [|done].
  apply (flushWrites_spec _ _ ring) in Hfl
    as (calls & _ & _ & _ & Hsent & Htx & -> & Hp & Hrx & _); [|done].
  unfold writeInBuffer. rewrite HW.
  destruct (Nat.ltb_spec sent (length ring)) as [Hpart|Hall]; simpl.
  - rewrite (putBackWrite_Some _ (drop sent ring)) by done.
    rewrite (checkWriteOverflow_Some _ _ _ (drop sent ring ++ Data)) by done.
    destruct (_ <? _)%N; [done|]. intros [= <- <- <-]. exists sent.
    rewrite take_0, drop_0, app_nil_r.
    repeat split; try done; try lia.
  - assert (sent = length ring) as -> by lia.
    rewrite drop_all, firstn_all in *.
    destruct (isEmpty Data) eqn:He.
    + apply isEmpty_true in He as ->. intros [= <- <- <-].
      exists (length ring). rewrite drop_all, firstn_all, take_nil, app_nil_r.
      repeat split; try done; lia.
    + destruct (write_chunks _ _ _ _ _ _ _) as [[[[m Rest]|e] ch2] w2] eqn:Hrun;
        [|done].
      apply write_chunks_spec in Hrun
        as (k & Hk & -> & -> & Htx' & -> & Hp' & Hrx').
      simpl in *.
      set (ch3 := if negb (isEmpty (drop k Data)) then _ else _).
      assert (ch3 = setWrite ch (drop k Data)) as ->.
      { subst ch3. destruct (isEmpty (drop k Data)) eqn:He'; simpl.
        - apply isEmpty_true in He'. rewrite He'. destruct ch; done.
        - rewrite (putBackWrite_Some _ []) by done. destruct ch; done. }
      rewrite (checkWriteOverflow_Some _ _ _ (drop k Data)) by done.
      destruct (_ <? _)%N; [done|]. intros [= <- <- <-].
      exists (length ring). rewrite drop_all, firstn_all.
      rewrite Htx', Htx, <- app_assoc.
      repeat split; try done; try lia; congruence.
Qed.

(** The loop of [load] stores what it receives, whole chunks of it, and
    receives less than a chunk more than it was asked for. *)
Lemma load_chunks_spec (fuel : nat) :
  forall Bytes ReadBytes c ch w ring n ch' w',
    Read ch = Some ring ->
    load_chunks fuel BUFSIZ Bytes ReadBytes c ch w = (Ok n, ch', w') ->
    exists got : list byte,
      rx w' = rx w ++ got /\ n = ReadBytes + length got /\
      Read ch' = Some (ring ++ got) /\
      (got = [] \/ 0 < Bytes /\ length got < Bytes + BUFSIZ) /\
      Write ch' = Write ch /\ OpenedAs ch' = OpenedAs ch /\
      wr_pending w' = wr_pending w /\ tx w' = tx w /\ wr_log w' = wr_log w.
Proof.
  induction fuel as [|fuel IH];
    intros Bytes ReadBytes c ch w ring n ch' w' HR; simpl.
  { intros [= <- <- <-]. exists []. rewrite !app_nil_r, Nat.add_0_r.
    repeat split; try done. by left. }
  destruct (c && (0 <? Bytes)) eqn:Hc.
  2:{ intros [= <- <- <-]. exists []. rewrite !app_nil_r, Nat.add_0_r.
      repeat split; try done. by left. }
  apply andb_prop in Hc as [-> Hpos%Nat.ltb_lt].
  destruct (readImpl BUFSIZ true ch w) as [[[[Chunk c']|e] ch1] w1] eqn:Hrd;
    [|done].
  apply readImpl_spec in Hrd
    as (Hrx & Hlen & HR1 & HW1 & HM1 & Hp & Htx & Hlog & Hsame).
  destruct (isEmpty Chunk) eqn:He.
  { apply isEmpty_true in He as ->. intros [= <- <- <-]. exists [].
    rewrite !app_nil_r, Nat.add_0_r in *. rewrite HR1.
    repeat split; try done. by left. }
  apply isEmpty_false in He. destruct (Hsame He) as [-> ->].
  rewrite firstn_all. unfold putBackRead, putBack. rewrite HR.
  assert (0 < length Chunk) as Hne by (destruct Chunk; [done|simpl; lia]).
  intros Hrun.
  apply (IH _ _ _ _ _ (ring ++ Chunk)) in Hrun
    as (got & Hrx' & -> & HR' & Hbound & HW' & HM' & Hp' & Htx' & Hlog');
    [|done].
  exists (Chunk ++ got). rewrite length_app.
  rewrite Hrx', Hrx, HR', <- !app_assoc.
  repeat split; try done; try lia; try congruence.
  right. split; [done|].
  destruct Hbound as [->|[Hmore Hb]]; [simpl; lia|].
  destruct (Nat.ltb_spec (length Chunk) BUFSIZ) as [Hshort|Hfull]; lia.
Qed.

Lemma load_spec (Bytes : nat) (ch : Pipe) (w : World) (ring : list byte)
    (n : nat) (ch' : Pipe) (w' : World) :
  Read ch = Some ring ->
  load Bytes ch w = (Ok n, ch', w') ->
  exists got : list byte,
    rx w' = rx w ++ got /\ n = length got /\
    Read ch' = Some (ring ++ got) /\
    (got = [] \/ 0 < Bytes /\ length got < Bytes + BUFSIZ) /\
    Write ch' = Write ch /\ OpenedAs ch' = OpenedAs ch /\
    wr_pending w' = wr_pending w /\ tx w' = tx w /\ wr_log w' = wr_log w.
Proof.
  intros HR. unfold load, optimalReadSize.
  destruct (Failed ch); [done|]. rewrite HR. simpl.
  destruct (load_chunks _ _ _ _ _ _ _) as [[[m|e] ch1] w1] eqn:Hrun; [|done].
  apply (load_chunks_spec _ _ _ _ _ _ ring) in Hrun
    as (got & Hrx & -> & HR' & Hbound & Hrest); [|done].
  destruct (overflown (Read ch1)); [done|]. intros [= <- <- <-].
  exists got. done.
Qed.

(** A call that returns has found the buffer that it works on. *)
Lemma write_Ok_buffer (Data : list byte) (ch : Pipe) (w : World) n ch' w' :
  write Data ch w = (Ok n, ch', w') -> is_Some (Write ch).
Proof.
  unfold write. destruct (Failed ch); [done|].
  destruct (Write ch); [eauto|done].
Qed.

Lemma flushWrites_Ok_buffer (ch : Pipe) (w : World) n ch' w' :
  flushWrites ch w = (Ok n, ch', w') -> is_Some (Write ch).
Proof.
  unfold flushWrites. destruct (Failed ch); [done|].
  destruct (Write ch); [eauto|done].
Qed.

Lemma read_Ok_buffer (Bytes : nat) (ch : Pipe) (w : World) Data ch' w' :
  read Bytes ch w = (Ok Data, ch', w') -> is_Some (Read ch).
Proof.
  unfold read. destruct (Failed ch); [done|].
  destruct (Read ch); [eauto|done].
Qed.

Lemma load_Ok_buffer (Bytes : nat) (ch : Pipe) (w : World) n ch' w' :
  load Bytes ch w = (Ok n, ch', w') -> is_Some (Read ch).
Proof.
  unfold load. destruct (Failed ch); [done|].
  destruct (Read ch); [eauto|done].
Qed.

(** One call and the stream of the bytes received: what the call returns to
    the reader and what the buffer holds after it are what the buffer held
    and what has been received, in that order. *)
Lemma call_read_side (op : operation) (ch : Pipe) (w : World)
    (ring : list byte) x ch' w' :
  Read ch = Some ring ->
  call op ch w = (Ok x, ch', w') ->
  exists got ring' : list byte,
    rx w' = rx w ++ got /\ Read ch' = Some ring' /\
    delivered [x] ++ ring' = ring ++ got.
Proof.
  intros HR. destruct op as [Bytes|Data|Bytes|]; simpl.
  - destruct (read Bytes ch w) as [[[D|e] ch1] w1] eqn:Hop; [|done].
    intros [= <- <- <-].
    apply (read_spec _ _ _ ring) in Hop as (got & Hrx & -> & HR' & _); [|done].
    exists got, (drop Bytes (ring ++ got)). simpl.
    by rewrite app_nil_r, take_drop.
  - destruct (write Data ch w) as [[[n|e] ch1] w1] eqn:Hop; [|done].
    intros [= <- <- <-].
    destruct (write_Ok_buffer _ _ _ _ _ _ Hop) as [wring HW].
    destruct (write_spec _ _ _ wring _ _ _ HW Hop)
      as (k & _ & _ & _ & _ & Hch & _ & Hrx & _).
    exists [], ring. rewrite Hch. simpl. by rewrite Hrx, !app_nil_r.
  - destruct (load Bytes ch w) as [[[n|e] ch1] w1] eqn:Hop; [|done].
    intros [= <- <- <-].
    apply (load_spec _ _ _ ring) in Hop as (got & Hrx & _ & HR' & _); [|done].
    exists got, (ring ++ got). done.
  - destruct (flushWrites ch w) as [[[n|e] ch1] w1] eqn:Hop; [|done].
    intros [= <- <- <-].
    destruct (flushWrites_Ok_buffer _ _ _ _ _ Hop) as [wring HW].
    destruct (flushWrites_spec _ _ wring _ _ _ HW Hop)
      as (calls & _ & _ & _ & _ & _ & Hch & _ & Hrx & _).
    exists [], ring. rewrite Hch. simpl. by rewrite Hrx, !app_nil_r.
Qed.

(** One call and the stream of the bytes to send. *)
Lemma call_write_side (op : operation) (ch : Pipe) (w : World)
    (ring : list byte) x ch' w' :
  Write ch = Some ring ->
  call op ch w = (Ok x, ch', w') ->
  exists ring' : list byte,
    Write ch' = Some ring' /\
    tx w' ++ ring' = tx w ++ ring ++ submitted [op].
Proof.
  intros HW. destruct op as [Bytes|Data|Bytes|]; simpl.
  - destruct (read Bytes ch w) as [[[D|e] ch1] w1] eqn:Hop; [|done].
    intros [= <- <- <-].
    destruct (read_Ok_buffer _ _ _ _ _ _ Hop) as [rring HR].
    destruct (read_spec _ _ _ rring _ _ _ HR Hop)
      as (got & _ & _ & _ & _ & _ & HW' & _ & _ & Htx & _).
    exists ring. rewrite HW', Htx, app_nil_r. done.
  - destruct (write Data ch w) as [[[n|e] ch1] w1] eqn:Hop; [|done].
    intros [= <- <- <-].
    apply (write_spec _ _ _ ring) in Hop
      as (k & Hk & Hn & Hzero & Htx & -> & _); [|done].
    exists (drop k ring ++ drop n Data). split; [done|].
    rewrite Htx, app_nil_r, <- !app_assoc. f_equal.
    destruct (Nat.lt_ge_cases k (length ring)) as [Hlt|Hge].
    + rewrite (Hzero Hlt), take_0, drop_0. simpl.
      by rewrite app_assoc, take_drop.
    + rewrite take_ge, drop_ge by lia. simpl. by rewrite take_drop.
  - destruct (load Bytes ch w) as [[[n|e] ch1] w1] eqn:Hop; [|done].
    intros [= <- <- <-].
    destruct (load_Ok_buffer _ _ _ _ _ _ Hop) as [rring HR].
    destruct (load_spec _ _ _ rring _ _ _ HR Hop)
      as (got & _ & _ & _ & _ & HW' & _ & _ & Htx & _).
    exists ring. rewrite HW', Htx, app_nil_r. done.
  - destruct (flushWrites ch w) as [[[n|e] ch1] w1] eqn:Hop; [|done].
    intros [= <- <- <-].
    apply (flushWrites_spec _ _ ring) in Hop
      as (calls & _ & _ & _ & Hn & Htx & -> & _); [|done].
    exists (drop n ring). split; [done|].
    by rewrite Htx, app_nil_r, <- app_assoc, take_drop.
Qed.

Lemma delivered_cons (x : returned) (xs : list returned) :
  delivered (x :: xs) = delivered [x] ++ delivered xs.
Proof. destruct x; simpl; by rewrite ?app_nil_r. Qed.

Lemma submitted_cons (op : operation) (ops : list operation) :
  submitted (op :: ops) = submitted [op] ++ submitted ops.
Proof. destruct op; simpl; by rewrite ?app_nil_r. Qed.

End Streams.

(** ** The round trip of a frame *)

(** *** A stream that is arriving *)

Section Arriving.
Context `{Platform}.






End Arriving.

Section Receiving.
Context `{Platform}.



End Receiving.

(** *** The frame *)

Section FramingFacts.
Context `{Platform} `{Framer}.





End FramingFacts.



(** X1.
    [unix::read] returns no more than [Bytes] bytes, which are the bytes that
    the kernel has handed over during the call, in their order: nothing is
    read ahead and nothing is dropped; [*Success] is false only when nothing
    is returned.  [unix::write] returns the number of bytes that the kernel
    has taken, which are that many bytes from the front of the buffer, and
    leaves [*Success] true whenever it returns. *)
Theorem unix_transfers `{Platform} :
  (forall (Bytes : nat) (w : World) Data Success w',
     unix_read Bytes w = (Ok (Data, Success), w') ->
     length Data <= Bytes /\ rx w' = rx w ++ Data /\
     (Success = false -> Data = []) /\
     wr_pending w' = wr_pending w /\ tx w' = tx w) /\
  (forall (Buffer : list byte) (w : World) n Success w',
     unix_write Buffer w = (Ok (n, Success), w') ->
     n <= length Buffer /\ tx w' = tx w ++ take n Buffer /\ Success = true /\
     rd_pending w' = rd_pending w /\ rx w' = rx w).
Proof.
  split.
  - intros Bytes w Data Success w' Hrun.
    apply unix_read_spec in Hrun as (Hrx & Hlen & Hp & Htx & _ & HS). done.
  - intros Buffer w n Success w' Hrun.
    apply unix_write_spec in Hrun as (Hn & Htx & HS & Hp & Hrx & _). done.
Qed.

(** X2.
    [BufferedChannel::write] that returns [n]: what was in the buffer has
    been sent first, as far as the descriptor took it; [n] counts the bytes
    of [Data] that have been sent after it, none unless the buffer has been
    emptied; the rest of the buffer and then the rest of [Data] are in the
    buffer.  So the wire followed by the buffer is what it was, followed by
    [Data]. *)
Theorem write_accounts `{Platform} (Data : list byte) (ch : Pipe) (w : World)
    (ring : list byte) (n : nat) (ch' : Pipe) (w' : World) :
  Write ch = Some ring ->
  write Data ch w = (Ok n, ch', w') ->
  exists flushed : nat,
    flushed <= length ring /\ n <= length Data /\
    (flushed < length ring -> n = 0) /\
    tx w' = tx w ++ take flushed ring ++ take n Data /\
    Write ch' = Some (drop flushed ring ++ drop n Data) /\
    tx w' ++ drop flushed ring ++ drop n Data = tx w ++ ring ++ Data /\
    Read ch' = Read ch /\ Failed ch' = false /\ rx w' = rx w.
Proof.
  intros HW Hrun.
  destruct (write_spec Data ch w ring n ch' w' HW Hrun)
    as (k & Hk & Hn & Hzero & Htx & -> & _ & Hrx & HF).
  exists k. repeat split; try done.
  rewrite Htx, <- !app_assoc. f_equal.
  destruct (Nat.lt_ge_cases k (length ring)) as [Hlt|Hge].
  - rewrite (Hzero Hlt), take_0, drop_0. simpl. by rewrite app_assoc, take_drop.
  - rewrite take_ge, drop_ge by lia. simpl. by rewrite take_drop.
Qed.

(** Two bytes are buffered and six are written, in chunks of four: the
    descriptor takes the two, then three of the first chunk. *)
Lemma write_accounts_witness :
  let ring := [x01; x02] in
  let Data := [x03; x04; x05; x06; x07; x08] in
  let ch := mkPipe ModeWrite false None (Some ring) in
  let w := mkWorld [] [] [WrAccept 4; WrAccept 3] [] [] in
  let ch' := mkPipe ModeWrite false None (Some [x06; x07; x08]) in
  let w' :=
    mkWorld [] [] [] [x01; x02; x03; x04; x05] [(2, 2); (4, 3)] in
  Write ch = Some ring /\
  @write tiny Data ch w = (Ok 3, ch', w') /\
  exists flushed : nat,
    flushed <= 2 /\
    tx w' = take flushed ring ++ take 3 Data /\
    Write ch' = Some (drop flushed ring ++ drop 3 Data).
Proof.
  intros ring Data ch w ch' w'.
  split; [reflexivity|]. split; [reflexivity|].
  destruct (@write_accounts tiny Data ch w ring 3 ch' w' eq_refl eq_refl)
    as (flushed & Hk & _ & _ & Htx & HW & _).
  exists flushed. split; [exact Hk|]. split; [exact Htx|exact HW].
Defined.

(** X3.
    [BufferedChannel::load] that returns [n]: the [n] bytes that the kernel
    has handed over during the call are at the back of the read buffer, behind
    what it held; the call has gone on asking for whole chunks until [Bytes]
    bytes were there, so [n] is less than a chunk over [Bytes], and 0 when
    [Bytes] is.  The write side is not touched. *)
Theorem load_stores `{Platform} (Bytes : nat) (ch : Pipe) (w : World)
    (ring : list byte) (n : nat) (ch' : Pipe) (w' : World) :
  Read ch = Some ring ->
  load Bytes ch w = (Ok n, ch', w') ->
  exists got : list byte,
    rx w' = rx w ++ got /\ n = length got /\
    Read ch' = Some (ring ++ got) /\
    n < Bytes + optimalReadSize /\ (Bytes = 0 -> n = 0) /\
    Write ch' = Write ch /\ tx w' = tx w /\ wr_pending w' = wr_pending w.
Proof.
  intros HR Hrun.
  destruct (load_spec Bytes ch w ring n ch' w' HR Hrun)
    as (got & Hrx & -> & HR' & Hbound & HW & _ & Hp & Htx & _).
  exists got. unfold optimalReadSize. pose proof BUFSIZ_pos.
  repeat split; try done.
  - destruct Hbound as [->|[_ Hb]]; [simpl; lia|done].
  - intros ->. destruct Hbound as [->|[Hpos _]]; [done|lia].
Qed.

(** One byte is asked for and a whole chunk of four is stored. *)
Lemma load_stores_witness :
  let ch := mkPipe ModeRead false (Some [x0a]) None in
  let w := mkWorld [RdData [x01; x02; x03; x04]; RdData [x05]] [] [] [] [] in
  let ch' := mkPipe ModeRead false (Some [x0a; x01; x02; x03; x04]) None in
  let w' := mkWorld [RdData [x05]] [x01; x02; x03; x04] [] [] [] in
  Read ch = Some [x0a] /\
  @load tiny 1 ch w = (Ok 4, ch', w') /\
  exists got : list byte,
    rx w' = got /\ 4 = length got /\ Read ch' = Some ([x0a] ++ got) /\
    4 < 1 + @optimalReadSize tiny.
Proof.
  intros ch w ch' w'.
  split; [reflexivity|]. split; [reflexivity|].
  destruct (@load_stores tiny 1 ch w [x0a] 4 ch' w' eq_refl eq_refl)
    as (got & Hrx & Hn & HR & Hb & _).
  exists got. split; [exact Hrx|]. split; [exact Hn|]. split; [exact HR|exact Hb].
Defined.

(** X4.
    Calls of [read], [load], [write] and [flushWrites] in any order, none of
    which throws: the bytes that the reads have returned, followed by what
    the read buffer holds in the end, are what the buffer held at first
    followed by all that the kernel has handed over since; no byte is lost,
    doubled or out of its place. *)
Theorem read_stream `{Platform} (ops : list operation) (ch : Pipe) (w : World)
    (ring : list byte) (xs : list returned) (ch' : Pipe) (w' : World) :
  Read ch = Some ring ->
  run ops ch w = (Ok xs, ch', w') ->
  exists got ring' : list byte,
    rx w' = rx w ++ got /\ Read ch' = Some ring' /\
    delivered xs ++ ring' = ring ++ got.
Proof.
  revert ch w ring xs ch' w'.
  induction ops as [|op ops IH]; intros ch w ring xs ch' w' HR; simpl.
  { intros [= <- <- <-]. exists [], ring. by rewrite !app_nil_r. }
  destruct (call op ch w) as [[[x|e] ch1] w1] eqn:Hop; [|done].
  destruct (run ops ch1 w1) as [[[xs'|e] ch2] w2] eqn:Hrun; [|done].
  intros [= <- <- <-].
  apply (call_read_side _ _ _ ring) in Hop
    as (got1 & ring1 & Hrx1 & HR1 & Heq1); [|done].
  apply (IH _ _ ring1) in Hrun as (got2 & ring2 & Hrx2 & HR2 & Heq2); [|done].
  exists (got1 ++ got2), ring2.
  rewrite Hrx2, Hrx1, <- app_assoc. split; [done|]. split; [done|].
  rewrite delivered_cons, <- app_assoc, Heq2, !app_assoc. by rewrite Heq1.
Qed.

(** A load, a read from the buffer, a read that goes to the descriptor. *)
Lemma read_stream_witness :
  let ch := mkPipe ModeRead false (Some [x0a]) None in
  let w :=
    mkWorld [RdData [x01; x02; x03; x04]; RdData [x05; x06];
             RdErr resource_unavailable_try_again] [] [] [] [] in
  let ops := [DoLoad 1; DoRead 2; DoRead 5] in
  let xs := [GotCount 4; GotData [x0a; x01]; GotData [x02; x03; x04; x05; x06]] in
  let ch' := mkPipe ModeRead false (Some []) None in
  let w' := mkWorld [] [x01; x02; x03; x04; x05; x06] [] [] [] in
  Read ch = Some [x0a] /\
  @run tiny ops ch w = (Ok xs, ch', w') /\
  exists got ring' : list byte,
    rx w' = got /\ Read ch' = Some ring' /\
    delivered xs ++ ring' = [x0a] ++ got.
Proof.
  intros ch w ops xs ch' w'.
  split; [reflexivity|]. split; [reflexivity|].
  exact (@read_stream tiny ops ch w [x0a] xs ch' w' eq_refl eq_refl).
Defined.

(** X5.
    The same for the other direction: the wire followed by what the write
    buffer holds in the end is the wire and the buffer as they were at
    first, followed by all that the writes were given. *)
Theorem write_stream `{Platform} (ops : list operation) (ch : Pipe) (w : World)
    (ring : list byte) (xs : list returned) (ch' : Pipe) (w' : World) :
  Write ch = Some ring ->
  run ops ch w = (Ok xs, ch', w') ->
  exists ring' : list byte,
    Write ch' = Some ring' /\
    tx w' ++ ring' = tx w ++ ring ++ submitted ops.
Proof.
  revert ch w ring xs ch' w'.
  induction ops as [|op ops IH]; intros ch w ring xs ch' w' HW; simpl.
  { intros [= <- <- <-]. exists ring. by rewrite !app_nil_r. }
  destruct (call op ch w) as [[[x|e] ch1] w1] eqn:Hop; [|done].
  destruct (run ops ch1 w1) as [[[xs'|e] ch2] w2] eqn:Hrun; [|done].
  intros [= <- <- <-].
  apply (call_write_side _ _ _ ring) in Hop as (ring1 & HW1 & Heq1); [|done].
  apply (IH _ _ ring1) in Hrun as (ring2 & HW2 & Heq2); [|done].
  exists ring2. split; [done|].
  change (match op with DoWrite Data => Data ++ submitted ops
                   | _ => submitted ops end) with (submitted (op :: ops)).
  rewrite submitted_cons, Heq2, app_assoc, Heq1, <- !app_assoc. done.
Qed.

(** A write that gets stuck, a write that can only queue behind it, a flush
    that gets two bytes through. *)
Lemma write_stream_witness :
  let ch := mkPipe ModeWrite false None (Some []) in
  let w :=
    mkWorld [] []
      [WrAccept 3; WrErr operation_would_block; WrErr operation_would_block;
       WrAccept 2; WrErr resource_unavailable_try_again] [] [] in
  let ops := [DoWrite [x01; x02; x03; x04; x05]; DoWrite [x06]; DoFlush] in
  let xs := [GotCount 3; GotCount 0; GotCount 2] in
  let ch' := mkPipe ModeWrite false None (Some [x06]) in
  let w' :=
    mkWorld [] [] [] [x01; x02; x03; x04; x05] [(4, 3); (2, 0); (3, 2)] in
  Write ch = Some [] /\
  @run tiny ops ch w = (Ok xs, ch', w') /\
  exists ring' : list byte,
    Write ch' = Some ring' /\
    tx w' ++ ring' = [] ++ [] ++ submitted ops.
Proof.
  intros ch w ops xs ch' w'.
  split; [reflexivity|]. split; [reflexivity|].
  exact (@write_stream tiny ops ch w [] xs ch' w' eq_refl eq_refl).
Defined.

Section Edges.
Context `{Platform}.

Lemma unix_read_disconnected (Bytes : nat) (w : World) rest :
  0 < Bytes ->
  rd_pending w = RdData [] :: rest ->
  unix_read Bytes w = (Ok ([], false), set_rd w rest (rx w)).
Proof.
  intros Hpos Hp. unfold unix_read. rewrite Hp. cbn [read_loop].
  replace (negb _) with false
    by (symmetry; apply negb_false_iff, andb_true_iff;
        split; [by apply Nat.ltb_lt|by apply Nat.leb_le]).
  by rewrite take_nil.
Qed.

(** A [load] that gets one whole chunk and then finds the peer gone. *)
Lemma load_then_hangup (Bytes : nat) (ch : Pipe) (w : World)
    (ring chunk : list byte) rest :
  Failed ch = false -> OpenedAs ch = ModeRead -> Read ch = Some ring ->
  length chunk = BUFSIZ -> BUFSIZ < Bytes ->
  overflown (Some (ring ++ chunk)) = false ->
  rd_pending w = RdData chunk :: RdData [] :: rest ->
  load Bytes ch w =
  (Ok BUFSIZ, setFailed (setRead ch (ring ++ chunk)),
   set_rd w rest (rx w ++ chunk)).
Proof.
  intros HF HM HR Hlen HB Hov Hp. pose proof BUFSIZ_pos as Hpos.
  unfold load, optimalReadSize. rewrite HF, HR. cbn [present negb].
  destruct Bytes as [|[|fuel]] eqn:Hfuel; [lia..|].
  cbn [load_chunks].
  replace (true && (0 <? S (S fuel))) with true by done.
  unfold readImpl at 1. rewrite HF, HM. cbn [Mode_eqb negb].
  rewrite (unix_read_whole_chunk _ _ _ Hlen Hp). cbn [negb].
  replace (isEmpty chunk) with false
    by (symmetry; apply isEmpty_false; destruct chunk; simpl in *; [lia|done]).
  rewrite Hlen, Nat.ltb_irrefl, <- Hlen, firstn_all, Hlen.
  replace (true && (0 <? S (S fuel) - BUFSIZ `min` S (S fuel))) with true
    by (symmetry; apply andb_true_iff; split; [done|apply Nat.ltb_lt; lia]).
  unfold readImpl, putBackRead, putBack. rewrite HR. simpl.
  rewrite HF, HM. simpl.
  rewrite (unix_read_disconnected BUFSIZ
             (set_rd w (RdData [] :: rest) (rx w ++ chunk)) rest
             Hpos eq_refl).
  simpl. unfold size in Hov. simpl in Hov. rewrite Hov. done.
Qed.

End Edges.

(** X6.
    A [write] of no bytes is a [flushWrites] that reports 0: on a channel
    whose write buffer is within the bound the two make the same system
    calls, leave the same channel, and throw the same when they throw. *)
Theorem write_nothing_flushes `{Platform} (ch : Pipe) (w : World) :
  overflown (Write ch) = false ->
  write [] ch w =
  match flushWrites ch w with
  | (Ok _, ch', w') => (Ok 0, ch', w')
  | (Throw e, ch', w') => (Throw e, ch', w')
  end.
Proof.
  intros Hov. unfold write.
  destruct (Failed ch) eqn:HF; [unfold flushWrites; by rewrite HF|].
  destruct (Write ch) as [ring|] eqn:HW;
    [|unfold flushWrites; by rewrite HF, HW].
  cbn [present negb].
  destruct (flushWrites ch w) as [[[sent|e] ch1] w1] eqn:Hfl; [|done].
  destruct (flushWrites_spec ch w ring sent ch1 w1 HW Hfl)
    as (calls & _ & _ & _ & Hsent & _ & -> & _).
  unfold writeInBuffer. rewrite HW.
  destruct (Nat.ltb_spec sent (length ring)) as [Hpart|Hall]; [|done].
  cbn [negb].
  rewrite (putBackWrite_Some _ (drop sent ring)) by done.
  rewrite (checkWriteOverflow_Some _ _ _ (drop sent ring ++ [])) by done.
  rewrite app_nil_r.
  pose proof (overflown_drop ring sent Hov) as Hd. unfold overflown in Hd.
  rewrite Hd. by destruct ch.
Qed.

(** Three bytes are buffered and the descriptor takes two. *)
Lemma write_nothing_flushes_witness :
  let ch := mkPipe ModeWrite false None (Some [x01; x02; x03]) in
  let w := mkWorld [] [] [WrAccept 2; WrErr operation_would_block] [] [] in
  let ch' := mkPipe ModeWrite false None (Some [x03]) in
  let w' := mkWorld [] [] [] [x01; x02] [(3, 2)] in
  overflown (Write ch) = false /\
  @flushWrites tiny ch w = (Ok 2, ch', w') /\
  @write tiny [] ch w = (Ok 0, ch', w').
Proof.
  intros ch w ch' w'.
  split; [reflexivity|]. split; [reflexivity|].
  exact (@write_nothing_flushes tiny ch w eq_refl).
Defined.

(** X7.
    The peer hangs up while [load] is at work: the call has stored one whole
    chunk and finds end of file when it asks for the next.  It returns the
    count of the bytes stored, and the channel is failed; the bytes are in
    the read buffer, and every [read] from then on throws the I/O error of a
    failed channel before it looks at the buffer. *)
Theorem hangup_strands_the_buffer `{Platform} (Bytes : nat) (ch : Pipe)
    (w : World) (ring chunk : list byte) (rest : list rd_outcome) :
  Failed ch = false -> OpenedAs ch = ModeRead -> Read ch = Some ring ->
  length chunk = optimalReadSize -> optimalReadSize < Bytes ->
  overflown (Some (ring ++ chunk)) = false ->
  rd_pending w = RdData chunk :: RdData [] :: rest ->
  exists ch' w',
    load Bytes ch w = (Ok (length chunk), ch', w') /\
    Read ch' = Some (ring ++ chunk) /\ Failed ch' = true /\
    forall m : nat, read m ch' w' = (Throw (system_error io_error), ch', w').
Proof.
  unfold optimalReadSize. intros HF HM HR Hlen HB Hov Hp.
  eexists _, _. split.
  - rewrite Hlen. by apply load_then_hangup.
  - split; [done|]. split; [done|]. intros m. unfold read. done.
Qed.

(** Four bytes arrive, then the end of file. *)
Lemma hangup_strands_the_buffer_witness :
  let ch := mkPipe ModeRead false (Some [x0a]) None in
  let chunk := [x01; x02; x03; x04] in
  let w := mkWorld [RdData chunk; RdData []] [] [] [] [] in
  let ch' := mkPipe ModeRead true (Some [x0a; x01; x02; x03; x04]) None in
  let w' := mkWorld [] chunk [] [] [] in
  length chunk = @optimalReadSize tiny /\
  @optimalReadSize tiny < 8 /\
  @load tiny 8 ch w = (Ok 4, ch', w') /\
  @read tiny 5 ch' w' = (Throw (system_error io_error), ch', w') /\
  exists ch'' w'',
    @load tiny 8 ch w = (Ok 4, ch'', w'') /\
    Read ch'' = Some ([x0a] ++ chunk) /\ Failed ch'' = true.
Proof.
  intros ch chunk w ch' w'.
  assert (@optimalReadSize tiny < 8) as Hlt
    by (unfold optimalReadSize; simpl; lia).
  destruct (@hangup_strands_the_buffer tiny 8 ch w [x0a] chunk []
              eq_refl eq_refl eq_refl eq_refl Hlt eq_refl eq_refl)
    as (ch'' & w'' & Hload & HR & HF & _).
  split; [reflexivity|]. split; [exact Hlt|].
  split; [reflexivity|]. split; [reflexivity|].
  exists ch'', w''. split; [exact Hload|]. split; [exact HR|exact HF].
Defined.

(** ** Connecting: which attempt counts *)

Section ConnectOutcome.
Context {Client : Type}.

(** What the next attempt gives. *)
Lemma Client_create_next (w : client.World Client) :
  client.Client_create w =
  (match client.creates w with [] => None | C :: _ => C end,
   client.mkWorld (drop 1 (client.creates w))
     (client.trace w ++ [client.ClientCreate])).
Proof. by destruct w as [[|C cs] tr]. Qed.

(** The loop when an attempt succeeds before the counter is at 5. *)
Lemma connect_loop_succeeds (i : nat) :
  forall (fuel : nat) (HandshakeCounter : N) (w : client.World Client) c rest,
    client.creates w = replicate i None ++ Some c :: rest ->
    i < fuel ->
    (HandshakeCounter + N.of_nat i + 1 < 5)%N ->
    client.connect_loop fuel None HandshakeCounter w =
    Some (Some c,
          client.mkWorld rest
            (client.trace w ++
             concat (replicate (S i) [client.ClientCreate; client.SleepFor 1]))).
Proof.
  induction i as [|i IH]; intros fuel HC w c rest Hcs Hfuel HHC;
    (destruct fuel as [|fuel]; [lia|]); cbn [client.connect_loop];
    rewrite Client_create_next, Hcs;
    (assert (client.incr_ushort HC = HC + 1)%N as ->
      by (unfold client.incr_ushort; apply N.mod_small; lia));
    (destruct (N.eqb_spec (HC + 1) 5) as [H5|H5]; [lia|]).
  - unfold client.emit. cbn. destruct fuel; cbn; by rewrite <- !app_assoc.
  - cbn [replicate app drop]. rewrite drop_0.
    rewrite (IH fuel (HC + 1)%N _ c rest); [|done|lia|lia].
    unfold client.emit. cbn. by rewrite <- !app_assoc.
Qed.

(** The loop when the counter comes to 5: what the last attempt gives does
    not matter. *)
Lemma connect_loop_at_five (k : nat) :
  forall (fuel : nat) (HandshakeCounter : N) (w : client.World Client),
    Forall (fun C => C = None) (take (k - 1) (client.creates w)) ->
    1 <= k <= fuel ->
    (HandshakeCounter + N.of_nat k = 5)%N ->
    client.connect_loop fuel None HandshakeCounter w =
    Some (None,
          client.mkWorld (drop k (client.creates w))
            (client.trace w ++
             concat (replicate k [client.ClientCreate; client.SleepFor 1]) ++
             [client.Cerr "Connection failed after enough retries."])).
Proof.
  induction k as [|k IH]; intros fuel HC w Hall Hk HHC; [lia|].
  destruct fuel as [|fuel]; [lia|]. cbn [client.connect_loop].
  rewrite Client_create_next.
  assert (client.incr_ushort HC = HC + 1)%N as ->
    by (unfold client.incr_ushort; apply N.mod_small; lia).
  destruct (N.eqb_spec (HC + 1) 5) as [H5|H5].
  - assert (k = 0) as -> by lia. unfold client.emit. cbn.
    by rewrite <- !app_assoc.
  - destruct k as [|k]; [lia|].
    replace (S (S k) - 1) with (S k) in Hall by lia.
    assert (match client.creates w with [] => None | C :: _ => C end = None
            /\ Forall (fun C : option Client => C = None)
                 (take (S k - 1) (drop 1 (client.creates w))))
      as [-> Hall1].
    { destruct (client.creates w) as [|C cs]; simpl in *.
      - by rewrite take_nil.
      - inversion Hall as [|? ? -> Hrest]; subst.
        by rewrite drop_0, Nat.sub_0_r. }
    rewrite (IH fuel (HC + 1)%N); [|done|lia|lia].
    unfold client.emit. cbn. rewrite drop_drop, <- !app_assoc. done.
Qed.

(** Among the first [n] attempts there is a first that succeeds, or none
    does. *)
Lemma first_success (n : nat) (cs : list (option Client)) :
  Forall (fun C => C = None) (take n cs) \/
  exists i c rest, i < n /\ cs = replicate i None ++ Some c :: rest.
Proof.
  revert cs. induction n as [|n IH]; intros cs; [left; by rewrite take_0|].
  destruct cs as [|[c|] cs].
  - left. by rewrite take_nil.
  - right. exists 0, c, cs. split; [lia|done].
  - destruct (IH cs) as [Hall|(i & c & rest & Hi & ->)].
    + left. simpl. by constructor.
    + right. exists (S i), c, rest. split; [lia|done].
Qed.

Lemma connect_succeeds (fuel i : nat) (w : client.World Client) c rest :
  i <= fuel -> i < 4 ->
  client.creates w = replicate i None ++ Some c :: rest ->
  client.connect fuel true w =
  Some (Some c,
        client.mkWorld rest
          (client.trace w ++ client.ClientCreate ::
           concat (replicate i [client.ClientCreate; client.SleepFor 1]))).
Proof.
  intros Hfuel Hi Hcs. unfold client.connect.
  rewrite Client_create_next, Hcs. cbn [negb].
  destruct i as [|i].
  - cbn. destruct fuel; cbn; done.
  - cbn [replicate app drop]. rewrite drop_0.
    rewrite (connect_loop_succeeds i fuel 1 _ c rest); [|done|lia|lia].
    cbn. by rewrite <- !app_assoc.
Qed.

Lemma connect_at_five (fuel : nat) (w : client.World Client) :
  4 <= fuel ->
  Forall (fun C => C = None) (take 4 (client.creates w)) ->
  client.connect fuel true w =
  Some (None,
        client.mkWorld (drop 5 (client.creates w))
          (client.trace w ++ client.ClientCreate ::
           concat (replicate 4 [client.ClientCreate; client.SleepFor 1]) ++
           [client.Cerr "Connection failed after enough retries."])).
Proof.
  intros Hfuel Hall. unfold client.connect.
  rewrite Client_create_next. cbn [negb].
  assert (match client.creates w with [] => None | C :: _ => C end = None
          /\ Forall (fun C : option Client => C = None)
               (take 3 (drop 1 (client.creates w))))
    as [-> Hall1].
  { destruct (client.creates w) as [|C cs]; simpl in *; [done|].
    inversion Hall as [|? ? -> Hrest]; subst. by rewrite drop_0. }
  rewrite (connect_loop_at_five 4); [|done|lia|done].
  cbn. rewrite drop_drop, <- !app_assoc. done.
Qed.

End ConnectOutcome.

(** X8.
    [connect] with [Block] set ends within five attempts.  When one of the
    first four gives a client, that client is returned: the first attempt
    costs no waiting, each later one a second, which is also waited after the
    attempt that has succeeded.  When the first four fail, nothing is
    returned and the failure is reported, whatever the fifth attempt gives:
    the counter is at 5 when it has been made. *)
Theorem connect_outcome {Client : Type} (fuel : nat)
    (w : client.World Client) :
  4 <= fuel ->
  (forall (i : nat) (c : Client) (rest : list (option Client)),
     i < 4 ->
     client.creates w = replicate i None ++ Some c :: rest ->
     client.connect fuel true w =
     Some (Some c,
           client.mkWorld rest
             (client.trace w ++ client.ClientCreate ::
              concat (replicate i [client.ClientCreate; client.SleepFor 1])))) /\
  (Forall (fun C => C = None) (take 4 (client.creates w)) ->
   client.connect fuel true w =
   Some (None,
         client.mkWorld (drop 5 (client.creates w))
           (client.trace w ++ client.ClientCreate ::
            concat (replicate 4 [client.ClientCreate; client.SleepFor 1]) ++
            [client.Cerr "Connection failed after enough retries."]))) /\
  is_Some (client.connect fuel true w).
Proof.
  intros Hfuel.
  assert (forall i c rest, i < 4 ->
            client.creates w = replicate i None ++ Some c :: rest ->
            client.connect fuel true w =
            Some (Some c,
                  client.mkWorld rest
                    (client.trace w ++ client.ClientCreate ::
                     concat (replicate i
                               [client.ClientCreate; client.SleepFor 1]))))
    as Hfirst by (intros i c rest Hi Hcs; apply connect_succeeds; [lia|done..]).
  split; [exact Hfirst|].
  split; [by apply connect_at_five|].
  destruct (first_success 4 (client.creates w))
    as [Hall|(i & c & rest & Hi & Hcs)].
  - rewrite connect_at_five by done. eauto.
  - rewrite (Hfirst i c rest Hi Hcs). eauto.
Qed.

(** A server that answers the third attempt, and one that would answer the
    fifth. *)
Lemma connect_outcome_witness :
  let third := client.mkWorld [None; None; Some tt; None] [] in
  let fifth := client.mkWorld [None; None; None; None; Some tt] [] in
  4 <= 4 /\
  client.connect 4 true third =
  Some (Some tt,
        client.mkWorld [None]
          [client.ClientCreate;
           client.ClientCreate; client.SleepFor 1;
           client.ClientCreate; client.SleepFor 1]) /\
  client.connect 4 true fifth =
  Some (None,
        client.mkWorld []
          [client.ClientCreate;
           client.ClientCreate; client.SleepFor 1;
           client.ClientCreate; client.SleepFor 1;
           client.ClientCreate; client.SleepFor 1;
           client.ClientCreate; client.SleepFor 1;
           client.Cerr "Connection failed after enough retries."]).
Proof.
  intros third fifth. split; [exact (le_n 4)|]. split.
  - apply (proj1 (connect_outcome 4 third (le_n 4)) 2 tt [None]);
      [repeat constructor|reflexivity].
  - apply (proj1 (proj2 (connect_outcome 4 fifth (le_n 4)))).
    repeat constructor.
Defined.

(** ** Strings *)

Section Strings.

Local Open Scope string_scope.

Lemma index_cons (a : ascii) (c : ascii) (s : string) :
  String.index 0 (String a "") (String c s) =
  if Ascii.eqb a c then Some 0
  else match String.index 0 (String a "") s with
       | Some n => Some (S n)
       | None => None
       end.
Proof.
  simpl. destruct (ascii_dec a c) as [->|Hne].
  - rewrite Ascii.eqb_refl. by destruct s.
  - by destruct (Ascii.eqb_spec a c).
Qed.

Lemma append_nil_l (s : string) : "" ++ s = s.
Proof. done. Qed.

Lemma append_cons (c : ascii) (a b : string) :
  String c a ++ b = String c (a ++ b).
Proof. done. Qed.

Lemma append_nil_r (s : string) : s ++ "" = s.
Proof.
  induction s as [|c s IH]; [done|]. by rewrite append_cons, IH.
Qed.

Lemma append_assoc (a b c : string) : (a ++ b) ++ c = a ++ (b ++ c).
Proof.
  induction a as [|x a IH]; [done|]. by rewrite !append_cons, IH.
Qed.

Lemma length_append (a b : string) :
  String.length (a ++ b) = String.length a + String.length b.
Proof.
  induction a as [|c a IH]; [done|]. rewrite append_cons. simpl.
  by rewrite IH.
Qed.

Lemma index_app_char (a : ascii) (k v : string) :
  String.index 0 (String a "") k = None ->
  String.index 0 (String a "") (k ++ String a v) = Some (String.length k).
Proof.
  induction k as [|c k IH]; intros Hk.
  - by rewrite append_nil_l, index_cons, Ascii.eqb_refl.
  - rewrite index_cons in Hk. rewrite append_cons, index_cons.
    destruct (Ascii.eqb a c); [done|].
    destruct (String.index 0 (String a "") k); [done|]. by rewrite IH.
Qed.

Lemma substring_whole (s : string) :
  String.substring 0 (String.length s) s = s.
Proof. induction s as [|c s IH]; simpl; [done|]. by rewrite IH. Qed.

Lemma substring_app_front (k r : string) :
  String.substring 0 (String.length k) (k ++ r) = k.
Proof.
  induction k as [|c k IH]; [by destruct r|].
  rewrite append_cons. simpl. by rewrite IH.
Qed.

Lemma substring_after (k v : string) (a : ascii) :
  String.substring (String.length k + 1)
    (String.length (k ++ String a v) - (String.length k + 1))
    (k ++ String a v) = v.
Proof.
  induction k as [|c k IH].
  - rewrite append_nil_l. simpl. rewrite Nat.sub_0_r. apply substring_whole.
  - rewrite append_cons. simpl. apply IH.
Qed.

End Strings.

(** ** The option loop, option by option *)

(** Every test of the [switch] and every test inside its cases. *)
Ltac every_case Opt :=
  unfold frontend.ascii_eqb;
  repeat match goal with
         | |- context [Ascii.eqb Opt ?c] =>
             destruct (Ascii.eqb_spec Opt c); [subst Opt|]
         end; try done;
  repeat match goal with
         | |- context [if ?b then _ else _] => destruct b
         | |- context [match ?o with Some _ => _ | None => _ end] =>
             destruct o
         end; try done.

Section OptionLoop.
Context `{frontend.Collaborators}.
Variable Prog : string.

Import frontend.

Lemma is_option_true (c : ascii) (r : getopt_result) :
  is_option c r = true <-> exists optarg, r = GetoptChar c optarg.
Proof.
  destruct r as [i|Opt optarg]; simpl.
  - split; [done|]. by intros [? ?].
  - destruct (Ascii.eqb_spec Opt c) as [->|Hne]; split; eauto.
    + done.
    + intros [? [= ? ?]]. done.
Qed.

(** No option takes an error back, and none takes back the request for the
    help. *)
Lemma handle_option_HadErrors (r : getopt_result) (st : State) :
  HadErrors st = true -> HadErrors (handle_option Prog r st) = true.
Proof.
  intros Hst. destruct r as [i|Opt optarg]; unfold handle_option.
  - destruct (String.eqb _ "server"); [done|].
    by destruct (String.eqb _ "statistics").
  - every_case Opt.
Qed.

Lemma handle_option_help_stays (r : getopt_result) (st : State) :
  ShowHelp (MainOpts st) = true ->
  ShowHelp (MainOpts (handle_option Prog r st)) = true.
Proof.
  intros Hst. destruct r as [i|Opt optarg]; unfold handle_option.
  - destruct (String.eqb _ "server"); [done|].
    by destruct (String.eqb _ "statistics").
  - every_case Opt.
Qed.

(** The options other than [-h], [-v], [-q] and [-V] leave [MainOpts]. *)
Lemma handle_option_MainOpts (r : getopt_result) (st : State) :
  is_option "h" r = false -> is_option "v" r = false ->
  is_option "q" r = false -> is_option "V" r = false ->
  MainOpts (handle_option Prog r st) = MainOpts st.
Proof.
  destruct r as [i|Opt optarg]; unfold handle_option; simpl.
  - intros _ _ _ _. destruct (String.eqb _ "server"); [done|].
    by destruct (String.eqb _ "statistics").
  - intros Hh Hv Hq HV. unfold ascii_eqb. rewrite Hh, Hv, Hq, HV.
    destruct (Ascii.eqb Opt "?"); [done|].
    every_case Opt.
Qed.

Lemma parse_options_help (opts : list getopt_result) (a : string) :
  GetoptChar "h" a ∈ opts ->
  ShowHelp (MainOpts (parse_options Prog opts)) = true.
Proof.
  intros (l1 & l2 & ->)%list_elem_of_split. unfold parse_options.
  rewrite fold_left_app. simpl.
  apply (parse_keeps Prog (fun st => ShowHelp (MainOpts st) = true)); [|done].
  intros r st _. apply handle_option_help_stays.
Qed.

(** What [-V] does the first time, the second time, and after that. *)
Lemma handle_option_version (a : string) (st : State) (n : nat) :
  ShowVersion (MainOpts st) = (1 <=? n) ->
  ShowElaborateBuildInformation (MainOpts st) = (2 <=? n) ->
  (3 <= n -> HadErrors st = true) ->
  let st' := handle_option Prog (GetoptChar "V" a) st in
  ShowVersion (MainOpts st') = (1 <=? S n) /\
  ShowElaborateBuildInformation (MainOpts st') = (2 <=? S n) /\
  (3 <= S n -> HadErrors st' = true).
Proof.
  intros HV HE Herr. cbn. rewrite HV, HE.
  destruct n as [|[|n]]; cbn in *; repeat split; try done; intros; lia.
Qed.

Lemma handle_option_not_version (r : getopt_result) (st : State) :
  is_option "V" r = false ->
  ShowVersion (MainOpts (handle_option Prog r st)) = ShowVersion (MainOpts st) /\
  ShowElaborateBuildInformation (MainOpts (handle_option Prog r st)) =
    ShowElaborateBuildInformation (MainOpts st).
Proof.
  destruct r as [i|Opt optarg]; unfold handle_option; simpl.
  - intros _. destruct (String.eqb _ "server"); [done|].
    by destruct (String.eqb _ "statistics").
  - intros HV. unfold ascii_eqb. rewrite HV.
    destruct (Ascii.eqb Opt "?"); [done|].
    destruct (Ascii.eqb Opt "h"); [done|].
    destruct (Ascii.eqb Opt "v"); [by destruct (AnyQuietFlag _)|].
    destruct (Ascii.eqb Opt "q"); [by destruct (AnyVerboseFlag _)|].
    every_case Opt.
Qed.

Lemma parse_version_count (opts : list getopt_result) :
  forall (st : State) (n : nat),
    ShowVersion (MainOpts st) = (1 <=? n) ->
    ShowElaborateBuildInformation (MainOpts st) = (2 <=? n) ->
    (3 <= n -> HadErrors st = true) ->
    let st' := fold_left (fun st r => handle_option Prog r st) opts st in
    let n' := n + length (List.filter (is_option "V") opts) in
    ShowVersion (MainOpts st') = (1 <=? n') /\
    ShowElaborateBuildInformation (MainOpts st') = (2 <=? n') /\
    (3 <= n' -> HadErrors st' = true).
Proof.
  induction opts as [|r opts IH]; intros st n HV HE Herr; simpl.
  { by rewrite Nat.add_0_r. }
  destruct (is_option "V" r) eqn:Hr.
  - apply is_option_true in Hr as [a ->].
    destruct (handle_option_version a st n HV HE Herr) as (HV' & HE' & Herr').
    simpl length. rewrite Nat.add_succ_r. by apply (IH _ (S n)).
  - destruct (handle_option_not_version r st Hr) as [HV' HE'].
    apply IH; [congruence|congruence|].
    intros Hn. by apply handle_option_HadErrors, Herr.
Qed.

(** What is left of [main] when the command line has an error and asks
    neither for the help nor for the version. *)
Lemma main_with_errors (opts : list getopt_result) (args : list string) :
  ShowHelp (MainOpts (parse_options Prog opts)) = false ->
  ShowVersion (MainOpts (parse_options Prog opts)) = false ->
  HadErrors (parse_options Prog opts) = true ->
  exists more : list string,
    main Prog opts args =
    (map Cerr (cerr (parse_options Prog opts) ++ more), 1%Z).
Proof.
  intros Hh HV HE. unfold main. rewrite Hh, HV.
  set (st := parse_options Prog opts) in *.
  set (st0 := withMain chooseSeverity st).
  set (st1 := if _ && _ then _ else st0).
  assert (HadErrors st1 = true /\ exists m, cerr st1 = cerr st ++ m)
    as [HE1 [m1 Hc1]].
  { subst st1. destruct (_ && _); simpl; [eauto|].
    split; [done|]. exists []. by rewrite app_nil_r. }
  set (st2 := if negb _ then _ else st1).
  assert (HadErrors st2 = true /\ cerr st2 = cerr st1) as [HE2 Hc2]
    by (subst st2; by destruct (negb _)).
  destruct (positional_errors Prog args st2 HE2) as [-> [more ->]].
  exists (m1 ++ more). by rewrite Hc2, Hc1, <- app_assoc.
Qed.

(** ** [-v] and [-q] *)

(** The two flags of the verbosity are never both set; [-v] and [-q], once
    met ([sv], [sq]), have set their flag, or an error. *)
Lemma handle_option_verbosity (r : getopt_result) (st : State) sv sq :
  (AnyVerboseFlag (MainOpts st) = true ->
   AnyQuietFlag (MainOpts st) = true -> False) /\
  (sv = true -> AnyVerboseFlag (MainOpts st) = true \/ HadErrors st = true) /\
  (sq = true -> AnyQuietFlag (MainOpts st) = true \/ HadErrors st = true) ->
  let st' := handle_option Prog r st in
  (AnyVerboseFlag (MainOpts st') = true ->
   AnyQuietFlag (MainOpts st') = true -> False) /\
  (sv || is_option "v" r = true ->
   AnyVerboseFlag (MainOpts st') = true \/ HadErrors st' = true) /\
  (sq || is_option "q" r = true ->
   AnyQuietFlag (MainOpts st') = true \/ HadErrors st' = true).
Proof.
  intros (Hnot & Hv & Hq).
  destruct (is_option "v" r) eqn:Hrv; [|destruct (is_option "q" r) eqn:Hrq].
  - apply is_option_true in Hrv as [a ->]. rewrite orb_true_r, orb_false_r.
    cbn. destruct (AnyQuietFlag (MainOpts st)) eqn:HQ; cbn; rewrite ?HQ.
    + split; [done|]. split; intros _; by right.
    + split; [by intros _ [=]|]. split; [intros _; by left|].
      intros Hsq. destruct (Hq Hsq) as [[=]|?]. by right.
  - apply is_option_true in Hrq as [a ->]. rewrite orb_true_r, orb_false_r.
    cbn. destruct (AnyVerboseFlag (MainOpts st)) eqn:HV; cbn; rewrite ?HV.
    + split; [done|]. split; intros _; by right.
    + split; [by intros [=]|]. split; [|intros _; by left].
      intros Hsv. destruct (Hv Hsv) as [[=]|?]. by right.
  - rewrite !orb_false_r. cbv zeta.
    assert (AnyVerboseFlag (MainOpts (handle_option Prog r st)) =
              AnyVerboseFlag (MainOpts st) /\
            AnyQuietFlag (MainOpts (handle_option Prog r st)) =
              AnyQuietFlag (MainOpts st)) as [-> ->].
    { destruct r as [i|Opt optarg]; unfold handle_option; simpl in *.
      - destruct (String.eqb _ "server"); [done|].
        by destruct (String.eqb _ "statistics").
      - unfold ascii_eqb. rewrite Hrv, Hrq.
        destruct (Ascii.eqb Opt "?"); [done|].
        destruct (Ascii.eqb Opt "h"); [done|].
        every_case Opt. }
    split; [done|]. split.
    + intros Hsv. destruct (Hv Hsv) as [?|?]; [by left|right].
      by apply handle_option_HadErrors.
    + intros Hsq. destruct (Hq Hsq) as [?|?]; [by left|right].
      by apply handle_option_HadErrors.
Qed.

Lemma parse_verbosity (opts : list getopt_result) :
  forall (st : State) sv sq,
    (AnyVerboseFlag (MainOpts st) = true ->
     AnyQuietFlag (MainOpts st) = true -> False) /\
    (sv = true -> AnyVerboseFlag (MainOpts st) = true \/ HadErrors st = true) /\
    (sq = true -> AnyQuietFlag (MainOpts st) = true \/ HadErrors st = true) ->
    let st' := fold_left (fun st r => handle_option Prog r st) opts st in
    (sv || existsb (is_option "v") opts = true ->
     sq || existsb (is_option "q") opts = true ->
     HadErrors st' = true).
Proof.
  induction opts as [|r opts IH]; intros st sv sq Hinv; simpl.
  { rewrite !orb_false_r. destruct Hinv as (Hnot & Hv & Hq).
    intros Hsv Hsq. destruct (Hv Hsv) as [HV|?]; [|done].
    destruct (Hq Hsq) as [HQ|?]; [|done]. destruct (Hnot HV HQ). }
  rewrite !orb_assoc. apply IH. by apply handle_option_verbosity.
Qed.

Lemma parse_options_verbose_quiet (opts : list getopt_result) (a b : string) :
  GetoptChar "v" a ∈ opts -> GetoptChar "q" b ∈ opts ->
  HadErrors (parse_options Prog opts) = true.
Proof.
  intros Hv Hq. unfold parse_options.
  apply (parse_verbosity opts initial false false); [by repeat split| |].
  - apply existsb_exists. exists (GetoptChar "v" a).
    split; [by apply list_elem_of_In|done].
  - apply existsb_exists. exists (GetoptChar "q" b).
    split; [by apply list_elem_of_In|done].
Qed.


(** The options other than [-v] and [-q] leave the verbosity. *)
Lemma handle_option_not_verbosity (r : getopt_result) (st : State) :
  is_option "v" r = false -> is_option "q" r = false ->
  AnyVerboseFlag (MainOpts (handle_option Prog r st)) =
    AnyVerboseFlag (MainOpts st) /\
  AnyQuietFlag (MainOpts (handle_option Prog r st)) =
    AnyQuietFlag (MainOpts st) /\
  VerbosityQuietnessDifferential (MainOpts (handle_option Prog r st)) =
    VerbosityQuietnessDifferential (MainOpts st).
Proof.
  destruct r as [i|Opt optarg]; unfold handle_option; simpl.
  - intros _ _. destruct (String.eqb _ "server"); [done|].
    by destruct (String.eqb _ "statistics").
  - intros Hv Hq. unfold ascii_eqb. rewrite Hv, Hq.
    destruct (Ascii.eqb Opt "?"); [done|].
    destruct (Ascii.eqb Opt "h"); [done|].
    every_case Opt.
Qed.

Lemma wrap_int8_small (z : Z) : (-128 <= z <= 127)%Z -> wrap_int8 z = z.
Proof. intros Hz. unfold wrap_int8. rewrite Z.mod_small; lia. Qed.

(** [-v] counted up, as long as no [-q] is met and the count fits. *)
Lemma parse_verbose_count (opts : list getopt_result) :
  forall (st : State),
    Forall (fun r => is_option "q" r = false) opts ->
    AnyQuietFlag (MainOpts st) = false ->
    (0 <= VerbosityQuietnessDifferential (MainOpts st))%Z ->
    (VerbosityQuietnessDifferential (MainOpts st) +
     Z.of_nat (length (List.filter (is_option "v") opts)) <= 127)%Z ->
    let st' := fold_left (fun st r => handle_option Prog r st) opts st in
    VerbosityQuietnessDifferential (MainOpts st') =
    (VerbosityQuietnessDifferential (MainOpts st) +
     Z.of_nat (length (List.filter (is_option "v") opts)))%Z.
Proof.
  induction opts as [|r opts IH]; intros st Hq HQ Hd Hn; simpl in *; [lia|].
  inversion Hq as [|? ? Hr Hrest]; subst.
  destruct (is_option "v" r) eqn:Hv.
  - apply is_option_true in Hv as [a ->]. simpl length in *.
    set (st1 := handle_option Prog (GetoptChar "v" a) st).
    assert (AnyQuietFlag (MainOpts st1) = false /\
            VerbosityQuietnessDifferential (MainOpts st1) =
            (VerbosityQuietnessDifferential (MainOpts st) + 1)%Z) as [HQ1 Hd1].
    { subst st1. cbn. rewrite HQ. cbn. split; [done|].
      apply wrap_int8_small. lia. }
    rewrite IH; [|done|done|lia|lia]. lia.
  - destruct (handle_option_not_verbosity r st Hv Hr) as (_ & HQ' & Hd').
    rewrite IH; [|done|congruence|lia|lia]. lia.
Qed.

Lemma parse_quiet_count (opts : list getopt_result) :
  forall (st : State),
    Forall (fun r => is_option "v" r = false) opts ->
    AnyVerboseFlag (MainOpts st) = false ->
    (VerbosityQuietnessDifferential (MainOpts st) <= 0)%Z ->
    (- 128 <= VerbosityQuietnessDifferential (MainOpts st) -
     Z.of_nat (length (List.filter (is_option "q") opts)))%Z ->
    let st' := fold_left (fun st r => handle_option Prog r st) opts st in
    VerbosityQuietnessDifferential (MainOpts st') =
    (VerbosityQuietnessDifferential (MainOpts st) -
     Z.of_nat (length (List.filter (is_option "q") opts)))%Z.
Proof.
  induction opts as [|r opts IH]; intros st Hv HV Hd Hn; simpl in *; [lia|].
  inversion Hv as [|? ? Hr Hrest]; subst.
  destruct (is_option "q" r) eqn:Hq.
  - apply is_option_true in Hq as [a ->]. simpl length in *.
    set (st1 := handle_option Prog (GetoptChar "q" a) st).
    assert (AnyVerboseFlag (MainOpts st1) = false /\
            VerbosityQuietnessDifferential (MainOpts st1) =
            (VerbosityQuietnessDifferential (MainOpts st) - 1)%Z) as [HV1 Hd1].
    { subst st1. cbn. rewrite HV. cbn. split; [done|].
      apply wrap_int8_small. lia. }
    rewrite IH; [|done|done|lia|lia]. lia.
  - destruct (handle_option_not_verbosity r st Hr Hq) as (HV' & _ & Hd').
    rewrite IH; [|done|congruence|lia|lia]. lia.
Qed.

Lemma filter_none (c : ascii) (opts : list getopt_result) :
  length (List.filter (is_option c) opts) = 0 ->
  Forall (fun r => is_option c r = false) opts.
Proof.
  induction opts as [|r opts IH]; simpl; [constructor|].
  destruct (is_option c r) eqn:Hr; simpl; [lia|]. intros Hn.
  constructor; [done|by apply IH].
Qed.

End OptionLoop.

(** X9.
    [-h] and [-V] end [main] before anything else is looked at.  With [-h]
    on the command line the help is shown and the exit status is 0.  Without
    [-h] and with [-V] the version is shown, and the features too when [-V]
    is there twice or more, and the exit status is 0; a third [-V] is an
    error of the command line, which is written to [std::cerr] and does not
    change the exit status. *)
Theorem help_and_version_exit `{frontend.Collaborators} (Prog : string)
    (opts : list frontend.getopt_result) (args : list string) :
  let st := frontend.parse_options Prog opts in
  let written := map frontend.Cerr (frontend.cerr st) in
  let n := length (List.filter (frontend.is_option "V") opts) in
  ((exists a, frontend.GetoptChar "h" a ∈ opts) ->
   frontend.main Prog opts args = (written ++ [frontend.PrintHelp], 0%Z)) /\
  ((forall a, frontend.GetoptChar "h" a ∉ opts) -> 1 <= n ->
   frontend.main Prog opts args =
   (written ++ frontend.PrintVersion ::
      (if 2 <=? n then [frontend.PrintFeatures] else []), 0%Z) /\
   (3 <= n -> frontend.HadErrors st = true)).
Proof.
  intros st written n. split.
  - intros [a Ha]. unfold frontend.main.
    by rewrite (parse_options_help Prog opts a Ha).
  - intros Hh Hn.
    destruct (parse_version_count Prog opts frontend.initial 0)
      as (HV & HE & Herr); [done|done|lia|].
    cbn [Nat.add] in HV, HE, Herr.
    change (fold_left _ opts frontend.initial) with st in HV, HE, Herr.
    change (length _) with n in HV, HE, Herr.
    split; [|done]. unfold frontend.main.
    rewrite (parse_options_ShowHelp Prog opts Hh).
    change (frontend.parse_options Prog opts) with st.
    rewrite HV, HE.
    replace (1 <=? n) with true by (symmetry; by apply Nat.leb_le).
    done.
Qed.

(** [monomux -V -V -V -d -D]. *)
Lemma help_and_version_exit_witness :
  let opts :=
    [frontend.GetoptChar "V" ""; frontend.GetoptChar "V" "";
     frontend.GetoptChar "V" ""; frontend.GetoptChar "d" "";
     frontend.GetoptChar "D" ""] in
  @frontend.main lonely "monomux" opts [] =
  ([frontend.Cerr
      ("monomux: option '-V' cannot be repeated this many times" ++
       String "010" "")%string;
    frontend.PrintVersion; frontend.PrintFeatures], 0%Z) /\
  @frontend.main lonely "monomux" (opts ++ [frontend.GetoptChar "h" ""]) [] =
  ([frontend.Cerr
      ("monomux: option '-V' cannot be repeated this many times" ++
       String "010" "")%string;
    frontend.PrintHelp], 0%Z).
Proof.
  intros opts. split.
  - refine (proj1 (proj2 (@help_and_version_exit lonely "monomux" opts []) _ _)).
    + intros a Hin%list_elem_of_In. simpl in Hin.
      destruct Hin as [|[|[|[|[|[]]]]]]; discriminate.
    + repeat constructor.
  - refine (proj1 (@help_and_version_exit lonely "monomux"
                     (opts ++ [frontend.GetoptChar "h" ""]) []) _).
    exists ""%string. apply list_elem_of_In. simpl. auto 10.
Defined.

(** X10.
    [-v] and [-q] on one command line are an error of the command line: when
    neither the help nor the version is asked for, [main] ends with
    [InvocationError] and has done nothing but write to [std::cerr]. *)
Theorem verbose_quiet_exclusive `{frontend.Collaborators} (Prog : string)
    (opts : list frontend.getopt_result) (args : list string)
    (a b : string) :
  frontend.GetoptChar "v" a ∈ opts ->
  frontend.GetoptChar "q" b ∈ opts ->
  (forall optarg, frontend.GetoptChar "h" optarg ∉ opts) ->
  (forall optarg, frontend.GetoptChar "V" optarg ∉ opts) ->
  frontend.HadErrors (frontend.parse_options Prog opts) = true /\
  exists errors : list string,
    frontend.main Prog opts args =
    (map frontend.Cerr errors,
     frontend.exit_status frontend.InvocationError).
Proof.
  intros Hv Hq Hh HV.
  pose proof (parse_options_verbose_quiet Prog opts a b Hv Hq) as HE.
  split; [done|].
  destruct (main_with_errors Prog opts args
              (parse_options_ShowHelp Prog opts Hh)
              (parse_options_ShowVersion Prog opts HV) HE) as [more Hmain].
  eauto.
Qed.

(** [monomux -v -v -q]. *)
Lemma verbose_quiet_exclusive_witness :
  let opts :=
    [frontend.GetoptChar "v" ""; frontend.GetoptChar "v" "";
     frontend.GetoptChar "q" ""] in
  @frontend.main lonely "monomux" opts [] =
  ([frontend.Cerr
      ("monomux: option '-q/--quiet' meaningless if '-v/--verbose' " ++
       "was also supplied" ++ String "010" "")%string], 1%Z) /\
  @frontend.HadErrors (@frontend.parse_options lonely "monomux" opts) = true.
Proof.
  intros opts. split; [reflexivity|].
  refine (proj1 (@verbose_quiet_exclusive lonely "monomux" opts [] "" ""
                   _ _ _ _)).
  - apply list_elem_of_In. simpl. auto.
  - apply list_elem_of_In. simpl. auto.
  - intros optarg Hin%list_elem_of_In. simpl in Hin.
    destruct Hin as [|[|[|[]]]]; discriminate.
  - intros optarg Hin%list_elem_of_In. simpl in Hin.
    destruct Hin as [|[|[|[]]]]; discriminate.
Defined.

(** X11.
    The severity of the logger: [-v] given [v] times and no [-q] raises it
    from the default by [v], and by no more than [MaximumVerbosity]; [-q]
    given [q] times and no [-v] lowers it by [q], and by no more than
    [MinimumVerbosity].  The count is kept in a [std::int8_t]: the statement
    is for counts that it holds. *)
Theorem verbosity_clamped `{frontend.Collaborators} (Prog : string)
    (opts : list frontend.getopt_result) :
  (0 <= frontend.MaximumVerbosity <= 127)%Z ->
  (0 <= frontend.MinimumVerbosity <= 128)%Z ->
  let m := frontend.chooseSeverity
             (frontend.MainOpts (frontend.parse_options Prog opts)) in
  let v := Z.of_nat (length (List.filter (frontend.is_option "v") opts)) in
  let q := Z.of_nat (length (List.filter (frontend.is_option "q") opts)) in
  (q = 0%Z -> (v <= 127)%Z ->
   frontend.Severity m =
   (frontend.Default + Z.min v frontend.MaximumVerbosity)%Z) /\
  (v = 0%Z -> (q <= 128)%Z ->
   frontend.Severity m =
   (frontend.Default - Z.min q frontend.MinimumVerbosity)%Z).
Proof.
  intros HMax HMin m v q. split.
  - intros Hq Hv.
    assert (frontend.VerbosityQuietnessDifferential
              (frontend.MainOpts (frontend.parse_options Prog opts)) = v)
      as Hd.
    { unfold frontend.parse_options.
      rewrite (parse_verbose_count Prog opts frontend.initial);
        [done|apply filter_none; lia|done|done|simpl; lia]. }
    subst m. unfold frontend.chooseSeverity. cbn [frontend.Severity].
    rewrite Hd.
    destruct (Z.ltb_spec frontend.MaximumVerbosity v) as [Hlt|Hge].
    + rewrite wrap_int8_small by lia. lia.
    + destruct (Z.ltb_spec v (- frontend.MinimumVerbosity)); lia.
  - intros Hv Hq.
    assert (frontend.VerbosityQuietnessDifferential
              (frontend.MainOpts (frontend.parse_options Prog opts)) = (- q)%Z)
      as Hd.
    { unfold frontend.parse_options.
      rewrite (parse_quiet_count Prog opts frontend.initial);
        [done|apply filter_none; lia|done|done|simpl; lia]. }
    subst m. unfold frontend.chooseSeverity. cbn [frontend.Severity].
    rewrite Hd.
    destruct (Z.ltb_spec frontend.MaximumVerbosity (- q)) as [Hlt|Hge];
      [lia|].
    destruct (Z.ltb_spec (- q) (- frontend.MinimumVerbosity)) as [Hlt|Hge'].
    + rewrite wrap_int8_small by lia. lia.
    + lia.
Qed.

(** [monomux -v -v -v] where the logger has two levels above the default, and
    [monomux -q]. *)
Lemma verbosity_clamped_witness :
  let vvv :=
    [frontend.GetoptChar "v" ""; frontend.GetoptChar "v" "";
     frontend.GetoptChar "v" ""] in
  let q := [frontend.GetoptChar "q" ""] in
  (0 <= @frontend.MaximumVerbosity lonely <= 127)%Z /\
  (0 <= @frontend.MinimumVerbosity lonely <= 128)%Z /\
  frontend.Severity
    (@frontend.chooseSeverity lonely
       (frontend.MainOpts (@frontend.parse_options lonely "monomux" vvv))) =
  5%Z /\
  frontend.Severity
    (@frontend.chooseSeverity lonely
       (frontend.MainOpts (@frontend.parse_options lonely "monomux" q))) =
  2%Z.
Proof.
  intros vvv q.
  assert (0 <= @frontend.MaximumVerbosity lonely <= 127)%Z as HMax
    by (simpl; lia).
  assert (0 <= @frontend.MinimumVerbosity lonely <= 128)%Z as HMin
    by (simpl; lia).
  split; [exact HMax|]. split; [exact HMin|]. split.
  - apply (proj1 (@verbosity_clamped lonely "monomux" vvv HMax HMin));
      simpl; lia.
  - apply (proj2 (@verbosity_clamped lonely "monomux" q HMax HMin));
      simpl; lia.
Defined.

(** ** The positional arguments and the environment of the program *)

Section Program.
Context `{frontend.Collaborators}.
Variable Prog : string.

Import frontend.

(** The program that the client is to start, as the options stand. *)
Lemma withClient_setProgram_twice (X Y : option Process.SpawnOptions)
    (st : State) :
  withClient (setProgram X) (withClient (setProgram Y) st) =
  withClient (setProgram X) st.
Proof. by destruct st as [m s [] e c]. Qed.

Lemma withClient_setProgram_same (so : Process.SpawnOptions) (st : State) :
  client.Program (ClientOpts st) = Some so ->
  withClient (setProgram (Some so)) st = st.
Proof. destruct st as [m s [] e c]. simpl. by intros ->. Qed.

Lemma withClient_updProgram
    (f : Process.SpawnOptions -> Process.SpawnOptions) (st : State) :
  withClient (updProgram f) st =
  withClient
    (setProgram
       (Some (f (default Process.SpawnOptions_default
                   (client.Program (ClientOpts st))))))
    st.
Proof. by destruct st as [m s [] e c]. Qed.

(** Once the program has its name, the arguments are added in order. *)
Lemma positional_arguments_added (rest : list string) :
  forall (st : State) (so : Process.SpawnOptions),
    server.ServerMode (ServerOpts st) = false ->
    client.Program (ClientOpts st) = Some so ->
    Process.Program so <> ""%string ->
    positional Prog rest st =
    withClient
      (setProgram
         (Some (Process.mkSpawnOptions (Process.Program so)
                  (Process.Arguments so ++ rest) (Process.Environment so))))
      st.
Proof.
  induction rest as [|arg rest IH]; intros st so HS HP Hne; simpl.
  - rewrite app_nil_r. symmetry. apply withClient_setProgram_same.
    by destruct so.
  - rewrite HS, withClient_updProgram, HP. simpl.
    destruct (String.eqb_spec (Process.Program so) "") as [|_]; [done|].
    rewrite (IH _ (addArgument arg so)); [|done|by destruct st as [m s []]|done].
    rewrite withClient_setProgram_twice. simpl. by rewrite <- app_assoc.
Qed.

(** What an option does to the environment of the program. *)
Lemma handle_option_environment (r : getopt_result) (st : State) :
  Process.Environment
    (default Process.SpawnOptions_default
       (client.Program (ClientOpts (handle_option Prog r st)))) =
  match variable_of r with
  | Some (k, v) =>
      Process.emplace k v
        (Process.Environment
           (default Process.SpawnOptions_default
              (client.Program (ClientOpts st))))
  | None =>
      Process.Environment
        (default Process.SpawnOptions_default (client.Program (ClientOpts st)))
  end.
Proof.
  destruct r as [i|Opt optarg]; unfold handle_option, variable_of.
  - destruct (String.eqb _ "server"); [by destruct st as [m s []]|].
    destruct (String.eqb _ "statistics"); [by destruct st as [m s []]|done].
  - unfold ascii_eqb.
    repeat match goal with
           | |- context [Ascii.eqb Opt ?c] =>
               destruct (Ascii.eqb_spec Opt c); [subst Opt|]
           end; try done;
      try (destruct st as [m s []]; simpl;
           repeat match goal with
                  | |- context [if ?b then _ else _] => destruct b
                  end; done).
    destruct (index 0 "=" optarg); [|done]. by destruct st as [m s []].
Qed.

Lemma emplace_other (k k' : string) (v : option string)
    (m : gmap string (option string)) :
  k <> k' -> Process.emplace k' v m !! k = m !! k.
Proof.
  intros Hne. unfold Process.emplace.
  destruct (m !! k'); [done|]. by rewrite lookup_insert_ne.
Qed.

Lemma emplace_kept (k k' : string) (v v' : option string)
    (m : gmap string (option string)) :
  m !! k = Some v -> Process.emplace k' v' m !! k = Some v.
Proof.
  intros Hk. unfold Process.emplace.
  destruct (m !! k') eqn:Hk'; [done|].
  rewrite lookup_insert_ne; [done|]. intros ->. congruence.
Qed.

Lemma emplace_new (k : string) (v : option string)
    (m : gmap string (option string)) :
  m !! k = None -> Process.emplace k v m !! k = Some v.
Proof.
  intros Hk. unfold Process.emplace. rewrite Hk. by rewrite lookup_insert_eq.
Qed.

Lemma parse_environment_kept (opts : list getopt_result) :
  forall (st : State) (k : string) (v : option string),
    Process.Environment
      (default Process.SpawnOptions_default (client.Program (ClientOpts st)))
      !! k = Some v ->
    Process.Environment
      (default Process.SpawnOptions_default
         (client.Program
            (ClientOpts
               (fold_left (fun st r => handle_option Prog r st) opts st))))
      !! k = Some v.
Proof.
  induction opts as [|r opts IH]; intros st k v Hk; simpl; [done|].
  apply IH. rewrite handle_option_environment.
  destruct (variable_of r) as [[k' v']|]; [|done]. by apply emplace_kept.
Qed.

Lemma parse_environment_untouched (opts : list getopt_result) :
  forall (st : State) (k : string),
    Forall (fun r => forall v, variable_of r <> Some (k, v)) opts ->
    Process.Environment
      (default Process.SpawnOptions_default
         (client.Program
            (ClientOpts
               (fold_left (fun st r => handle_option Prog r st) opts st))))
      !! k =
    Process.Environment
      (default Process.SpawnOptions_default (client.Program (ClientOpts st)))
      !! k.
Proof.
  induction opts as [|r opts IH]; intros st k Hno; simpl; [done|].
  inversion Hno as [|? ? Hr Hrest]; subst.
  rewrite IH by done. rewrite handle_option_environment.
  destruct (variable_of r) as [[k' v']|] eqn:Hvar; [|done].
  apply emplace_other. intros <-. by apply (Hr v').
Qed.

(** ** What [main] starts *)

Lemma positional_keeps_modes (args : list string) :
  forall st : State,
    ServerOpts (positional Prog args st) = ServerOpts st /\
    client.ClientMode (ClientOpts (positional Prog args st)) =
      client.ClientMode (ClientOpts st).
Proof.
  induction args as [|arg args IH]; intros st; simpl; [done|].
  destruct (server.ServerMode (ServerOpts st)); [done|].
  set (st' := withClient _ st). destruct (IH st') as [-> ->].
  subst st'. by destruct st as [m s []].
Qed.

(** The events of [dispatch]: the server is run in the server mode and with
    a socket path, and so is the client in its mode. *)
Lemma dispatch_events (st : State) (e : event) :
  (server.ServerMode (ServerOpts st) = false ->
   client.ClientMode (ClientOpts st) = true) ->
  e ∈ (dispatch st).1 ->
  match e with
  | ServerMain o | ForkServerExec o =>
      server.ServerMode o = true /\ is_Some (server.SocketPath o)
  | ClientMain c =>
      client.ClientMode c = true /\ is_Some (client.SocketPath c)
  | _ => True
  end.
Proof.
  intros Hmode. unfold dispatch.
  set (ClientOpts1 := if _ && _ then _ else ClientOpts st).
  assert (client.ClientMode ClientOpts1 = client.ClientMode (ClientOpts st))
    as HC1.
  { subst ClientOpts1. destruct (_ && _); [|done].
    by destruct loadFromEnv; [destruct (ClientOpts st)|]. }
  set (SocketPath := match client.SocketPath ClientOpts1 with
                     | Some p => absolutise p
                     | None => defaultSocketPath
                     end).
  destruct (server.ServerMode (ServerOpts st)) eqn:HS; simpl; rewrite ?HS.
  - intros [->|[->|[]%elem_of_nil]%elem_of_cons]%elem_of_cons; [done|].
    simpl. eauto.
  - specialize (Hmode eq_refl).
    set (ClientOpts2 := setSocketPath (Some SocketPath) ClientOpts1).
    assert (client.ClientMode ClientOpts2 = true /\
            is_Some (client.SocketPath ClientOpts2)) as HC2.
    { subst ClientOpts2. split; [|simpl; eauto].
      rewrite <- Hmode, <- HC1. by destruct ClientOpts1. }
    destruct (client_connect ClientOpts2 false); simpl.
    + intros [->|[->|[->|[]%elem_of_nil]%elem_of_cons]%elem_of_cons]%elem_of_cons;
        done.
    + destruct (isControlMode ClientOpts2); simpl.
      * intros [->|[->|[->|[]%elem_of_nil]%elem_of_cons]%elem_of_cons]%elem_of_cons;
          done.
      * destruct (client_connect ClientOpts2 true); simpl;
          intros Hin; repeat (apply elem_of_cons in Hin as [->|Hin]);
          try done; try (simpl; by eauto); by apply elem_of_nil in Hin.
Qed.

End Program.

(** [-e VAR=VAL] is cut at its first ['=']. *)
Lemma variable_of_env (k v : string) :
  String.index 0 "=" k = None ->
  frontend.variable_of (frontend.GetoptChar "e" (k ++ "=" ++ v)%string) =
  Some (k, Some v).
Proof.
  intros Hk. unfold frontend.variable_of. cbn [Ascii.eqb Bool.eqb].
  change (k ++ "=" ++ v)%string with (k ++ String "=" v)%string.
  rewrite (index_app_char "=" k v Hk), substring_app_front, substring_after.
  done.
Qed.

(** X12.
    The loop over the positional arguments in the client: the first argument
    that is not empty is the program to start, and the arguments after it
    are its arguments, in their order; empty arguments before it are passed
    over, since an empty name counts as no name. *)
Theorem positional_arguments (Prog : string) (st : frontend.State) (n : nat)
    (p : string) (rest : list string) :
  let so :=
    default Process.SpawnOptions_default
      (client.Program (frontend.ClientOpts st)) in
  server.ServerMode (frontend.ServerOpts st) = false ->
  Process.Program so = ""%string ->
  p <> ""%string ->
  frontend.positional Prog (replicate n ""%string ++ p :: rest) st =
  frontend.withClient
    (frontend.setProgram
       (Some (Process.mkSpawnOptions p (Process.Arguments so ++ rest)
                (Process.Environment so))))
    st.
Proof.
  revert st.
  induction n as [|n IH]; intros st so HS HP Hne; simpl.
  - rewrite HS, withClient_updProgram. fold so. rewrite HP. simpl.
    rewrite (positional_arguments_added Prog rest _
               (frontend.setProgramName p so));
      [|done|by destruct st as [m s []]|done].
    by rewrite withClient_setProgram_twice.
  - rewrite HS, withClient_updProgram. fold so. rewrite HP. simpl.
    rewrite IH; [|done|by destruct st as [m s []]|done].
    rewrite withClient_setProgram_twice.
    by destruct st as [m s []].
Qed.

(** [monomux "" /bin/zsh -l]. *)
Lemma positional_arguments_witness :
  let st := @frontend.initial lonely in
  server.ServerMode (frontend.ServerOpts st) = false /\
  "/bin/zsh"%string <> ""%string /\
  client.Program
    (frontend.ClientOpts
       (frontend.positional "monomux" [""; "/bin/zsh"; "-l"]%string st)) =
  Some (Process.mkSpawnOptions "/bin/zsh" ["-l"%string] ∅).
Proof.
  intros st.
  assert ("/bin/zsh"%string <> ""%string) as Hne by discriminate.
  split; [reflexivity|]. split; [exact Hne|].
  change [""; "/bin/zsh"; "-l"]%string
    with (replicate 1 ""%string ++ "/bin/zsh"%string :: ["-l"%string]).
  rewrite (positional_arguments "monomux" st 1 "/bin/zsh" ["-l"%string]
             eq_refl eq_refl Hne).
  reflexivity.
Defined.

(** X13.
    [--server] takes no positional argument: with one on the command line,
    and neither the help nor the version asked for, the first of them is
    reported and [main] ends with [InvocationError]. *)
Theorem server_takes_no_positional `{frontend.Collaborators} (Prog : string)
    (opts : list frontend.getopt_result) (arg : string)
    (args : list string) :
  frontend.GetoptLong 3 ∈ opts ->
  (forall optarg, frontend.GetoptChar "h" optarg ∉ opts) ->
  (forall optarg, frontend.GetoptChar "V" optarg ∉ opts) ->
  exists errors : list string,
    frontend.main Prog opts (arg :: args) =
    (map frontend.Cerr
       (errors ++
        [(Prog ++ ": option '--server' does not take positional argument " ++
          String "034" "" ++ arg ++ String "034" "" ++ String "010" "")%string]),
     frontend.exit_status frontend.InvocationError).
Proof.
  intros Hs Hh HV.
  assert (server.ServerMode
            (frontend.ServerOpts (frontend.parse_options Prog opts)) = true)
    as HS.
  { apply list_elem_of_split in Hs as (l1 & l2 & ->).
    unfold frontend.parse_options. rewrite fold_left_app. simpl.
    apply (parse_keeps Prog
             (fun st => server.ServerMode (frontend.ServerOpts st) = true));
      [|done].
    intros r st _ Hst. rewrite handle_option_server.
    destruct r as [i|Opt optarg]; unfold frontend.server_step.
    - by destruct (String.eqb _ _).
    - destruct (frontend.ascii_eqb Opt "N"); [done|].
      by destruct (frontend.ascii_eqb Opt "k"). }
  unfold frontend.main.
  rewrite (parse_options_ShowHelp Prog opts Hh).
  rewrite (parse_options_ShowVersion Prog opts HV).
  set (st := frontend.parse_options Prog opts) in *.
  set (st0 := frontend.withMain frontend.chooseSeverity st).
  set (st1 := if _ && _ then _ else st0).
  assert (server.ServerMode (frontend.ServerOpts st1) = true) as HS1
    by (subst st1; by destruct (_ && _)).
  rewrite HS1. cbn [negb frontend.positional]. rewrite HS1.
  cbn [frontend.HadErrors frontend.ArgError frontend.cerr].
  eexists. reflexivity.
Qed.

(** [monomux --server bash]. *)
Lemma server_takes_no_positional_witness :
  let opts := [frontend.GetoptLong 3] in
  frontend.GetoptLong 3 ∈ opts /\
  @frontend.main lonely "monomux" opts ["bash"%string] =
  ([frontend.Cerr
      ("monomux: option '--server' does not take positional argument " ++
       String "034" "" ++ "bash" ++ String "034" "" ++ String "010" "")%string],
   1%Z) /\
  exists errors : list string,
    (@frontend.main lonely "monomux" opts ["bash"%string]).1 =
    map frontend.Cerr
      (errors ++
       [("monomux" ++
         ": option '--server' does not take positional argument " ++
         String "034" "" ++ "bash" ++ String "034" "" ++ String "010" "")%string]).
Proof.
  intros opts.
  assert (frontend.GetoptLong 3 ∈ opts) as Hs
    by (apply list_elem_of_In; simpl; auto).
  split; [exact Hs|]. split; [reflexivity|].
  destruct (@server_takes_no_positional lonely "monomux" opts "bash" [] Hs)
    as [errors Hmain].
  - intros optarg Hin%list_elem_of_In. simpl in Hin.
    destruct Hin as [|[]]; discriminate.
  - intros optarg Hin%list_elem_of_In. simpl in Hin.
    destruct Hin as [|[]]; discriminate.
  - exists errors. exact (f_equal fst Hmain).
Defined.

(** X14.
    The environment of the program to start: of the [-e] and [-u] on the
    command line that name a variable, the first counts, since
    [std::map::emplace] leaves an entry that is there. *)
Theorem environment_first_counts `{frontend.Collaborators} (Prog : string)
    (before after : list frontend.getopt_result)
    (r : frontend.getopt_result) (k : string) (v : option string) :
  Process.Environment
    (default Process.SpawnOptions_default
       (client.Program frontend.ClientOptions_default)) !! k = None ->
  Forall (fun r' => forall v', frontend.variable_of r' <> Some (k, v')) before ->
  frontend.variable_of r = Some (k, v) ->
  Process.Environment
    (default Process.SpawnOptions_default
       (client.Program
          (frontend.ClientOpts
             (frontend.parse_options Prog (before ++ r :: after))))) !! k =
  Some v.
Proof.
  intros Hinit Hbefore Hr. unfold frontend.parse_options.
  rewrite fold_left_app. simpl.
  apply parse_environment_kept. rewrite handle_option_environment, Hr.
  apply emplace_new. by rewrite parse_environment_untouched.
Qed.

(** [monomux -n work -e A=1 -u A -e A=2=3 -e B=x]: [A] is 1. *)
Lemma environment_first_counts_witness :
  let before := [frontend.GetoptChar "n" "work"] in
  let after :=
    [frontend.GetoptChar "u" "A"; frontend.GetoptChar "e" "A=2=3";
     frontend.GetoptChar "e" "B=x"] in
  let r := frontend.GetoptChar "e" "A=1" in
  frontend.variable_of r = Some ("A"%string, Some "1"%string) /\
  frontend.variable_of (frontend.GetoptChar "e" "A=2=3") =
    Some ("A"%string, Some "2=3"%string) /\
  Process.Environment
    (default Process.SpawnOptions_default
       (client.Program
          (frontend.ClientOpts
             (@frontend.parse_options lonely "monomux"
                (before ++ r :: after))))) !! "A"%string =
  Some (Some "1"%string).
Proof.
  intros before after r.
  split; [reflexivity|]. split; [reflexivity|].
  apply (@environment_first_counts lonely "monomux" before after r "A"
           (Some "1"%string)); [reflexivity| |reflexivity].
  repeat constructor. intros v'. discriminate.
Defined.

(** X15.
    Whatever the command line, [main] runs the server only in the server
    mode and with a socket path, which [server::main] takes without looking
    whether it is there; the same holds of the server that is started for a
    client, and the client is run in the client mode and with a socket
    path. *)
Theorem dispatch_modes `{frontend.Collaborators} (Prog : string)
    (opts : list frontend.getopt_result) (args : list string)
    (e : frontend.event) :
  e ∈ (frontend.main Prog opts args).1 ->
  match e with
  | frontend.ServerMain o | frontend.ForkServerExec o =>
      server.ServerMode o = true /\ is_Some (server.SocketPath o)
  | frontend.ClientMain c =>
      client.ClientMode c = true /\ is_Some (client.SocketPath c)
  | _ => True
  end.
Proof.
  unfold frontend.main.
  assert (forall (l : list string) (more : list frontend.event),
            (forall e', e' ∈ more ->
               match e' with
               | frontend.ServerMain o | frontend.ForkServerExec o =>
                   server.ServerMode o = true /\ is_Some (server.SocketPath o)
               | frontend.ClientMain c =>
                   client.ClientMode c = true /\ is_Some (client.SocketPath c)
               | _ => True
               end) ->
            e ∈ map frontend.Cerr l ++ more ->
            match e with
            | frontend.ServerMain o | frontend.ForkServerExec o =>
                server.ServerMode o = true /\ is_Some (server.SocketPath o)
            | frontend.ClientMain c =>
                client.ClientMode c = true /\ is_Some (client.SocketPath c)
            | _ => True
            end) as Hcerr.
  { intros l more Hmore [Hin|Hin]%elem_of_app; [|by apply Hmore].
    apply list_elem_of_fmap in Hin as (text & -> & _). done. }
  destruct (frontend.ShowHelp _).
  { simpl. apply Hcerr. by intros e' [->|[]%elem_of_nil]%elem_of_cons. }
  destruct (frontend.ShowVersion _).
  { simpl. apply Hcerr. intros e' [->|Hin]%elem_of_cons; [done|].
    destruct (frontend.ShowElaborateBuildInformation _);
      [by apply elem_of_cons in Hin as [->|[]%elem_of_nil]
      |by apply elem_of_nil in Hin]. }
  set (st := frontend.parse_options Prog opts).
  set (st0 := frontend.withMain frontend.chooseSeverity st).
  set (st1 := if _ && _ then _ else st0).
  set (st2 := if negb _ then _ else st1).
  assert (server.ServerMode (frontend.ServerOpts st2) = false ->
          client.ClientMode (frontend.ClientOpts st2) = true) as Hmode.
  { subst st2.
    destruct (server.ServerMode (frontend.ServerOpts st1)) eqn:HS; simpl;
      [by rewrite HS|].
    intros _. by destruct st1 as [m s []]. }
  destruct (positional_keeps_modes Prog args st2) as [HSO HCM].
  set (st3 := frontend.positional Prog args st2) in *.
  destruct (frontend.HadErrors st3).
  { simpl. rewrite <- (app_nil_r (map _ _)). apply Hcerr.
    by intros e' []%elem_of_nil. }
  destruct (frontend.dispatch st3) as [events status] eqn:Hd. simpl.
  apply Hcerr. intros e' [->|Hin]%elem_of_cons; [done|].
  apply (dispatch_events st3); [by rewrite HSO, HCM|by rewrite Hd].
Qed.

(** [monomux --server -N]: the server is run. *)
Lemma dispatch_modes_witness :
  let opts := [frontend.GetoptLong 3; frontend.GetoptChar "N" ""] in
  let o := server.mkOptions true false false (Some "/tmp/monomux.sock"%string) in
  @frontend.main lonely "monomux" opts [] =
  ([frontend.LoggerSetLimit 3; frontend.SignalHandlingEnable;
    frontend.ServerMain o], 0%Z) /\
  frontend.ServerMain o ∈ (@frontend.main lonely "monomux" opts []).1 /\
  server.ServerMode o = true /\ is_Some (server.SocketPath o).
Proof.
  intros opts o.
  assert (frontend.ServerMain o ∈ (@frontend.main lonely "monomux" opts []).1)
    as Hin by (apply list_elem_of_In; simpl; auto).
  split; [reflexivity|]. split; [exact Hin|].
  exact (@dispatch_modes lonely "monomux" opts [] (frontend.ServerMain o) Hin).
Defined.

(** ** Starting a program *)

Section Exec.

(** What the loop over [Opts.Environment] does to the environment. *)
Lemma exec_variable_environment (l : list (string * option string)) :
  forall acc : list string * Process.Env,
    (foldl Process.exec_variable acc l).2 =
    foldl (fun env E =>
             match E.2 with
             | None => Process.unsetenv E.1 env
             | Some V => Process.setenv E.1 V env
             end) acc.2 l.
Proof.
  induction l as [|E l IH]; intros acc; simpl; [done|].
  rewrite IH. unfold Process.exec_variable. by destruct (E.2).
Qed.

Lemma exec_outcome (execvp : list string -> option errc)
    (Opts : Process.SpawnOptions) (env : Process.Env) :
  exists clog : list string,
    Process.exec execvp Opts env =
    (clog,
     let env' :=
       foldl (fun env E =>
                match E.2 with
                | None => Process.unsetenv E.1 env
                | Some V => Process.setenv E.1 V env
                end) env (Process.in_key_order (Process.Environment Opts)) in
     match execvp (Process.NewArgv Opts) with
     | Some EC => Process.Thrown (system_error EC) env'
     | None => Process.Replaced (Process.mkImage (Process.NewArgv Opts) env')
     end).
Proof.
  unfold Process.exec.
  set (clog0 := _ ++ imap _ _).
  pose proof (exec_variable_environment
                (Process.in_key_order (Process.Environment Opts))
                (clog0, env)) as Henv.
  destruct (foldl Process.exec_variable _ _) as [clog env'] eqn:Hloop.
  simpl in Henv. rewrite <- Henv.
  destruct (execvp _); eauto.
Qed.

(** The loop over entries with distinct names that are C strings: what a
    variable is in the end. *)
Lemma environment_loop (k : string) (l : list (string * option string)) :
  forall env : Process.Env,
    NoDup l.*1 ->
    Forall (fun E => Process.c_str E.1 = E.1) l ->
    foldl (fun env E =>
             match E.2 with
             | None => Process.unsetenv E.1 env
             | Some V => Process.setenv E.1 V env
             end) env l !! k =
    match (list_to_map l : gmap string (option string)) !! k with
    | Some (Some V) =>
        if Process.valid_name k then Some (Process.c_str V) else env !! k
    | Some None => if Process.valid_name k then None else env !! k
    | None => env !! k
    end.
Proof.
  unfold Process.Env.
  induction l as [|[k' v'] l IH]; intros env Hnd Hc; simpl; [done|].
  inversion Hnd as [|? ? Hnotin Hnd']; subst.
  inversion Hc as [|? ? Hk' Hc']; subst. simpl in *.
  rewrite IH by done.
  destruct (decide (k = k')) as [->|Hne].
  - rewrite lookup_insert_eq.
    assert ((list_to_map l : gmap string (option string)) !! k' = None)
      as -> by (by apply not_elem_of_list_to_map_1).
    destruct v' as [V|];
      unfold Process.setenv, Process.unsetenv, Process.Env;
      rewrite Hk'; destruct (Process.valid_name k'); try done.
    + by rewrite lookup_insert_eq.
    + by rewrite lookup_delete_eq.
  - rewrite lookup_insert_ne by done.
    assert (forall e : gmap string string,
              match v' with
              | Some V => Process.setenv k' V e
              | None => Process.unsetenv k' e
              end !! k = e !! k) as Hother.
    { intros e. destruct v' as [V|];
        unfold Process.setenv, Process.unsetenv, Process.Env;
        rewrite Hk'; destruct (Process.valid_name k'); try done.
      - by rewrite lookup_insert_ne.
      - by rewrite lookup_delete_ne. }
    rewrite Hother. done.
Qed.

Lemma in_key_order_map (m : gmap string (option string)) :
  NoDup (Process.in_key_order m).*1 /\
  list_to_map (Process.in_key_order m) = m /\
  (map_Forall (fun k _ => Process.c_str k = k) m ->
   Forall (fun E => Process.c_str E.1 = E.1) (Process.in_key_order m)).
Proof.
  unfold Process.in_key_order.
  match goal with
  | |- context [merge_sort ?R ?l] =>
      pose proof (merge_sort_Permutation R l) as Hperm;
      set (sorted := merge_sort R l) in *
  end.
  assert (NoDup sorted.*1) as Hnd
    by (rewrite Hperm; apply NoDup_fst_map_to_list).
  split; [done|]. split.
  - transitivity (list_to_map (map_to_list m) : gmap string (option string));
      [by apply list_to_map_proper|apply list_to_map_to_list].
  - intros Hm. rewrite Hperm. apply Forall_forall.
    intros [k v] Hin%elem_of_map_to_list. by apply (Hm k v).
Qed.

End Exec.

(** X16.
    [Process::exec] and the environment.  Whether the program is started or
    [execvp] fails, the process has by then the environment that
    [Opts.Environment] asks for: a variable that it gives a value has that
    value, a variable that it wants unset is not set, and every other
    variable is as it was; a name that [setenv] and [unsetenv] refuse (the
    empty one, one with ['='] in it) changes nothing.  The names are taken to
    be such as a command line gives them: without a NUL in them. *)
Theorem exec_environment (execvp : list string -> option errc)
    (Opts : Process.SpawnOptions) (env : Process.Env) (k : string) :
  map_Forall (fun k' _ => Process.c_str k' = k') (Process.Environment Opts) ->
  let env' :=
    match (Process.exec execvp Opts env).2 with
    | Process.Replaced image => Process.environ image
    | Process.Thrown _ env' => env'
    end in
  env' !! k =
  match Process.Environment Opts !! k with
  | Some (Some V) =>
      if Process.valid_name k then Some (Process.c_str V) else env !! k
  | Some None => if Process.valid_name k then None else env !! k
  | None => env !! k
  end.
Proof.
  intros Hkeys.
  destruct (exec_outcome execvp Opts env) as [clog ->]. simpl.
  destruct (in_key_order_map (Process.Environment Opts))
    as (Hnd & Hmap & Hc).
  pose proof (environment_loop k _ env Hnd (Hc Hkeys)) as Hloop.
  rewrite Hmap in Hloop. rewrite <- Hloop.
  by destruct (execvp _).
Qed.

(** A program started with [A] unset and [B] set, from a process that has
    [A] and [C]. *)
Lemma exec_environment_witness :
  let Opts :=
    Process.mkSpawnOptions "/bin/sh" ["-c"; "env"]%string
      (<["B"%string := Some "1"%string]> (<["A"%string := None]> ∅)) in
  let env : Process.Env :=
    <["A"%string := "old"%string]> (<["C"%string := "kept"%string]> ∅) in
  map_Forall (fun k' _ => Process.c_str k' = k') (Process.Environment Opts) /\
  exists clog image,
    Process.exec (fun _ => None) Opts env = (clog, Process.Replaced image) /\
    Process.argv image = ["/bin/sh"; "-c"; "env"]%string /\
    Process.environ image !! "A"%string = None /\
    Process.environ image !! "B"%string = Some "1"%string /\
    Process.environ image !! "C"%string = Some "kept"%string.
Proof.
  intros Opts env.
  assert (map_Forall (fun k' (_ : option string) => Process.c_str k' = k')
            (Process.Environment Opts)) as Hkeys.
  { intros k' v Hk'. simpl in Hk'.
    apply lookup_insert_Some in Hk' as [[<- _]|[_ Hk']]; [reflexivity|].
    apply lookup_insert_Some in Hk' as [[<- _]|[_ Hk']]; [reflexivity|].
    by rewrite lookup_empty in Hk'. }
  split; [exact Hkeys|].
  pose proof (fun k => exec_environment (fun _ => None) Opts env k Hkeys)
    as Hlookup.
  destruct (Process.exec (fun _ => None) Opts env) as [clog fate] eqn:Hrun.
  assert (exists image, fate = Process.Replaced image /\
            Process.argv image = ["/bin/sh"; "-c"; "env"]%string)
    as (image & -> & Hargv).
  { destruct (exec_outcome (fun _ => None) Opts env) as [clog' Heq].
    rewrite Hrun in Heq. injection Heq as _ ->. eauto. }
  exists clog, image. split; [reflexivity|]. split; [exact Hargv|].
  simpl in Hlookup. split; [|split].
  - exact (Hlookup "A"%string).
  - exact (Hlookup "B"%string).
  - exact (Hlookup "C"%string).
Defined.

(** X17.
    The server that [main] starts for a client when none answers: the
    process runs [server::exec], which runs the program again with the
    options of the server turned into arguments by [toArgv].  The new
    program finds in its arguments the options that were turned into them,
    and runs [server::main] with them, the socket path made absolute.
    [toArgv] has no word for a server in the foreground that stops with its
    last session, which no command line asks for either; the names are taken
    to be without a NUL in them, and the default options of the client to ask
    for no detaching. *)
Theorem server_restart_round_trip `{frontend.Collaborators}
    (execvp : list string -> option errc) (Opts : server.Options)
    (ArgV0 p : string) (env : Process.Env) :
  server.ServerMode Opts = true ->
  server.SocketPath Opts = Some p ->
  (server.Background Opts = false ->
   server.ExitOnLastSessionTerminate Opts = false) ->
  Process.c_str ArgV0 = ArgV0 ->
  Process.c_str p = p ->
  execvp (ArgV0 :: server.toArgv Opts) = None ->
  client.DetachRequestLatest frontend.ClientOptions_default &&
    client.DetachRequestAll frontend.ClientOptions_default = false ->
  exists (clog : list string) (opts : list frontend.getopt_result),
    server.exec execvp Opts ArgV0 env =
      (clog, Process.Replaced
               (Process.mkImage (ArgV0 :: server.toArgv Opts) env)) /\
    frontend.getopt_long_words (server.toArgv Opts) = Some opts /\
    let Opts' :=
      frontend.setServerSocketPath (Some (frontend.absolutise p)) Opts in
    frontend.main ArgV0 opts [] =
    ([frontend.LoggerSetLimit
        (frontend.Severity
           (frontend.chooseSeverity frontend.MainOptions_default));
      frontend.SignalHandlingEnable; frontend.ServerMain Opts'],
     frontend.server_main Opts').
Proof.
  intros HS HP Himplies HA Hp Hexec Hdetach.
  destruct Opts as [sm bg ex sp]. simpl in HS, HP, Himplies. subst sm sp.
  assert (Process.NewArgv
            (Process.mkSpawnOptions ArgV0
               (server.toArgv (server.mkOptions true bg ex (Some p))) ∅) =
          ArgV0 :: server.toArgv (server.mkOptions true bg ex (Some p)))
    as Hargv.
  { unfold Process.NewArgv. cbn [Process.Program Process.Arguments].
    rewrite HA. f_equal. unfold server.toArgv.
    cbn [server.ServerMode server.SocketPath server.Background
         server.ExitOnLastSessionTerminate].
    destruct bg, ex; cbn; by rewrite Hp. }
  unfold server.exec.
  destruct (exec_outcome execvp
              (Process.mkSpawnOptions ArgV0
                 (server.toArgv (server.mkOptions true bg ex (Some p))) ∅)
              env) as [clog Hrun].
  rewrite Hargv, Hexec in Hrun.
  cbn [Process.Environment] in Hrun. unfold Process.in_key_order in Hrun.
  rewrite map_to_list_empty in Hrun. cbn in Hrun.
  exists clog.
  assert (bg = false -> ex = false) as Hbe by done. clear Himplies.
  unfold frontend.main.
  destruct bg, ex; try (by specialize (Hbe eq_refl));
    (eexists; split; [exact Hrun|]; split; [reflexivity|]);
    cbn; rewrite Hdetach; cbn; rewrite andb_false_r; reflexivity.
Qed.

(** The server that [monomux] starts, with [-N] given: it is run as
    [monomux --server --socket /tmp/monomux.sock --no-daemon --keepalive]. *)
Lemma server_restart_round_trip_witness :
  let Opts := server.mkOptions true false false (Some "/tmp/monomux.sock"%string) in
  let words :=
    ["--server"; "--socket"; "/tmp/monomux.sock"; "--no-daemon";
     "--keepalive"]%string in
  server.toArgv Opts = words /\
  (server.Background Opts = false ->
   server.ExitOnLastSessionTerminate Opts = false) /\
  exists (clog : list string) (opts : list frontend.getopt_result),
    server.exec (fun _ => None) Opts "monomux" ∅ =
      (clog, Process.Replaced (Process.mkImage ("monomux"%string :: words) ∅)) /\
    frontend.getopt_long_words words = Some opts /\
    @frontend.main lonely "monomux" opts [] =
    ([frontend.LoggerSetLimit 3; frontend.SignalHandlingEnable;
      frontend.ServerMain Opts], 0%Z).
Proof.
  intros Opts words.
  split; [reflexivity|]. split; [reflexivity|].
  destruct (@server_restart_round_trip lonely (fun _ => None) Opts "monomux"
              "/tmp/monomux.sock" ∅ eq_refl eq_refl (fun _ => eq_refl)
              eq_refl eq_refl eq_refl eq_refl)
    as (clog & opts & Hexec & Hwords & Hmain).
  exists clog, opts. split; [exact Hexec|]. split; [exact Hwords|exact Hmain].
Defined.

(** ** The text of the configuration *)

Section Cleanup.

Local Open Scope string_scope.

(** Whether a text begins with a newline. *)
Lemma one_newline_per_run_cons (c : ascii) (s : string) :
  Config.one_newline_per_run (String c s) =
  if Ascii.eqb c "010" &&
     match s with String c' _ => Ascii.eqb c' "010" | EmptyString => false end
  then Config.one_newline_per_run s
  else String c (Config.one_newline_per_run s).
Proof.
  destruct s as [|c' s]; simpl; [by rewrite andb_false_r|done].
Qed.

Lemma prefix_cons (a b : ascii) (s1 s2 : string) :
  String.prefix (String a s1) (String b s2) =
  if ascii_dec a b then String.prefix s1 s2 else false.
Proof. done. Qed.

Lemma prefix_DoubleNewline (c : ascii) (s : string) :
  String.prefix Config.DoubleNewline (String c s) =
  Ascii.eqb c "010" &&
  match s with String c' _ => Ascii.eqb c' "010" | EmptyString => false end.
Proof.
  change Config.DoubleNewline with (String "010" (String "010" "")).
  rewrite prefix_cons.
  destruct (ascii_dec "010" c) as [<-|Hne];
    [|by destruct (Ascii.eqb_spec c "010")].
  destruct s as [|c' s]; [done|]. rewrite prefix_cons.
  destruct (ascii_dec "010" c') as [<-|Hne']; [by destruct s|].
  by destruct (Ascii.eqb_spec c' "010").
Qed.

Lemma index_DoubleNewline_cons (c : ascii) (s : string) :
  String.index 0 Config.DoubleNewline (String c s) =
  if String.prefix Config.DoubleNewline (String c s) then Some 0
  else match String.index 0 Config.DoubleNewline s with
       | Some n => Some (S n)
       | None => None
       end.
Proof. done. Qed.

Lemma index_DoubleNewline_nil :
  String.index 0 Config.DoubleNewline "" = None.
Proof. done. Qed.

(** The first character stays. *)
Lemma one_newline_per_run_head (s : string) :
  match Config.one_newline_per_run s with
  | String c' _ => Ascii.eqb c' "010"
  | EmptyString => false
  end =
  match s with String c' _ => Ascii.eqb c' "010" | EmptyString => false end.
Proof.
  induction s as [|c s IH]; [done|].
  rewrite one_newline_per_run_cons.
  destruct (Ascii.eqb c "010") eqn:Hc; [|done].
  destruct s as [|c' s]; [done|]. cbn [andb].
  destruct (Ascii.eqb c' "010") eqn:Hc'; [|by rewrite Hc].
  by rewrite IH.
Qed.

(** A text without two newlines in a row is left as it is. *)
Lemma one_newline_per_run_clean (s : string) :
  String.index 0 Config.DoubleNewline s = None ->
  Config.one_newline_per_run s = s.
Proof.
  induction s as [|c s IH]; [done|].
  rewrite index_DoubleNewline_cons, one_newline_per_run_cons.
  rewrite prefix_DoubleNewline.
  destruct (_ && _); [done|].
  destruct (String.index 0 Config.DoubleNewline s); [done|].
  intros _. by rewrite IH.
Qed.

(** The result has no two newlines in a row. *)
Lemma one_newline_per_run_done (s : string) :
  String.index 0 Config.DoubleNewline (Config.one_newline_per_run s) = None.
Proof.
  induction s as [|c s IH]; [done|].
  rewrite one_newline_per_run_cons.
  destruct (_ && _) eqn:Hc; [done|].
  rewrite index_DoubleNewline_cons, prefix_DoubleNewline.
  rewrite one_newline_per_run_head, Hc. by rewrite IH.
Qed.

Lemma substring_cons (n : nat) (c : ascii) (s : string) :
  String.substring 0 (S n) (String c s) = String c (String.substring 0 n s).
Proof. done. Qed.

Lemma replace_cons (P : nat) (c : ascii) (s : string) :
  Config.replace (S P) 2 Config.SingleNewline (String c s) =
  String c (Config.replace P 2 Config.SingleNewline s).
Proof. done. Qed.

Lemma replace_front (s : string) :
  Config.replace 0 2 Config.SingleNewline (String "010" (String "010" s)) =
  String "010" s.
Proof.
  unfold Config.replace. simpl String.substring.
  rewrite Nat.sub_0_r.
  change (Config.SingleNewline ++ String.substring 0 (String.length s) s)
    with (String "010" (String.substring 0 (String.length s) s)).
  change ("" ++ ?x) with x.
  by rewrite substring_whole.
Qed.

(** One turn of the loop: the text is one character shorter, and has the
    same runs of newlines made one. *)
Lemma replace_turn (s : string) :
  forall P : nat,
    String.index 0 Config.DoubleNewline s = Some P ->
    let s' := Config.replace P 2 Config.SingleNewline s in
    S (String.length s') = String.length s /\
    Config.one_newline_per_run s' = Config.one_newline_per_run s /\
    match s' with String c' _ => Ascii.eqb c' "010" | EmptyString => false end =
    match s with String c' _ => Ascii.eqb c' "010" | EmptyString => false end.
Proof.
  induction s as [|c s IH]; intros P; [done|].
  rewrite index_DoubleNewline_cons.
  destruct (String.prefix Config.DoubleNewline (String c s)) eqn:Hpre.
  - intros [= <-]. rewrite prefix_DoubleNewline in Hpre.
    apply andb_true_iff in Hpre as [Hc%Ascii.eqb_eq Hs]. subst c.
    destruct s as [|c' s]; [done|]. apply Ascii.eqb_eq in Hs as ->.
    cbv zeta. rewrite replace_front.
    split; [done|]. split; [|done].
    by rewrite (one_newline_per_run_cons "010" (String "010" s)).
  - destruct (String.index 0 Config.DoubleNewline s) as [P'|] eqn:HP';
      [|done].
    intros [= <-]. cbv zeta. rewrite replace_cons.
    destruct (IH P' eq_refl) as (Hlen & Hrun & Hhead).
    split; [cbn [String.length]; by f_equal|]. split; [|done].
    rewrite (one_newline_per_run_cons c (Config.replace _ _ _ _)).
    rewrite (one_newline_per_run_cons c s), Hrun, Hhead. done.
Qed.

(** The loop, with turns enough, makes every run of newlines one. *)
Lemma cleanup_loop_runs (fuel : nat) :
  forall s : string,
    String.length s <= fuel ->
    Config.cleanup_loop fuel s = Config.one_newline_per_run s.
Proof.
  induction fuel as [|fuel IH]; intros s Hlen.
  - destruct s; [done|simpl in Hlen; lia].
  - cbn [Config.cleanup_loop].
    destruct (String.index 0 Config.DoubleNewline s) as [P|] eqn:HP.
    + destruct (replace_turn s P HP) as (Hlen' & Hrun & _).
      change (String.length Config.DoubleNewline) with 2.
      rewrite IH by lia. done.
    + symmetry. by apply one_newline_per_run_clean.
Qed.

End Cleanup.

(** X18.
    The loop of [getHumanReadableConfiguration] that cleans the text up
    comes to its end for every text, within as many turns as the text has
    characters; what it returns has no two newlines in a row, and is the text
    with nothing done to it but every run of newlines made one newline.  A
    text without two newlines in a row comes back as it is, and so do the
    texts of the four builds. *)
Theorem cleanup_ends (Text : string) :
  String.index 0 Config.DoubleNewline (Config.cleanup Text) = None /\
  Config.cleanup Text = Config.one_newline_per_run Text /\
  (forall fuel : nat,
     String.length Text <= fuel ->
     Config.cleanup_loop fuel Text = Config.cleanup Text) /\
  (String.index 0 Config.DoubleNewline Text = None ->
   Config.cleanup Text = Text) /\
  (forall shared logs : bool,
     Config.getHumanReadableConfiguration shared logs =
     ((if negb shared
       then " * STATIC library for implementation core" ++ newline
       else " * SHARED (dynamic) library for implementation core" ++ newline) ++
      (if negb logs
       then " - Non-essential trace logs" ++ newline
       else " + Non-essential trace logs" ++ newline))%string).
Proof.
  assert (Config.cleanup Text = Config.one_newline_per_run Text) as Hrun
    by (apply cleanup_loop_runs; done).
  split; [rewrite Hrun; apply one_newline_per_run_done|].
  split; [done|]. split.
  - intros fuel Hfuel. rewrite Hrun. by apply cleanup_loop_runs.
  - split.
    + intros Hclean. rewrite Hrun. by apply one_newline_per_run_clean.
    + intros [] []; reflexivity.
Qed.

(** ** The text of the version *)

Section VersionText.

Local Open Scope string_scope.

(** A number in decimal has no ['.'] in it, and tells the number. *)
Lemma string_of_uint_no_dot (d : Decimal.uint) :
  String.index 0 "." (NilEmpty.string_of_uint d) = None.
Proof.
  induction d as [|d IH|d IH|d IH|d IH|d IH|d IH|d IH|d IH|d IH|d IH];
    [done|..]; cbn [NilEmpty.string_of_uint]; rewrite index_cons;
    cbn [Ascii.eqb Bool.eqb]; by rewrite IH.
Qed.

Lemma decimal_no_dot (n : N) : String.index 0 "." (decimal n) = None.
Proof.
  unfold decimal, NilZero.string_of_uint.
  destruct (N.to_uint n) eqn:Hd; [done|..]; rewrite <- Hd;
    apply string_of_uint_no_dot.
Qed.

Lemma to_uint_nonnil (n : N) : N.to_uint n <> Decimal.Nil.
Proof.
  destruct n as [|p]; [done|]. apply DecimalPos.Unsigned.to_uint_nonnil.
Qed.

Lemma decimal_inj (a b : N) : decimal a = decimal b -> a = b.
Proof.
  unfold decimal. intros Heq.
  apply DecimalN.Unsigned.to_uint_inj.
  pose proof (NilZero.usu (N.to_uint a) (to_uint_nonnil a)) as Ha.
  pose proof (NilZero.usu (N.to_uint b) (to_uint_nonnil b)) as Hb.
  rewrite Heq in Ha. congruence.
Qed.

(** Texts without ['.'] in front of a ['.']: the cut is at the same place. *)
Lemma split_at_dot (a : string) :
  forall a' r r' : string,
    String.index 0 "." a = None -> String.index 0 "." a' = None ->
    a ++ String "." r = a' ++ String "." r' -> a = a' /\ r = r'.
Proof.
  induction a as [|c a IH]; intros [|c' a'] r r' Ha Ha'.
  - rewrite !append_nil_l. by intros [= ->].
  - rewrite append_nil_l, append_cons. intros [= <- _].
    by rewrite index_cons in Ha'.
  - rewrite append_nil_l, append_cons. intros [= -> _].
    by rewrite index_cons in Ha.
  - rewrite !append_cons. intros [= -> Heq].
    rewrite index_cons in Ha, Ha'.
    destruct (Ascii.eqb "." c'); [done|].
    destruct (String.index 0 "." a) eqn:Hia; [done|].
    destruct (String.index 0 "." a') eqn:Hia'; [done|].
    destruct (IH a' r r' eq_refl Hia' Heq) as [-> ->]. done.
Qed.

Lemma dot_found (a r : string) :
  String.index 0 "." (a ++ String "." r) <> None.
Proof.
  induction a as [|c a IH].
  - by rewrite append_nil_l, index_cons.
  - rewrite append_cons, index_cons. destruct (Ascii.eqb "." c); [done|].
    by destruct (String.index 0 "." (a ++ String "." r)).
Qed.

Lemma no_dot_app (n : N) (a r : string) :
  decimal n = a ++ String "." r -> False.
Proof.
  intros Heq. apply (dot_found a r). rewrite <- Heq. apply decimal_no_dot.
Qed.

End VersionText.

(** X19.
    The short version tells the four numbers of the version: two versions
    with the same short text have the same major, minor and patch number and
    the same build. *)
Theorem short_version_tells (V W : Version.Version) :
  Version.getShortVersion V = Version.getShortVersion W ->
  Version.Major V = Version.Major W /\ Version.Minor V = Version.Minor W /\
  Version.Patch V = Version.Patch W /\ Version.Build V = Version.Build W.
Proof.
  unfold Version.getShortVersion.
  destruct (N.eqb_spec (Version.Patch V) 0) as [HPV|HPV],
           (N.eqb_spec (Version.Build V) 0) as [HBV|HBV],
           (N.eqb_spec (Version.Patch W) 0) as [HPW|HPW],
           (N.eqb_spec (Version.Build W) 0) as [HBW|HBW];
    cbn [negb orb]; rewrite ?append_cons, ?append_nil_l, ?append_nil_r;
    intros Heq;
    apply split_at_dot in Heq as [HM Heq]; try apply decimal_no_dot;
    apply decimal_inj in HM;
    repeat match goal with
           | H : decimal _ = decimal _ |- _ => apply decimal_inj in H
           | H : decimal _ = (decimal _ ++ String "." _)%string |- _ =>
               destruct (no_dot_app _ _ _ H)
           | H : (decimal _ ++ String "." _)%string = decimal _ |- _ =>
               destruct (no_dot_app _ _ _ (eq_sym H))
           | H : (decimal _ ++ String "." _)%string =
                 (decimal _ ++ String "." _)%string |- _ =>
               apply split_at_dot in H as [? ?]; try apply decimal_no_dot
           end;
    repeat split; congruence.
Qed.

(** 1.2, 1.2.3 and 1.2.0.4. *)
Lemma short_version_tells_witness :
  let V := Version.mkVersion 1 2 0 4 0 "" false in
  let W := Version.mkVersion 1 2 0 4 7 "0123abc" true in
  Version.getShortVersion V = "1.2.0.4"%string /\
  Version.getShortVersion (Version.mkVersion 1 2 3 0 0 "" false) =
    "1.2.3"%string /\
  Version.getShortVersion (Version.mkVersion 1 2 0 0 0 "" false) =
    "1.2"%string /\
  Version.getFullVersion W = "1.2.0.4+7(0123abc)-dirty!"%string /\
  Version.getShortVersion V = Version.getShortVersion W /\
  Version.Build V = Version.Build W.
Proof.
  intros V W.
  split; [reflexivity|]. split; [reflexivity|]. split; [reflexivity|].
  split; [reflexivity|]. split; [reflexivity|].
  exact (proj2 (proj2 (proj2 (short_version_tells V W eq_refl)))).
Defined.

(** ** The socket path *)

Section SocketPath.
Context `{frontend.Collaborators}.
Variable Prog : string.

Import frontend.

(** Only [-s] sets the socket path of the client. *)
Lemma handle_option_SocketPath (r : getopt_result) (st : State) :
  is_option "s" r = false ->
  client.SocketPath (ClientOpts (handle_option Prog r st)) =
  client.SocketPath (ClientOpts st).
Proof.
  destruct r as [i|Opt optarg]; unfold handle_option; simpl.
  - intros _. destruct (String.eqb _ "server"); [by destruct st as [m s []]|].
    destruct (String.eqb _ "statistics"); [by destruct st as [m s []]|done].
  - intros Hs. unfold ascii_eqb. rewrite Hs.
    repeat match goal with
           | |- context [Ascii.eqb Opt ?c] =>
               destruct (Ascii.eqb_spec Opt c); [subst Opt|]
           end; try done;
      try (destruct st as [m s []]; simpl;
           repeat match goal with
                  | |- context [if ?b then _ else _] => destruct b
                  | |- context [match ?o with Some _ => _ | None => _ end] =>
                      destruct o
                  end; done).
Qed.

Lemma parse_SocketPath (opts : list getopt_result) :
  forall st : State,
    Forall (fun r => is_option "s" r = false) opts ->
    client.SocketPath
      (ClientOpts (fold_left (fun st r => handle_option Prog r st) opts st)) =
    client.SocketPath (ClientOpts st).
Proof.
  induction opts as [|r opts IH]; intros st Hno; simpl; [done|].
  inversion Hno as [|? ? Hr Hrest]; subst.
  rewrite IH by done. by apply handle_option_SocketPath.
Qed.

Lemma positional_SocketPath (args : list string) :
  forall st : State,
    client.SocketPath (ClientOpts (positional Prog args st)) =
    client.SocketPath (ClientOpts st).
Proof.
  induction args as [|arg args IH]; intros st; simpl; [done|].
  destruct (server.ServerMode (ServerOpts st)); [done|].
  rewrite IH. by destruct st as [m s []].
Qed.

(** The events of [dispatch] when the client has a socket path. *)
Lemma dispatch_SocketPath (st : State) (p : string) (e : event) :
  client.SocketPath (ClientOpts st) = Some p ->
  e ∈ (dispatch st).1 ->
  match e with
  | ServerMain o | ForkServerExec o =>
      server.SocketPath o = Some (absolutise p)
  | ClientMain c => client.SocketPath c = Some (absolutise p)
  | _ => True
  end.
Proof.
  intros Hp. unfold dispatch. rewrite Hp. cbn [present negb].
  rewrite andb_false_r, Hp.
  destruct (server.ServerMode _); simpl.
  - by intros [->|[->|[]%elem_of_nil]%elem_of_cons]%elem_of_cons.
  - set (ClientOpts2 := setSocketPath _ _).
    destruct (client_connect ClientOpts2 false); simpl.
    + by intros
        [->|[->|[->|[]%elem_of_nil]%elem_of_cons]%elem_of_cons]%elem_of_cons.
    + destruct (isControlMode ClientOpts2); simpl.
      * by intros
          [->|[->|[->|[]%elem_of_nil]%elem_of_cons]%elem_of_cons]%elem_of_cons.
      * destruct (client_connect ClientOpts2 true); simpl;
          intros Hin; repeat (apply elem_of_cons in Hin as [->|Hin]);
          try done; by apply elem_of_nil in Hin.
Qed.

End SocketPath.

(** X20.
    The socket path: of the [-s] on the command line the last counts, and the
    path that it gives, made absolute, is the path that the server is run
    with, the path that a server started for the client is run with, and the
    path of the client. *)
Theorem socket_path_used `{frontend.Collaborators} (Prog : string)
    (before after : list frontend.getopt_result) (p : string)
    (args : list string) (e : frontend.event) :
  Forall (fun r => frontend.is_option "s" r = false) after ->
  e ∈ (frontend.main Prog (before ++ frontend.GetoptChar "s" p :: after)
         args).1 ->
  match e with
  | frontend.ServerMain o | frontend.ForkServerExec o =>
      server.SocketPath o = Some (frontend.absolutise p)
  | frontend.ClientMain c =>
      client.SocketPath c = Some (frontend.absolutise p)
  | _ => True
  end.
Proof.
  intros Hafter. unfold frontend.main.
  set (opts := before ++ frontend.GetoptChar "s" p :: after).
  assert (client.SocketPath
            (frontend.ClientOpts (frontend.parse_options Prog opts)) = Some p)
    as Hp.
  { subst opts. unfold frontend.parse_options. rewrite fold_left_app. simpl.
    rewrite parse_SocketPath by done.
    unfold frontend.handle_option. by cbn. }
  set (st := frontend.parse_options Prog opts) in *.
  assert (forall (l : list string) (more : list frontend.event),
            (forall e', e' ∈ more ->
               match e' with
               | frontend.ServerMain o | frontend.ForkServerExec o =>
                   server.SocketPath o = Some (frontend.absolutise p)
               | frontend.ClientMain c =>
                   client.SocketPath c = Some (frontend.absolutise p)
               | _ => True
               end) ->
            e ∈ map frontend.Cerr l ++ more ->
            match e with
            | frontend.ServerMain o | frontend.ForkServerExec o =>
                server.SocketPath o = Some (frontend.absolutise p)
            | frontend.ClientMain c =>
                client.SocketPath c = Some (frontend.absolutise p)
            | _ => True
            end) as Hcerr.
  { intros l more Hmore [Hin|Hin]%elem_of_app; [|by apply Hmore].
    apply list_elem_of_fmap in Hin as (text & -> & _). done. }
  destruct (frontend.ShowHelp _).
  { simpl. apply Hcerr. by intros e' [->|[]%elem_of_nil]%elem_of_cons. }
  destruct (frontend.ShowVersion _).
  { simpl. apply Hcerr. intros e' [->|Hin]%elem_of_cons; [done|].
    destruct (frontend.ShowElaborateBuildInformation _);
      [by apply elem_of_cons in Hin as [->|[]%elem_of_nil]
      |by apply elem_of_nil in Hin]. }
  set (st0 := frontend.withMain frontend.chooseSeverity st).
  set (st1 := if _ && _ then _ else st0).
  set (st2 := if negb _ then _ else st1).
  assert (client.SocketPath (frontend.ClientOpts st2) = Some p) as Hp2.
  { subst st2 st1 st0. rewrite <- Hp.
    destruct (negb _), (_ && _); by destruct st as [m s []]. }
  pose proof (positional_SocketPath Prog args st2) as Hp3.
  rewrite Hp2 in Hp3.
  set (st3 := frontend.positional Prog args st2) in *.
  destruct (frontend.HadErrors st3).
  { simpl. rewrite <- (app_nil_r (map _ _)). apply Hcerr.
    by intros e' []%elem_of_nil. }
  destruct (frontend.dispatch st3) as [events status] eqn:Hd. simpl.
  apply Hcerr. intros e' [->|Hin]%elem_of_cons; [done|].
  apply (dispatch_SocketPath st3 p); [done|by rewrite Hd].
Qed.

(** [monomux --server -s /tmp/a -k -s /tmp/b]. *)
Lemma socket_path_used_witness :
  let before := [frontend.GetoptLong 3; frontend.GetoptChar "s" "/tmp/a";
                 frontend.GetoptChar "k" ""] in
  let o := server.mkOptions true true false (Some "/tmp/b"%string) in
  let opts := before ++ frontend.GetoptChar "s" "/tmp/b" :: [] in
  @frontend.main lonely "monomux" opts [] =
  ([frontend.LoggerSetLimit 3; frontend.SignalHandlingEnable;
    frontend.ServerMain o], 0%Z) /\
  frontend.ServerMain o ∈ (@frontend.main lonely "monomux" opts []).1 /\
  server.SocketPath o = Some (@frontend.absolutise lonely "/tmp/b").
Proof.
  intros before o opts.
  assert (frontend.ServerMain o ∈ (@frontend.main lonely "monomux" opts []).1)
    as Hin by (apply list_elem_of_In; simpl; auto).
  split; [reflexivity|]. split; [exact Hin|].
  exact (@socket_path_used lonely "monomux" before [] "/tmp/b" []
           (frontend.ServerMain o) (Forall_nil_2 _) Hin).
Defined.

Section FullVersionText.

Local Open Scope string_scope.

Lemma list_ascii_of_string_app (a b : string) :
  list_ascii_of_string (a ++ b) =
  (list_ascii_of_string a ++ list_ascii_of_string b)%list.
Proof.
  induction a as [|c a IH]; [done|].
  rewrite append_cons. cbn [list_ascii_of_string]. by rewrite IH.
Qed.

(** A text of characters of one kind in front of a text that does not start
    with such a character: the cut is at the same place. *)
Lemma split_where (P : ascii -> bool) (a : string) :
  forall a' r r' : string,
    forallb P (list_ascii_of_string a) = true ->
    forallb P (list_ascii_of_string a') = true ->
    match r with String c _ => P c = false | EmptyString => True end ->
    match r' with String c _ => P c = false | EmptyString => True end ->
    a ++ r = a' ++ r' -> a = a' /\ r = r'.
Proof.
  induction a as [|c a IH]; intros [|c' a'] r r' Ha Ha' Hr Hr'.
  - by rewrite !append_nil_l.
  - rewrite append_nil_l, append_cons. intros ->.
    cbn in Ha'. apply andb_true_iff in Ha' as [Hc _]. congruence.
  - rewrite append_nil_l, append_cons. intros <-.
    cbn in Ha. apply andb_true_iff in Ha as [Hc _]. congruence.
  - rewrite !append_cons. intros [= -> Heq].
    cbn in Ha, Ha'.
    apply andb_true_iff in Ha as [_ Ha]. apply andb_true_iff in Ha' as [_ Ha'].
    by destruct (IH a' r r' Ha Ha' Hr Hr' Heq) as [-> ->].
Qed.

(** The characters of a number in decimal are digits. *)
Lemma string_of_uint_digits (P : ascii -> bool) (d : Decimal.uint) :
  forallb P (list_ascii_of_string "0123456789") = true ->
  forallb P (list_ascii_of_string (NilEmpty.string_of_uint d)) = true.
Proof.
  intros HP. cbn in HP.
  repeat match type of HP with
         | _ && _ = true => apply andb_true_iff in HP as [? HP]
         end.
  induction d as [|d IH|d IH|d IH|d IH|d IH|d IH|d IH|d IH|d IH|d IH];
    [done|..]; cbn [NilEmpty.string_of_uint list_ascii_of_string forallb];
    apply andb_true_iff; by split.
Qed.

Lemma decimal_digits (P : ascii -> bool) (n : N) :
  forallb P (list_ascii_of_string "0123456789") = true ->
  forallb P (list_ascii_of_string (decimal n)) = true.
Proof.
  intros HP. unfold decimal, NilZero.string_of_uint.
  destruct (N.to_uint n) eqn:Hd;
    [by cbn in *; apply andb_true_iff in HP as [-> _]|..];
    rewrite <- Hd; by apply string_of_uint_digits.
Qed.

(** The short version is made of digits and ['.']. *)
Lemma getShortVersion_chars (P : ascii -> bool) (V : Version.Version) :
  forallb P (list_ascii_of_string "0123456789.") = true ->
  forallb P (list_ascii_of_string (Version.getShortVersion V)) = true.
Proof.
  intros HP.
  change "0123456789." with ("0123456789" ++ ".") in HP.
  rewrite list_ascii_of_string_app, forallb_app in HP.
  apply andb_true_iff in HP as [Hdigits Hdot].
  cbn in Hdot. rewrite andb_true_r in Hdot.
  unfold Version.getShortVersion.
  rewrite !list_ascii_of_string_app, !forallb_app, !decimal_digits by done.
  cbn [list_ascii_of_string forallb]. rewrite Hdot. cbn [andb].
  destruct (negb _ || negb _), (negb _); cbn [andb];
    rewrite ?list_ascii_of_string_app, ?forallb_app, ?decimal_digits by done;
    cbn [list_ascii_of_string forallb]; by rewrite ?Hdot.
Qed.

Lemma append_inj_tail (d a : string) :
  forall a' : string, a ++ d = a' ++ d -> a = a'.
Proof.
  induction a as [|c a IH]; intros [|c' a'].
  - done.
  - rewrite append_nil_l. intros Heq. apply (f_equal String.length) in Heq.
    rewrite append_cons in Heq. cbn [String.length] in Heq.
    rewrite length_append in Heq. lia.
  - rewrite append_nil_l. intros Heq. apply (f_equal String.length) in Heq.
    rewrite append_cons in Heq. cbn [String.length] in Heq.
    rewrite length_append in Heq. lia.
  - rewrite !append_cons. intros [= -> Heq]. by rewrite (IH a' Heq).
Qed.

Lemma last_char (x y : ascii) (a : string) :
  forall b : string, a ++ String x "" = b ++ String y "" -> x = y.
Proof.
  induction a as [|c a IH]; intros [|c' b].
  - rewrite !append_nil_l. by intros [= ->].
  - rewrite append_nil_l, append_cons. intros [= _ Heq]. by destruct b.
  - rewrite append_nil_l, append_cons. intros [= _ Heq]. by destruct a.
  - rewrite !append_cons. intros [= _ Heq]. by apply (IH b).
Qed.

End FullVersionText.

(** X21.
    The full version tells, beside the short version, the rest of the
    version: two versions with the same full text have the same short text,
    the same offset, the same commit and the same dirty flag. *)
Theorem full_version_tells (V W : Version.Version) :
  Version.getFullVersion V = Version.getFullVersion W ->
  Version.getShortVersion V = Version.getShortVersion W /\
  Version.Offset V = Version.Offset W /\
  Version.Commit V = Version.Commit W /\
  Version.IsDirty V = Version.IsDirty W.
Proof.
  unfold Version.getFullVersion. intros Heq.
  apply (split_where
           (fun c => negb (Ascii.eqb c "+") && negb (Ascii.eqb c "-")))
    in Heq as [Hshort Heq];
    try (by apply getShortVersion_chars);
    try (repeat match goal with
                | |- context [if ?b then _ else _] => destruct b
                end; done).
  split; [done|]. clear Hshort.
  destruct (N.eqb_spec (Version.Offset V) 0) as [HOV|HOV],
           (String.eqb_spec (Version.Commit V) "") as [HCV|HCV],
           (N.eqb_spec (Version.Offset W) 0) as [HOW|HOW],
           (String.eqb_spec (Version.Commit W) "") as [HCW|HCW];
    cbn [negb orb] in Heq;
    destruct (Version.IsDirty V), (Version.IsDirty W);
    repeat (rewrite append_assoc in Heq || rewrite append_cons in Heq ||
            rewrite append_nil_l in Heq || rewrite append_nil_r in Heq);
    try discriminate Heq;
    try (repeat split; congruence);
    injection Heq as Heq;
    (apply (split_where (fun c => negb (Ascii.eqb c "("))) in Heq
       as [HO Heq]; [|by apply decimal_digits..|done|done]);
    apply decimal_inj in HO; injection Heq as Heq.
  all: try (apply append_inj_tail in Heq; repeat split; congruence).
  all: exfalso.
  all: change ")-dirty!" with (")-dirty" ++ String "!" "")%string in Heq.
  all: rewrite <- append_assoc in Heq.
  all: first [by apply last_char in Heq
             |symmetry in Heq; by apply last_char in Heq].
Qed.

(** 1.2+7(0123abc)-dirty! *)
Lemma full_version_tells_witness :
  let V := Version.mkVersion 1 2 0 0 7 "0123abc" true in
  Version.getFullVersion V = "1.2+7(0123abc)-dirty!"%string /\
  Version.getFullVersion (Version.mkVersion 1 2 0 0 0 "" true) =
    "1.2-dirty!"%string /\
  Version.getFullVersion (Version.mkVersion 1 2 0 0 0 "0123abc" false) =
    "1.2+0(0123abc)"%string /\
  Version.Commit V = Version.Commit V.
Proof.
  intros V.
  split; [reflexivity|]. split; [reflexivity|]. split; [reflexivity|].
  exact (proj1 (proj2 (proj2 (full_version_tells V V eq_refl)))).
Defined.
